(** * BlackScholes.py: Black-Scholes-Merton pricing, Greeks and implied volatility

    Shallow embedding of [src/BlackScholes.py].

    Numeric model.  A Python [float] is idealised as a real number of the
    Standard Library ([R]): rounding, overflow, underflow and signed zeros
    are not part of the model (rounding is, in the double-precision
    statements described below).  The one non-real float the program
    manufactures itself, [float("nan")], is kept apart in the type
    [pyfloat].  Python exceptions are explicit: fallible code lives in the
    error monad [res].

    Library model.  [math.sqrt], [math.log], [math.exp] and the division
    operator follow the Python reference ([ValueError] on a domain error,
    [ZeroDivisionError] on a zero divisor).  [scipy.stats.norm.pdf] is the
    standard normal density and [scipy.stats.norm.cdf] the area under it,
    [1/2 + integral of pdf from 0 to x].  [scipy.optimize.brentq] is not
    embedded: the solver is a parameter of [implied_vol], constrained where
    needed by the documented contract [brentq_contract]. *)

(** Text and input model.  A Python [str] handled by [line], [box] and
    [ask_float] is the list of its code points; [str.center], [str.strip]
    and [str.isspace] follow CPython.  Standard input is the list of the
    lines still to be read, [input] takes the next one and raises
    [EOFError] when none is left; [float] on a string is a parameter.
    What the script prints is not modelled: the colour codes, the
    number formatting of [f4], [f6] and [money] and the layout of the
    report have no counterpart here. *)

(** Double precision.  Where a statement is about the values the
    program computes in floating point rather than about the formulas it
    evaluates, the functions on prices are taken a second time with every
    arithmetic operation and library call followed by rounding to the
    nearest binary64 number ([binary64], ties to even, subnormal numbers
    included; results beyond the largest double are not modelled).  The
    library functions are taken as correctly rounded; the C library and
    SciPy come within a few units in the last place of that, and the
    double-precision statements below only use values on which that makes
    no difference: exact small integers and powers of two, [exp(0) = 1],
    bounds with a margin of a thousand units in the last place, and
    [norm.cdf] twelve or more standard deviations out, where it is 1.0.

    The numbers typed in are real numbers as well: the strings ["nan"] and
    ["inf"], which [float] also accepts, have no counterpart among the
    inputs of [script]. *)

From Stdlib Require Import Reals Lra String Ascii Bool FunctionalExtensionality.
From Stdlib Require Import List ZArith NArith Lia.
Import ListNotations.

Open Scope R_scope.

(** * Part I.  The program *)

(** ** Exceptions and the error monad *)

Inductive exn : Set :=
| ZeroDivisionError
| ValueError
| IndexError
| RuntimeError.

Inductive res (A : Type) : Type :=
| Ok (a : A)
| Raise (e : exn).

Arguments Ok {A} a.
Arguments Raise {A} e.

Definition bind {A B : Type} (m : res A) (k : A -> res B) : res B :=
  match m with
  | Ok a => k a
  | Raise e => Raise e
  end.

Notation "x <- m ;; k" := (bind m (fun x => k))
  (at level 61, m at next level, right associativity).
Notation "' pat <- m ;; k" := (bind m (fun x => match x with pat => k end))
  (at level 61, pat pattern, m at next level, right associativity).

(** ** Python arithmetic and the [math] module *)

(** [x / y] on floats. *)
Definition py_div (x y : R) : res R :=
  if Req_dec_T y 0 then Raise ZeroDivisionError else Ok (x / y).

(** [math.sqrt]. *)
Definition math_sqrt (x : R) : res R :=
  if Rlt_dec x 0 then Raise ValueError else Ok (sqrt x).

(** [math.log]. *)
Definition math_log (x : R) : res R :=
  if Rle_dec x 0 then Raise ValueError else Ok (ln x).

(** [math.exp]. *)
Definition math_exp (x : R) : R := exp x.

(** [max(x, y)] on two floats: the first unless the second is greater. *)
Definition py_max (x y : R) : R := if Rlt_dec x y then y else x.

(** [x <= y] as the truth value Python tests. *)
Definition Rleb (x y : R) : bool := if Rle_dec x y then true else false.

(** Floats as returned by [implied_vol]: a real number or [float("nan")]. *)
Inductive pyfloat : Type :=
| Fin (x : R)
| NaN.

(** [math.isnan]. *)
Definition math_isnan (x : pyfloat) : bool :=
  match x with
  | NaN => true
  | Fin _ => false
  end.

(** ** Strings: [str.lower], [str.startswith], indexing

    A string is its sequence of characters; [lower] maps ['A'..'Z'] to
    ['a'..'z'] and leaves every other character alone.  (Of all Unicode
    characters only ['C'] and ['c'] lower to ['c'], so the test against
    ["c"] made by the program is the same on this model.) *)

Definition lower_ascii (c : ascii) : ascii :=
  let n := nat_of_ascii c in
  if andb (Nat.leb 65 n) (Nat.leb n 90) then ascii_of_nat (n + 32) else c.

Fixpoint lower (s : string) : string :=
  match s with
  | EmptyString => EmptyString
  | String c s' => String (lower_ascii c) (lower s')
  end.

(** [s.startswith(p)]. *)
Definition startswith (s p : string) : bool := prefix p s.

(** [s[0]]: the one-character string at index 0, [IndexError] on [""]. *)
Definition index0 (s : string) : res string :=
  match s with
  | EmptyString => Raise IndexError
  | String c _ => Ok (String c EmptyString)
  end.

(** ** [scipy.stats.norm] *)

(** [norm.pdf]. *)
Definition norm_pdf (x : R) : R := exp (- (x * x) / 2) / sqrt (2 * PI).

Lemma norm_pdf_continuous : continuity norm_pdf.
Proof.
  unfold norm_pdf, Rdiv.
  apply continuity_mult.
  - apply (continuity_comp (fun x => - (x * x) * / 2) exp).
    + apply continuity_mult.
      * apply continuity_opp.
        apply continuity_mult; apply derivable_continuous, derivable_id.
      * apply continuity_const. intros x y. reflexivity.
    + apply derivable_continuous, derivable_exp.
  - apply continuity_const. intros x y. reflexivity.
Qed.

Lemma norm_pdf_integrable (a b : R) : Riemann_integrable norm_pdf a b.
Proof.
  destruct (Rle_dec a b) as [Hab | Hab].
  - apply continuity_implies_RiemannInt;
      [exact Hab | intros x _; apply norm_pdf_continuous].
  - apply RiemannInt_P1, continuity_implies_RiemannInt;
      [lra | intros x _; apply norm_pdf_continuous].
Qed.

(** [norm.cdf]. *)
Definition norm_cdf (x : R) : R := 1 / 2 + RiemannInt (norm_pdf_integrable 0 x).

(** ** Black-Scholes with dividend yield q *)

(** [d1_d2(S, K, T, r, q, vol)]. *)
Definition d1_d2 (S K T r q vol : R) : res (R * R * R) :=
  sqrtT <- math_sqrt T ;;
  sk <- py_div S K ;;
  lsk <- math_log sk ;;
  d1 <- py_div (lsk + (r - q + 0.5 * vol * vol) * T) (vol * sqrtT) ;;
  let d2 := d1 - vol * sqrtT in
  Ok (d1, d2, sqrtT).

(** [bs_price(S, K, T, r, q, vol, opt_type)]. *)
Definition bs_price (S K T r q vol : R) (opt_type : string) : res R :=
  '(d1, d2, _) <- d1_d2 S K T r q vol ;;
  let disc_r := math_exp (- r * T) in
  let disc_q := math_exp (- q * T) in
  if startswith (lower opt_type) "c"
  then Ok (S * disc_q * norm_cdf d1 - K * disc_r * norm_cdf d2)
  else Ok (K * disc_r * norm_cdf (- d2) - S * disc_q * norm_cdf (- d1)).

(** The tuple returned by [greeks], one field per component, in order. *)
Record greeks_result : Type := mk_greeks {
  call : R;
  put : R;
  g_d1 : R;
  g_d2 : R;
  delta_c : R;
  delta_p : R;
  gamma : R;
  vega : R;
  theta_c : R;
  theta_p : R;
  rho_c : R;
  rho_p : R
}.

(** [greeks(S, K, T, r, q, vol)]. *)
Definition greeks (S K T r q vol : R) : res greeks_result :=
  '(d1, d2, sqrtT) <- d1_d2 S K T r q vol ;;
  let disc_r := math_exp (- r * T) in
  let disc_q := math_exp (- q * T) in
  let pdf := norm_pdf d1 in
  let call := S * disc_q * norm_cdf d1 - K * disc_r * norm_cdf d2 in
  let put := K * disc_r * norm_cdf (- d2) - S * disc_q * norm_cdf (- d1) in
  let delta_c := disc_q * norm_cdf d1 in
  let delta_p := disc_q * (norm_cdf d1 - 1.0) in
  gamma <- py_div (disc_q * pdf) (S * vol * sqrtT) ;;
  let vega := S * disc_q * pdf * sqrtT in
  decay_c <- py_div (- (S * disc_q * pdf * vol)) (2 * sqrtT) ;;
  let theta_c :=
    decay_c - r * K * disc_r * norm_cdf d2 + q * S * disc_q * norm_cdf d1 in
  decay_p <- py_div (- (S * disc_q * pdf * vol)) (2 * sqrtT) ;;
  let theta_p :=
    decay_p + r * K * disc_r * norm_cdf (- d2)
    - q * S * disc_q * norm_cdf (- d1) in
  let rho_c := K * T * disc_r * norm_cdf d2 in
  let rho_p := - K * T * disc_r * norm_cdf (- d2) in
  Ok (mk_greeks call put d1 d2 delta_c delta_p gamma vega
                theta_c theta_p rho_c rho_p).

(** The search bracket, iteration budget and tolerance passed to [brentq]. *)
Definition sigma_lo : R := 1e-6.
Definition sigma_hi : R := 5.0.
Definition iv_maxiter : nat := 200.
Definition iv_xtol : R := 1e-10.

(** Signature of [scipy.optimize.brentq(f, a, b, maxiter=, xtol=)]: the
    objective may itself raise; the solver returns a root or raises. *)
Definition solver : Type := (R -> res R) -> R -> R -> nat -> R -> res R.

(** The intrinsic-value bound of line 81 for the one-character string
    [c0 = opt_type[0]]. *)
Definition intrinsic_of (c0 : string) (S K disc_r disc_q : R) : R :=
  if String.eqb (lower c0) "c"
  then py_max 0.0 (S * disc_q - K * disc_r)
  else py_max 0.0 (K * disc_r - S * disc_q).

(** The objective
    [lambda sig: bs_price(S, K, T, r, q, sig, opt_type) - price_mkt]. *)
Definition objective (price_mkt S K T r q : R) (opt_type : string)
  : R -> res R :=
  fun sig => p <- bs_price S K T r q sig opt_type ;; Ok (p - price_mkt).

(** [implied_vol(price_mkt, S, K, T, r, q, opt_type)], over the solver. *)
Definition implied_vol (brentq : solver)
    (price_mkt S K T r q : R) (opt_type : string) : res pyfloat :=
  let disc_r := math_exp (- r * T) in
  let disc_q := math_exp (- q * T) in
  c0 <- index0 opt_type ;;
  let intrinsic := intrinsic_of c0 S K disc_r disc_q in
  if Rlt_dec price_mkt intrinsic then Ok NaN
  else
    let f := objective price_mkt S K T r q opt_type in
    match brentq f sigma_lo sigma_hi iv_maxiter iv_xtol with
    | Ok x => Ok (Fin x)
    | Raise _ => Ok NaN
    end.

(** ** The script: input validation, then the computation *)

(** What a run of the script ends in once the seven inputs are parsed:
    the input error with exit status 1, an uncaught exception, or the
    displayed results. *)
Inductive outcome : Type :=
| InputRejected
| Crashed (e : exn)
| Displayed (g : greeks_result) (iv : option (pyfloat * pyfloat)).

Definition script (brentq : solver)
    (S K T_days r vol q : R) (mkt_price : option R) : outcome :=
  if Rleb S 0 || Rleb K 0 || Rleb T_days 0 || Rleb vol 0
  then InputRejected
  else
    let T := T_days / 365.0 in
    match greeks S K T r q vol with
    | Raise e => Crashed e
    | Ok g =>
        match mkt_price with
        | None => Displayed g None
        | Some m =>
            match implied_vol brentq m S K T r q "call" with
            | Raise e => Crashed e
            | Ok iv_c =>
                match implied_vol brentq m S K T r q "put" with
                | Raise e => Crashed e
                | Ok iv_p => Displayed g (Some (iv_c, iv_p))
                end
            end
        end
    end.

(** ** The contract of [scipy.optimize.brentq]

    What the library documents and the properties below rely on: the root
    returned lies between [a] and [b], and a bracket whose end values have
    the same sign is refused with [ValueError]. *)

Definition brentq_in_bracket (brentq : solver) : Prop :=
  forall (f : R -> res R) (a b : R) (maxiter : nat) (xtol x : R),
    a <= b -> brentq f a b maxiter xtol = Ok x -> a <= x <= b.

Definition brentq_sign_check (brentq : solver) : Prop :=
  forall (f : R -> res R) (a b : R) (maxiter : nat) (xtol fa fb : R),
    f a = Ok fa -> f b = Ok fb -> 0 < fa * fb ->
    brentq f a b maxiter xtol = Raise ValueError.

Definition brentq_contract (brentq : solver) : Prop :=
  brentq_in_bracket brentq /\ brentq_sign_check brentq.

(** A reference solver honouring the contract: plain bisection with the
    same interface.  It shows the contract is inhabited and is the solver
    of the concrete runs below. *)
Fixpoint bisect_loop (f : R -> res R) (a b fa xtol : R) (n : nat) : res R :=
  match n with
  | O => Raise RuntimeError
  | S n' =>
      let m := (a + b) / 2 in
      fm <- f m ;;
      if Req_dec_T fm 0 then Ok m
      else if Rle_dec ((b - a) / 2) xtol then Ok m
      else if Rlt_dec (fa * fm) 0 then bisect_loop f a m fa xtol n'
      else bisect_loop f m b fm xtol n'
  end.

Definition bisect : solver :=
  fun f a b maxiter xtol =>
    fa <- f a ;;
    fb <- f b ;;
    if Req_dec_T fa 0 then Ok a
    else if Req_dec_T fb 0 then Ok b
    else if Rlt_dec 0 (fa * fb) then Raise ValueError
    else bisect_loop f a b fa xtol maxiter.

(** ** The first evaluations of [brentq] *)

(** [brentq] evaluates the objective at both ends of the bracket before
    anything else: it returns the lower end when the objective vanishes
    there, and an exception raised by the objective leaves it as it is. *)
Definition brentq_root_at_end (brentq : solver) : Prop :=
  forall (f : R -> res R) (a b : R) (maxiter : nat) (xtol fb : R),
    f a = Ok 0 -> f b = Ok fb -> brentq f a b maxiter xtol = Ok a.

Definition brentq_propagates (brentq : solver) : Prop :=
  forall (f : R -> res R) (a b : R) (maxiter : nat) (xtol : R) (e : exn),
    f a = Raise e -> brentq f a b maxiter xtol = Raise e.

(** ** Double precision *)

Definition pow2 (e : Z) : R := powerRZ 2 e.

(** The integer nearest to [t], the even one of the two when [t] is half
    way. *)
Definition Znearest_even (t : R) : Z :=
  let n := Int_part t in
  if Rlt_dec (t - IZR n) (/ 2) then n
  else if Rlt_dec (/ 2) (t - IZR n) then (n + 1)%Z
  else if Z.even n then n else (n + 1)%Z.

(** The binary exponent of [x <> 0]: [2^e <= |x| < 2^(e+1)]. *)
Definition ilog2 (x : R) : Z := Int_part (ln (Rabs x) / ln 2).

(** Rounding to the nearest binary64 number, ties to even: 53 significant
    bits, least exponent [-1074]. *)
Definition binary64 (x : R) : R :=
  if Req_dec_T x 0 then 0
  else
    let c := Z.max (ilog2 x - 52) (-1074) in
    IZR (Znearest_even (x * pow2 (- c))) * pow2 c.

(** ** The pricing functions, every operation rounded

    [d1_d2], [bs_price] and [implied_vol] once more, operation by operation
    as Python evaluates them (left to right, unary minus exact), each
    result passed through the rounding [rd].  With [rd] the identity these
    are the definitions above; with [rd = binary64] they are the values the
    program computes. *)

Section Rounded.

Variable rd : R -> R.

Definition div_r (x y : R) : res R :=
  if Req_dec_T y 0 then Raise ZeroDivisionError else Ok (rd (x / y)).

Definition sqrt_r (x : R) : res R :=
  if Rlt_dec x 0 then Raise ValueError else Ok (rd (sqrt x)).

Definition log_r (x : R) : res R :=
  if Rle_dec x 0 then Raise ValueError else Ok (rd (ln x)).

Definition exp_r (x : R) : R := rd (exp x).

Definition cdf_r (x : R) : R := rd (norm_cdf x).

Definition d1_d2_r (S K T r q vol : R) : res (R * R * R) :=
  sqrtT <- sqrt_r T ;;
  sk <- div_r S K ;;
  lsk <- log_r sk ;;
  d1 <- div_r (rd (lsk + rd (rd (rd (r - q) + rd (rd (0.5 * vol) * vol)) * T)))
              (rd (vol * sqrtT)) ;;
  let d2 := rd (d1 - rd (vol * sqrtT)) in
  Ok (d1, d2, sqrtT).

Definition bs_price_r (S K T r q vol : R) (opt_type : string) : res R :=
  '(d1, d2, _) <- d1_d2_r S K T r q vol ;;
  let disc_r := exp_r (rd (- r * T)) in
  let disc_q := exp_r (rd (- q * T)) in
  if startswith (lower opt_type) "c"
  then Ok (rd (rd (rd (S * disc_q) * cdf_r d1)
               - rd (rd (K * disc_r) * cdf_r d2)))
  else Ok (rd (rd (rd (K * disc_r) * cdf_r (- d2))
               - rd (rd (S * disc_q) * cdf_r (- d1)))).

Definition intrinsic_of_r (c0 : string) (S K disc_r disc_q : R) : R :=
  if String.eqb (lower c0) "c"
  then py_max 0.0 (rd (rd (S * disc_q) - rd (K * disc_r)))
  else py_max 0.0 (rd (rd (K * disc_r) - rd (S * disc_q))).

Definition objective_r (price_mkt S K T r q : R) (opt_type : string)
  : R -> res R :=
  fun sig => p <- bs_price_r S K T r q sig opt_type ;; Ok (rd (p - price_mkt)).

Definition implied_vol_r (brentq : solver)
    (price_mkt S K T r q : R) (opt_type : string) : res pyfloat :=
  let disc_r := exp_r (rd (- r * T)) in
  let disc_q := exp_r (rd (- q * T)) in
  c0 <- index0 opt_type ;;
  let intrinsic := intrinsic_of_r c0 S K disc_r disc_q in
  if Rlt_dec price_mkt intrinsic then Ok NaN
  else
    let f := objective_r price_mkt S K T r q opt_type in
    match brentq f (rd sigma_lo) (rd sigma_hi) iv_maxiter (rd iv_xtol) with
    | Ok x => Ok (Fin x)
    | Raise _ => Ok NaN
    end.

End Rounded.

(** ** Text helpers: [line] and [box] *)

(** A Python [str] as the list of its code points. *)
Definition ustr : Type := list N.

Definition SPACE : N := 32%N.
Definition BOX_H : N := 9472%N.   (* U+2500 *)
Definition BOX_V : N := 9474%N.   (* U+2502 *)
Definition BOX_TL : N := 9484%N.  (* U+250C *)
Definition BOX_TR : N := 9488%N.  (* U+2510 *)
Definition BOX_BL : N := 9492%N.  (* U+2514 *)
Definition BOX_BR : N := 9496%N.  (* U+2518 *)

(** [len(s)]. *)
Definition len (s : ustr) : Z := Z.of_nat (length s).

(** [s * n]: no copy at all for [n <= 0]. *)
Definition str_mul (s : ustr) (n : Z) : ustr := concat (repeat s (Z.to_nat n)).

(** [s.center(width)], padding with spaces as CPython does: the original
    string when it is already that wide, else [left] spaces before and the
    rest after, [left = marg / 2 + (marg & width & 1)]. *)
Definition center (s : ustr) (width : Z) : ustr :=
  if (width <=? len s)%Z then s
  else
    let marg := (width - len s)%Z in
    let left := (marg / 2 + Z.land (Z.land marg width) 1)%Z in
    str_mul [SPACE] left ++ s ++ str_mul [SPACE] (marg - left).

(** [line(w)]. *)
Definition line (w : Z) : ustr := str_mul [BOX_H] w.

(** [box(title, width)]. *)
Definition box (title : ustr) (width : Z) : ustr * ustr * ustr :=
  let top := [BOX_TL] ++ str_mul [BOX_H] (width - 2) ++ [BOX_TR] in
  let mid := [BOX_V] ++ center title (width - 2) ++ [BOX_V] in
  let bot := [BOX_BL] ++ str_mul [BOX_H] (width - 2) ++ [BOX_BR] in
  (top, mid, bot).

(** ** Reading the inputs: [ask_float] and the prompts of the script *)

(** [str.isspace] on one character. *)
Definition py_isspace (c : N) : bool :=
  ((9 <=? c) && (c <=? 13) || (28 <=? c) && (c <=? 32)
   || (c =? 133) || (c =? 160) || (c =? 5760)
   || (8192 <=? c) && (c <=? 8202)
   || (c =? 8232) || (c =? 8233) || (c =? 8239) || (c =? 8287)
   || (c =? 12288))%N.

Fixpoint lstrip (s : ustr) : ustr :=
  match s with
  | [] => []
  | c :: s' => if py_isspace c then lstrip s' else s
  end.

Definition rstrip (s : ustr) : ustr := rev (lstrip (rev s)).

(** [s.strip()]. *)
Definition strip (s : ustr) : ustr := rstrip (lstrip s).

(** Standard input: the lines still to be read.  [input] takes the next
    one and raises [EOFError] when none is left. *)
Definition stdin : Type := list ustr.

Inductive input_exn : Set :=
| Py (e : exn)
| EOFError.

Inductive io_res (A : Type) : Type :=
| Got (a : A) (rest : stdin)
| Failed (e : input_exn).

Arguments Got {A} a rest.
Arguments Failed {A} e.

Definition io (A : Type) : Type := stdin -> io_res A.

Definition io_ret {A : Type} (a : A) : io A := fun inp => Got a inp.

Definition io_bind {A B : Type} (m : io A) (k : A -> io B) : io B :=
  fun inp =>
    match m inp with
    | Got a rest => k a rest
    | Failed e => Failed e
    end.

Definition io_lift {A : Type} (m : res A) : io A :=
  fun inp =>
    match m with
    | Ok a => Got a inp
    | Raise e => Failed (Py e)
    end.

(** [input(prompt)]; the prompt goes to the terminal and is not kept. *)
Definition input (prompt : ustr) : io ustr :=
  fun inp =>
    match inp with
    | [] => Failed EOFError
    | l :: rest => Got l rest
    end.

(** Text given as a Rocq string of ASCII characters. *)
Definition u (s : string) : ustr := map N_of_ascii (list_ascii_of_string s).

Section Inputs.

(** [float(s)] on a string: the number it denotes, [ValueError] when it
    denotes none.  A parameter: the grammar of numerals is Python's, not
    the program's.  Texts that denote no real number ([nan], [inf]) are
    outside the numeric model. *)
Variable py_float : ustr -> res R.

(** The colour codes [LABEL] and [RST]: empty without colorama. *)
Variables LABEL RST : ustr.

(** [ask_float(prompt, default)]. *)
Definition ask_float (prompt : ustr) (default : option R) : io R :=
  io_bind (input prompt) (fun raw =>
    let s := strip raw in
    match s with
    | [] =>
        match default with
        | None => io_lift (Raise ValueError)
        | Some d => io_ret d
        end
    | _ :: _ => io_lift (py_float s)
    end).

(** The parsed inputs, in the order the script asks for them. *)
Record inputs : Type := mk_inputs {
  in_S : R;
  in_K : R;
  in_T_days : R;
  in_r : R;
  in_vol : R;
  in_q : R;
  in_mkt_price : option R
}.

(** Lines 97-105, the body of the [try]. *)
Definition read_inputs : io inputs :=
  io_bind (ask_float (LABEL ++ u "Underlying price (S): " ++ RST) None)
    (fun S =>
  io_bind (ask_float (LABEL ++ u "Strike price (K): " ++ RST) None)
    (fun K =>
  io_bind (ask_float (LABEL ++ u "Time to expiration (days): " ++ RST) None)
    (fun T_days =>
  io_bind (ask_float (LABEL ++ u "Risk-free rate r (decimal): " ++ RST) None)
    (fun r =>
  io_bind (ask_float (LABEL ++ u "Volatility " ++ [963%N] ++ u " (decimal): "
                        ++ RST) None)
    (fun vol =>
  io_bind (ask_float (LABEL ++ u "Dividend yield q (decimal) [default 0]: "
                        ++ RST) (Some 0.0))
    (fun q =>
  io_bind (input (LABEL ++ u "Market price for IV (blank to skip): " ++ RST))
    (fun raw =>
    let m_raw := strip raw in
    match m_raw with
    | [] => io_ret (mk_inputs S K T_days r vol q None)
    | _ :: _ =>
        io_bind (io_lift (py_float m_raw)) (fun m =>
          io_ret (mk_inputs S K T_days r vol q (Some m)))
    end))))))).

(** How a run of the whole script ends: the input error of line 107, or
    what the rest of the script does with the parsed inputs. *)
Inductive run : Type :=
| InputError (e : input_exn)
| Ran (o : outcome).

Definition main (brentq : solver) (inp : stdin) : run :=
  match read_inputs inp with
  | Failed e => InputError e
  | Got i _ =>
      Ran (script brentq (in_S i) (in_K i) (in_T_days i) (in_r i)
             (in_vol i) (in_q i) (in_mkt_price i))
  end.

End Inputs.

(** * Part II.  The vocabulary of the specification *)

Inductive OptionType : Set := Call | Put.

(** The strings the script passes for the two option types. *)
Definition opt_name (ty : OptionType) : string :=
  match ty with
  | Call => "call"
  | Put => "put"
  end.

(** The closed-form model, as the specification words it. *)
Definition bsm_d1 (S K T r q sigma : R) : R :=
  (ln (S / K) + (r - q + 0.5 * sigma ^ 2) * T) / (sigma * sqrt T).

Definition bsm_d2 (S K T r q sigma : R) : R :=
  bsm_d1 S K T r q sigma - sigma * sqrt T.

Definition bsm_price (S K T r q sigma : R) (ty : OptionType) : R :=
  match ty with
  | Call =>
      S * exp (- (q * T)) * norm_cdf (bsm_d1 S K T r q sigma)
      - K * exp (- (r * T)) * norm_cdf (bsm_d2 S K T r q sigma)
  | Put =>
      K * exp (- (r * T)) * norm_cdf (- bsm_d2 S K T r q sigma)
      - S * exp (- (q * T)) * norm_cdf (- bsm_d1 S K T r q sigma)
  end.

(** The discounted intrinsic value, as the specification words it. *)
Definition discounted_intrinsic (S K T r q : R) (ty : OptionType) : R :=
  match ty with
  | Call => Rmax 0 (S * exp (- (q * T)) - K * exp (- (r * T)))
  | Put => Rmax 0 (K * exp (- (r * T)) - S * exp (- (q * T)))
  end.

(** The pricing result of the data model for one option type, read off the
    tuple [greeks] returns: gamma and vega are the shared components. *)
Record PricingResult : Type := mk_result {
  price : R;
  delta : R;
  res_gamma : R;
  res_vega : R;
  theta : R;
  rho : R;
  res_d1 : R;
  res_d2 : R
}.

Definition pricing_result (ty : OptionType) (g : greeks_result)
  : PricingResult :=
  match ty with
  | Call => mk_result (call g) (delta_c g) (gamma g) (vega g)
                      (theta_c g) (rho_c g) (g_d1 g) (g_d2 g)
  | Put => mk_result (put g) (delta_p g) (gamma g) (vega g)
                     (theta_p g) (rho_p g) (g_d1 g) (g_d2 g)
  end.

(** The first character is ['c'] or ['C']. *)
Definition is_c (c : ascii) : bool := (c =? "c")%char || (c =? "C")%char.

(** The option type a non-empty string is treated as. *)
Definition classify (c : ascii) : OptionType := if is_c c then Call else Put.

(** Two quotes for the at-the-money call S = K = 100, T = 1, r = q = 0: its
    model price at 600% volatility, whose implied volatility lies above the
    search bracket, and its model price at the lower end of the bracket. *)
Definition quote_above_bracket : R := bsm_price 100 100 1 0 0 6 Call.
Definition quote_at_lo : R := bsm_price 100 100 1 0 0 sigma_lo Call.

(** The number a computation returns, [0] when it raises: the pricing
    functions as real functions of one of their arguments. *)
Definition value_of (m : res R) : R :=
  match m with
  | Ok x => x
  | Raise _ => 0
  end.

(** One component of what [greeks] returns, [0] when it raises. *)
Definition greek_of (proj : greeks_result -> R) (m : res greeks_result) : R :=
  value_of (g <- m ;; Ok (proj g)).

(** The option type any string, the empty one included, is priced as. *)
Definition classify_str (opt_type : string) : OptionType :=
  match opt_type with
  | EmptyString => Put
  | String c _ => classify c
  end.

(** The Greeks in closed form, as [greeks] computes them. *)
Definition bsm_greeks (S K T r q sigma : R) : greeks_result :=
  let d1 := bsm_d1 S K T r q sigma in
  let d2 := bsm_d2 S K T r q sigma in
  let disc_r := exp (- (r * T)) in
  let disc_q := exp (- (q * T)) in
  let decay := - (S * disc_q * norm_pdf d1 * sigma) / (2 * sqrt T) in
  mk_greeks
    (bsm_price S K T r q sigma Call) (bsm_price S K T r q sigma Put)
    d1 d2
    (disc_q * norm_cdf d1) (disc_q * (norm_cdf d1 - 1))
    (disc_q * norm_pdf d1 / (S * sigma * sqrt T))
    (S * disc_q * norm_pdf d1 * sqrt T)
    (decay - r * K * disc_r * norm_cdf d2 + q * S * disc_q * norm_cdf d1)
    (decay + r * K * disc_r * norm_cdf (- d2)
       - q * S * disc_q * norm_cdf (- d1))
    (K * T * disc_r * norm_cdf d2)
    (- K * T * disc_r * norm_cdf (- d2)).


(** The line [l] holds the number [x]: it is not blank and [float] reads
    [x] off its text. *)
Definition typed (py_float : ustr -> res R) (l : ustr) (x : R) : Prop :=
  strip l <> [] /\ py_float (strip l) = Ok x.

(** * Part III.  Properties *)

(** Case analysis on the next comparison the program makes. *)
Ltac py_case :=
  match goal with
  | |- context [Req_dec_T ?x ?y] => destruct (Req_dec_T x y)
  | |- context [Rlt_dec ?x ?y] => destruct (Rlt_dec x y)
  | |- context [Rle_dec ?x ?y] => destruct (Rle_dec x y)
  end.

Lemma lit_zero : 0.0 = 0.
Proof. lra. Qed.

Lemma lit_one : 1.0 = 1.
Proof. lra. Qed.

Lemma lit_half : 0.5 = / 2.
Proof. lra. Qed.

(** ** The normal distribution function *)

Lemma norm_pdf_pos (x : R) : 0 < norm_pdf x.
Proof.
  unfold norm_pdf. apply Rdiv_lt_0_compat.
  - apply exp_pos.
  - apply sqrt_lt_R0. pose proof PI_RGT_0. lra.
Qed.

Lemma norm_pdf_even (x : R) : norm_pdf (- x) = norm_pdf x.
Proof.
  unfold norm_pdf. f_equal. f_equal. lra.
Qed.

Lemma primitive_inside (f : R -> R) (a b : R) (h : a <= b)
    (pr : forall x : R, a <= x -> x <= b -> Riemann_integrable f a x)
    (y : R) (pry : Riemann_integrable f a y) :
  a <= y <= b -> primitive h pr y = RiemannInt pry.
Proof.
  intros [Hay Hyb]. unfold primitive.
  destruct (Rle_dec a y) as [r | n]; [| contradiction].
  destruct (Rle_dec y b) as [r0 | n0]; [| contradiction].
  apply RiemannInt_P5.
Qed.

(** On [x - 1, x + 1] the distribution function is a primitive of the
    density shifted by a constant. *)
Lemma norm_cdf_local (x : R) (h : x - 1 <= x + 1)
    (C0 : forall y : R, x - 1 <= y <= x + 1 -> continuity_pt norm_pdf y)
    (y : R) :
  x - 1 <= y <= x + 1 ->
  norm_cdf y =
  1 / 2 - RiemannInt (norm_pdf_integrable (x - 1) 0)
  + primitive h (FTC_P1 h C0) y.
Proof.
  intros Hy. unfold norm_cdf.
  rewrite (primitive_inside _ _ _ h (FTC_P1 h C0) y
             (norm_pdf_integrable (x - 1) y) Hy).
  rewrite <- (RiemannInt_P26 (norm_pdf_integrable (x - 1) 0)
                (norm_pdf_integrable 0 y) (norm_pdf_integrable (x - 1) y)).
  ring.
Qed.

(** The density is the derivative of the distribution function. *)
Lemma norm_cdf_derive (x : R) : derivable_pt_lim norm_cdf x (norm_pdf x).
Proof.
  assert (h : x - 1 <= x + 1) by lra.
  assert (C0 : forall y : R, x - 1 <= y <= x + 1 -> continuity_pt norm_pdf y)
    by (intros y _; apply norm_pdf_continuous).
  assert (Hx : x - 1 <= x <= x + 1) by lra.
  pose proof (RiemannInt_P28 h C0 Hx) as HP.
  intros eps Heps. destruct (HP eps Heps) as [delta Hdelta].
  assert (Hmin : 0 < Rmin delta 1) by (apply Rmin_pos; [apply cond_pos | lra]).
  exists (mkposreal _ Hmin). simpl. intros k Hk Hlt.
  assert (Hk1 : Rabs k < 1) by (eapply Rlt_le_trans; [exact Hlt | apply Rmin_r]).
  assert (Hkd : Rabs k < delta)
    by (eapply Rlt_le_trans; [exact Hlt | apply Rmin_l]).
  assert (Hxk : x - 1 <= x + k <= x + 1).
  { apply Rabs_def2 in Hk1. lra. }
  rewrite (norm_cdf_local x h C0 (x + k) Hxk), (norm_cdf_local x h C0 x Hx).
  replace (1 / 2 - RiemannInt (norm_pdf_integrable (x - 1) 0) +
           primitive h (FTC_P1 h C0) (x + k) -
           (1 / 2 - RiemannInt (norm_pdf_integrable (x - 1) 0) +
            primitive h (FTC_P1 h C0) x))
    with (primitive h (FTC_P1 h C0) (x + k) - primitive h (FTC_P1 h C0) x)
    by ring.
  apply Hdelta; assumption.
Qed.

Lemma norm_cdf_0 : norm_cdf 0 = 1 / 2.
Proof.
  unfold norm_cdf. rewrite RiemannInt_P9. lra.
Qed.

(** Strict monotonicity of a function with a positive derivative. *)
Lemma pos_derivative_increasing (f f' : R -> R) (a b : R) :
  a < b ->
  (forall c : R, a <= c <= b -> derivable_pt_lim f c (f' c)) ->
  (forall c : R, a <= c <= b -> 0 < f' c) ->
  f a < f b.
Proof.
  intros Hab Hd Hpos.
  destruct (MVT_cor2 f f' a b Hab Hd) as [c [Heq Hc]].
  assert (0 < f' c * (b - a)).
  { apply Rmult_lt_0_compat; [apply Hpos; lra | lra]. }
  lra.
Qed.

(** A function whose derivative vanishes between two points takes the same
    value at both. *)
Lemma null_derivative_eq (f : R -> R) (a b : R) :
  a < b ->
  (forall c : R, a <= c <= b -> derivable_pt_lim f c 0) ->
  f a = f b.
Proof.
  intros Hab Hd.
  destruct (MVT_cor2 f (fun _ => 0) a b Hab Hd) as [c [Heq _]].
  lra.
Qed.

Lemma norm_cdf_increasing (x y : R) : x < y -> norm_cdf x < norm_cdf y.
Proof.
  intros Hxy.
  apply (pos_derivative_increasing norm_cdf norm_pdf); auto.
  - intros c _. apply norm_cdf_derive.
  - intros c _. apply norm_pdf_pos.
Qed.

(** Symmetry of the normal distribution function. *)
Lemma norm_cdf_opp (x : R) : norm_cdf (- x) = 1 - norm_cdf x.
Proof.
  set (G := fun t : R => norm_cdf t + norm_cdf (- t)).
  assert (HG : forall c : R, derivable_pt_lim G c 0).
  { intros c. unfold G.
    replace 0 with (norm_pdf c + norm_pdf (- c) * (-1))
      by (rewrite norm_pdf_even; ring).
    apply derivable_pt_lim_plus.
    - apply norm_cdf_derive.
    - apply (derivable_pt_lim_comp (fun t => - t) norm_cdf).
      + replace (-1) with (- 1) by ring.
        apply derivable_pt_lim_opp, derivable_pt_lim_id.
      + apply norm_cdf_derive. }
  assert (H0 : G 0 = 1).
  { unfold G. rewrite Ropp_0, norm_cdf_0. lra. }
  assert (HGx : G x = 1).
  { destruct (Rtotal_order x 0) as [Hlt | [Heq | Hgt]].
    - rewrite <- H0. apply null_derivative_eq; [exact Hlt | intros c _; apply HG].
    - subst x. exact H0.
    - rewrite <- H0. symmetry.
      apply null_derivative_eq; [exact Hgt | intros c _; apply HG]. }
  unfold G in HGx. lra.
Qed.

(** ** Evaluation on valid inputs *)

Section ValidInputs.

Variables S K T r q vol : R.
Hypothesis S_pos : 0 < S.
Hypothesis K_pos : 0 < K.
Hypothesis T_pos : 0 < T.
Hypothesis vol_pos : 0 < vol.

Lemma sqrtT_pos : 0 < sqrt T.
Proof. apply sqrt_lt_R0. exact T_pos. Qed.

Lemma d1_d2_valid :
  d1_d2 S K T r q vol =
  Ok (bsm_d1 S K T r q vol, bsm_d2 S K T r q vol, sqrt T).
Proof.
  pose proof sqrtT_pos as HsT.
  assert (Hsk : 0 < S / K) by (apply Rdiv_lt_0_compat; assumption).
  assert (Hden : 0 < vol * sqrt T) by (apply Rmult_lt_0_compat; assumption).
  unfold d1_d2, math_sqrt.
  py_case; [lra |]. cbn [bind].
  unfold py_div at 1. py_case; [lra |]. cbn [bind].
  unfold math_log. py_case; [lra |]. cbn [bind].
  unfold py_div. py_case; [lra |]. cbn [bind].
  unfold bsm_d2, bsm_d1.
  replace (0.5 * vol * vol) with (0.5 * vol ^ 2) by ring.
  reflexivity.
Qed.

Lemma exp_disc (x : R) : math_exp (- x * T) = exp (- (x * T)).
Proof. unfold math_exp. f_equal. ring. Qed.

Lemma bs_price_valid (ty : OptionType) :
  bs_price S K T r q vol (opt_name ty) = Ok (bsm_price S K T r q vol ty).
Proof.
  unfold bs_price. rewrite d1_d2_valid. cbn [bind].
  rewrite !exp_disc.
  destruct ty; reflexivity.
Qed.

Lemma greeks_valid :
  let d1 := bsm_d1 S K T r q vol in
  let d2 := bsm_d2 S K T r q vol in
  let disc_r := exp (- (r * T)) in
  let disc_q := exp (- (q * T)) in
  let decay := - (S * disc_q * norm_pdf d1 * vol) / (2 * sqrt T) in
  greeks S K T r q vol =
  Ok (mk_greeks
        (bsm_price S K T r q vol Call)
        (bsm_price S K T r q vol Put)
        d1 d2
        (disc_q * norm_cdf d1)
        (disc_q * (norm_cdf d1 - 1))
        (disc_q * norm_pdf d1 / (S * vol * sqrt T))
        (S * disc_q * norm_pdf d1 * sqrt T)
        (decay - r * K * disc_r * norm_cdf d2 + q * S * disc_q * norm_cdf d1)
        (decay + r * K * disc_r * norm_cdf (- d2)
           - q * S * disc_q * norm_cdf (- d1))
        (K * T * disc_r * norm_cdf d2)
        (- K * T * disc_r * norm_cdf (- d2))).
Proof.
  pose proof sqrtT_pos as HsT.
  assert (Hg : 0 < S * vol * sqrt T)
    by (repeat apply Rmult_lt_0_compat; assumption).
  intros d1 d2 disc_r disc_q decay.
  unfold greeks. rewrite d1_d2_valid. cbn [bind].
  rewrite !exp_disc, lit_one.
  unfold py_div.
  destruct (Req_dec_T (S * vol * sqrt T) 0) as [H0 | _]; [lra |].
  destruct (Req_dec_T (2 * sqrt T) 0) as [H0 | _]; [lra |].
  cbn [bind]. reflexivity.
Qed.

(** Put-call parity of the closed form. *)
Lemma bsm_parity :
  bsm_price S K T r q vol Call - bsm_price S K T r q vol Put =
  S * exp (- (q * T)) - K * exp (- (r * T)).
Proof.
  unfold bsm_price. rewrite !norm_cdf_opp. ring.
Qed.

Lemma objective_valid (m : R) (ty : OptionType) :
  objective m S K T r q (opt_name ty) vol =
  Ok (bsm_price S K T r q vol ty - m).
Proof.
  unfold objective. rewrite bs_price_valid. reflexivity.
Qed.

End ValidInputs.

(** ** What the pricing functions do outside their precondition

    They carry no check of their own: a zero volatility or expiry divides
    by zero, a negative expiry leaves the domain of the square root, and a
    negative volatility goes through and yields a number. *)

Lemma d1_d2_zero_vol (S K T r q : R) :
  0 < S -> 0 < K -> 0 < T ->
  d1_d2 S K T r q 0 = Raise ZeroDivisionError.
Proof.
  intros HS HK HT.
  assert (Hsk : 0 < S / K) by (apply Rdiv_lt_0_compat; assumption).
  unfold d1_d2, math_sqrt.
  py_case; [lra |]. cbn [bind].
  unfold py_div at 1. py_case; [lra |]. cbn [bind].
  unfold math_log. py_case; [lra |]. cbn [bind].
  unfold py_div.
  destruct (Req_dec_T (0 * sqrt T) 0) as [_ | Hne]; [reflexivity |].
  exfalso. apply Hne. ring.
Qed.

Lemma d1_d2_zero_expiry (S K r q vol : R) :
  0 < S -> 0 < K ->
  d1_d2 S K 0 r q vol = Raise ZeroDivisionError.
Proof.
  intros HS HK.
  assert (Hsk : 0 < S / K) by (apply Rdiv_lt_0_compat; assumption).
  unfold d1_d2, math_sqrt.
  py_case; [lra |]. cbn [bind].
  unfold py_div at 1. py_case; [lra |]. cbn [bind].
  unfold math_log. py_case; [lra |]. cbn [bind].
  unfold py_div.
  destruct (Req_dec_T (vol * sqrt 0) 0) as [_ | Hne]; [reflexivity |].
  exfalso. apply Hne. rewrite sqrt_0. ring.
Qed.

Lemma d1_d2_negative_expiry (S K T r q vol : R) :
  T < 0 -> d1_d2 S K T r q vol = Raise ValueError.
Proof.
  intros HT. unfold d1_d2, math_sqrt.
  py_case; [reflexivity | contradiction].
Qed.

Lemma bs_price_negative_vol :
  exists v : R, bs_price 100 100 1 0 0 (-0.2) "call" = Ok v.
Proof.
  unfold bs_price, d1_d2, math_sqrt, math_log, py_div.
  rewrite sqrt_1.
  destruct (Rlt_dec 1 0) as [H | _]; [lra |]. cbn [bind].
  destruct (Req_dec_T 100 0) as [H | _]; [lra |]. cbn [bind].
  destruct (Rle_dec (100 / 100) 0) as [H | _]; [lra |]. cbn [bind].
  destruct (Req_dec_T (-0.2 * 1) 0) as [H | _]; [lra |].
  cbn [bind]. eexists. reflexivity.
Qed.

(** ** Sensitivity of the closed form to volatility *)

Lemma dpl_value (f : R -> R) (x l l' : R) :
  l = l' -> derivable_pt_lim f x l -> derivable_pt_lim f x l'.
Proof. intros <-. exact (fun H => H). Qed.

Lemma dpl_minus (f g : R -> R) (x l1 l2 : R) :
  derivable_pt_lim f x l1 -> derivable_pt_lim g x l2 ->
  derivable_pt_lim (fun v => f v - g v) x (l1 - l2).
Proof. exact (derivable_pt_lim_minus f g x l1 l2). Qed.

Lemma dpl_plus (f g : R -> R) (x l1 l2 : R) :
  derivable_pt_lim f x l1 -> derivable_pt_lim g x l2 ->
  derivable_pt_lim (fun v => f v + g v) x (l1 + l2).
Proof. exact (derivable_pt_lim_plus f g x l1 l2). Qed.

Lemma dpl_scal (f : R -> R) (a x l : R) :
  derivable_pt_lim f x l -> derivable_pt_lim (fun v => a * f v) x (a * l).
Proof. exact (derivable_pt_lim_scal f a x l). Qed.

Lemma dpl_comp (f g : R -> R) (x l1 l2 : R) :
  derivable_pt_lim f x l1 -> derivable_pt_lim g (f x) l2 ->
  derivable_pt_lim (fun v => g (f v)) x (l2 * l1).
Proof. exact (derivable_pt_lim_comp f g x l1 l2). Qed.

Lemma dpl_div (f g : R -> R) (x l1 l2 : R) :
  derivable_pt_lim f x l1 -> derivable_pt_lim g x l2 -> g x <> 0 ->
  derivable_pt_lim (fun v => f v / g v) x ((l1 * g x - l2 * f x) / Rsqr (g x)).
Proof. exact (derivable_pt_lim_div f g x l1 l2). Qed.

Lemma dpl_const (a x : R) : derivable_pt_lim (fun _ => a) x 0.
Proof. exact (derivable_pt_lim_const a x). Qed.

Lemma dpl_id (x : R) : derivable_pt_lim (fun v => v) x 1.
Proof. exact (derivable_pt_lim_id x). Qed.

(** Derivative of [d1] in the volatility. *)
Lemma bsm_d1_derive (S K T r q sigma : R) :
  0 < T -> 0 < sigma ->
  derivable_pt_lim (fun v => bsm_d1 S K T r q v) sigma
    ((0.5 * sigma ^ 2 * T - ln (S / K) - (r - q) * T) / (sigma ^ 2 * sqrt T)).
Proof.
  intros HT Hsig.
  assert (Hs : 0 < sqrt T) by (apply sqrt_lt_R0; exact HT).
  unfold bsm_d1. rewrite lit_half.
  set (L := ln (S / K)). set (s := sqrt T) in *.
  assert (Hnum : derivable_pt_lim
                   (fun v => L + (r - q) * T + (/ 2 * T) * Rsqr v) sigma
                   (0 + (/ 2 * T) * (2 * sigma))).
  { apply dpl_plus; [apply dpl_const | apply dpl_scal, derivable_pt_lim_Rsqr]. }
  assert (Hden : derivable_pt_lim (fun v => s * v) sigma (s * 1))
    by (apply dpl_scal, dpl_id).
  assert (Hnz : s * sigma <> 0) by (apply Rgt_not_eq, Rmult_lt_0_compat; lra).
  pose proof (dpl_div _ _ _ _ _ Hnum Hden Hnz) as Hq. cbv beta in Hq.
  apply derivable_pt_lim_ext
    with (f := fun v => (L + (r - q) * T + / 2 * T * Rsqr v) / (s * v)).
  - intros z. unfold Rsqr. f_equal; ring.
  - eapply dpl_value; [| exact Hq].
    unfold Rsqr. field. split; lra.
Qed.

(** The two legs of the call carry the same density weight. *)
Lemma bsm_pdf_balance (S K T r q sigma : R) :
  0 < S -> 0 < K -> 0 < T -> 0 < sigma ->
  S * exp (- (q * T)) * norm_pdf (bsm_d1 S K T r q sigma) =
  K * exp (- (r * T)) * norm_pdf (bsm_d2 S K T r q sigma).
Proof.
  intros HS HK HT Hsig.
  assert (Hs : 0 < sqrt T) by (apply sqrt_lt_R0; exact HT).
  assert (Hss : sqrt T * sqrt T = T) by (apply sqrt_sqrt; lra).
  assert (Hsk : 0 < S / K) by (apply Rdiv_lt_0_compat; assumption).
  assert (Hexp :
    - (bsm_d1 S K T r q sigma * bsm_d1 S K T r q sigma) / 2 =
    - (bsm_d2 S K T r q sigma * bsm_d2 S K T r q sigma) / 2
    + (- ln (S / K) + (- (r * T) + q * T))).
  { unfold bsm_d2, bsm_d1.
    generalize dependent (sqrt T). intros s Hs Hss.
    generalize (ln (S / K)). intros L.
    rewrite <- Hss, lit_half. field. split; lra. }
  unfold norm_pdf. rewrite Hexp.
  rewrite !exp_plus, (exp_Ropp (ln (S / K))), exp_ln by exact Hsk.
  assert (Hsq : sqrt (2 * PI) <> 0).
  { apply Rgt_not_eq, sqrt_lt_R0. pose proof PI_RGT_0. lra. }
  replace (exp (- (q * T))) with (/ exp (q * T))
    by (rewrite exp_Ropp; reflexivity).
  pose proof (exp_pos (q * T)).
  field. repeat split; lra.
Qed.

(** Vega of the closed form: the derivative of the call price in the
    volatility. *)
Lemma bsm_call_vega (S K T r q sigma : R) :
  0 < S -> 0 < K -> 0 < T -> 0 < sigma ->
  derivable_pt_lim (fun v => bsm_price S K T r q v Call) sigma
    (S * exp (- (q * T)) * norm_pdf (bsm_d1 S K T r q sigma) * sqrt T).
Proof.
  intros HS HK HT Hsig.
  assert (Hs : 0 < sqrt T) by (apply sqrt_lt_R0; exact HT).
  pose proof (bsm_d1_derive S K T r q sigma HT Hsig) as Hd1.
  set (d1' := (0.5 * sigma ^ 2 * T - ln (S / K) - (r - q) * T)
              / (sigma ^ 2 * sqrt T)) in *.
  assert (Hd2 : derivable_pt_lim (fun v => bsm_d2 S K T r q v) sigma
                  (d1' - sqrt T * 1)).
  { unfold bsm_d2.
    apply derivable_pt_lim_ext
      with (f := fun v => bsm_d1 S K T r q v - sqrt T * v).
    - intros z. ring.
    - apply dpl_minus; [exact Hd1 | apply dpl_scal, dpl_id]. }
  pose proof (dpl_comp _ norm_cdf _ _ _ Hd1 (norm_cdf_derive _)) as H1.
  pose proof (dpl_comp _ norm_cdf _ _ _ Hd2 (norm_cdf_derive _)) as H2.
  cbv beta in H1, H2.
  pose proof (dpl_minus _ _ _ _ _
                (dpl_scal _ (S * exp (- (q * T))) _ _ H1)
                (dpl_scal _ (K * exp (- (r * T))) _ _ H2)) as H.
  cbv beta in H. unfold bsm_price.
  eapply dpl_value; [| exact H].
  pose proof (bsm_pdf_balance S K T r q sigma HS HK HT Hsig) as Hbal.
  set (A := S * exp (- (q * T))) in *.
  set (B := K * exp (- (r * T))) in *.
  set (p1 := norm_pdf (bsm_d1 S K T r q sigma)) in *.
  set (p2 := norm_pdf (bsm_d2 S K T r q sigma)) in *.
  replace (B * (p2 * (d1' - sqrt T * 1))) with ((B * p2) * (d1' - sqrt T))
    by ring.
  rewrite <- Hbal. ring.
Qed.

Lemma bsm_vega_pos (S T q d : R) :
  0 < S -> 0 < T -> 0 < S * exp (- (q * T)) * norm_pdf d * sqrt T.
Proof.
  intros HS HT.
  pose proof (norm_pdf_pos d) as Hpdf.
  pose proof (exp_pos (- (q * T))) as Hexp.
  pose proof (sqrt_lt_R0 T HT) as Hs.
  apply Rmult_lt_0_compat; [| exact Hs].
  apply Rmult_lt_0_compat; [| exact Hpdf].
  apply Rmult_lt_0_compat; assumption.
Qed.

Lemma bsm_call_increasing (S K T r q x y : R) :
  0 < S -> 0 < K -> 0 < T -> 0 < x -> x < y ->
  bsm_price S K T r q x Call < bsm_price S K T r q y Call.
Proof.
  intros HS HK HT Hx Hxy.
  apply (pos_derivative_increasing (fun v => bsm_price S K T r q v Call)
           (fun v => S * exp (- (q * T)) * norm_pdf (bsm_d1 S K T r q v)
                     * sqrt T)).
  - exact Hxy.
  - intros c Hc. apply bsm_call_vega; lra.
  - intros c Hc. apply bsm_vega_pos; assumption.
Qed.



(** When the two discounted legs are equal, the call has positive value. *)
Lemma bsm_call_pos_at_forward (S K T r q sigma : R) :
  0 < S -> 0 < T -> 0 < sigma ->
  S * exp (- (q * T)) = K * exp (- (r * T)) ->
  0 < bsm_price S K T r q sigma Call.
Proof.
  intros HS HT Hsig Hfwd. unfold bsm_price. rewrite <- Hfwd.
  assert (Hs : 0 < sqrt T) by (apply sqrt_lt_R0; exact HT).
  assert (Hd : bsm_d2 S K T r q sigma < bsm_d1 S K T r q sigma).
  { unfold bsm_d2.
    assert (0 < sigma * sqrt T) by (apply Rmult_lt_0_compat; lra). lra. }
  apply norm_cdf_increasing in Hd.
  assert (HA : 0 < S * exp (- (q * T)))
    by (apply Rmult_lt_0_compat; [exact HS | apply exp_pos]).
  nra.
Qed.

(** ** Option-type strings *)

Lemma lower_ascii_is_c (c : ascii) : (lower_ascii c =? "c")%char = is_c c.
Proof.
  destruct c as [b0 b1 b2 b3 b4 b5 b6 b7].
  destruct b0, b1, b2, b3, b4, b5, b6, b7; reflexivity.
Qed.

Lemma is_c_spec (c : ascii) :
  is_c c = true <-> c = "c"%char \/ c = "C"%char.
Proof.
  unfold is_c. rewrite orb_true_iff, !Ascii.eqb_eq. reflexivity.
Qed.

Lemma startswith_lower_c (c : ascii) (rest : string) :
  startswith (lower (String c rest)) "c" = is_c c.
Proof.
  rewrite <- lower_ascii_is_c. unfold startswith. cbn [lower prefix].
  destruct (ascii_dec "c" (lower_ascii c)) as [He | Hne].
  - rewrite <- He. destruct (lower rest); reflexivity.
  - symmetry. apply Ascii.eqb_neq. congruence.
Qed.

Lemma index0_lower_c (c : ascii) :
  String.eqb (lower (String c EmptyString)) "c" = is_c c.
Proof.
  rewrite <- lower_ascii_is_c. cbn [lower String.eqb].
  destruct (lower_ascii c =? "c")%char; reflexivity.
Qed.

Lemma startswith_opt_name (c : ascii) :
  startswith (lower (opt_name (classify c))) "c" = is_c c.
Proof.
  unfold classify. destruct (is_c c); reflexivity.
Qed.

Example lower_mixed_case : lower "Call" = "call"%string.
Proof. reflexivity. Qed.

Example startswith_upper : startswith (lower "CALL") "c" = true.
Proof. reflexivity. Qed.

Example startswith_unrecognised : startswith (lower "xyz") "c" = false.
Proof. reflexivity. Qed.

(** The empty string is where the two tests part: [startswith] answers
    no, indexing raises. *)
Example startswith_empty : startswith (lower "") "c" = false.
Proof. reflexivity. Qed.

Example implied_vol_empty (brentq : solver) (m S K T r q : R) :
  implied_vol brentq m S K T r q "" = Raise IndexError.
Proof. reflexivity. Qed.

Lemma canonical_name (c : ascii) :
  (if is_c c then "call"%string else "put"%string) = opt_name (classify c).
Proof.
  unfold classify. destruct (is_c c); reflexivity.
Qed.

(** Pricing depends on the option-type string through its first character
    only. *)
Lemma bs_price_classify (S K T r q vol : R) (c : ascii) (rest : string) :
  bs_price S K T r q vol (String c rest) =
  bs_price S K T r q vol (opt_name (classify c)).
Proof.
  unfold bs_price. rewrite startswith_lower_c, startswith_opt_name.
  reflexivity.
Qed.

Lemma objective_classify (m S K T r q : R) (c : ascii) (rest : string) :
  objective m S K T r q (String c rest) =
  objective m S K T r q (opt_name (classify c)).
Proof.
  apply functional_extensionality. intros sig.
  unfold objective. rewrite bs_price_classify. reflexivity.
Qed.

(** ** The intrinsic-value bound and the shape of [implied_vol] *)

Lemma py_max_Rmax (x y : R) : py_max x y = Rmax x y.
Proof.
  unfold py_max, Rmax.
  destruct (Rlt_dec x y), (Rle_dec x y); lra.
Qed.

Lemma intrinsic_of_classify (S K T r q : R) (c : ascii) :
  intrinsic_of (String c EmptyString) S K
    (math_exp (- r * T)) (math_exp (- q * T)) =
  discounted_intrinsic S K T r q (classify c).
Proof.
  unfold intrinsic_of, discounted_intrinsic, classify.
  rewrite index0_lower_c, !exp_disc, !py_max_Rmax, lit_zero.
  destruct (is_c c); reflexivity.
Qed.

(** [implied_vol] on a non-empty option-type string, unfolded once. *)
Lemma implied_vol_unfold (brentq : solver) (m S K T r q : R)
    (c : ascii) (rest : string) :
  implied_vol brentq m S K T r q (String c rest) =
  if Rlt_dec m (discounted_intrinsic S K T r q (classify c)) then Ok NaN
  else
    match brentq (objective m S K T r q (opt_name (classify c)))
            sigma_lo sigma_hi iv_maxiter iv_xtol with
    | Ok x => Ok (Fin x)
    | Raise _ => Ok NaN
    end.
Proof.
  unfold implied_vol. cbn [index0 bind].
  rewrite intrinsic_of_classify, objective_classify. reflexivity.
Qed.

(** The solver, too, sees the option-type string through its first
    character only. *)
Lemma implied_vol_classify (brentq : solver) (m S K T r q : R)
    (c : ascii) (rest : string) :
  implied_vol brentq m S K T r q (String c rest) =
  implied_vol brentq m S K T r q (opt_name (classify c)).
Proof.
  rewrite implied_vol_unfold.
  destruct (classify c).
  - symmetry. exact (implied_vol_unfold brentq m S K T r q "c" "all").
  - symmetry. exact (implied_vol_unfold brentq m S K T r q "p" "ut").
Qed.

Lemma implied_vol_total (brentq : solver) (m S K T r q : R)
    (c : ascii) (rest : string) :
  exists v : pyfloat, implied_vol brentq m S K T r q (String c rest) = Ok v.
Proof.
  rewrite implied_vol_unfold.
  destruct (Rlt_dec m (discounted_intrinsic S K T r q (classify c)));
    [eexists; reflexivity |].
  destruct (brentq _ _ _ _ _); eexists; reflexivity.
Qed.

(** ** The reference solver meets the contract *)

Lemma bisect_loop_in_bracket (f : R -> res R) (xtol : R) (n : nat) :
  forall a b fa x : R,
    a <= b -> bisect_loop f a b fa xtol n = Ok x -> a <= x <= b.
Proof.
  induction n as [| n IH]; intros a b fa x Hab Hrun; cbn [bisect_loop] in Hrun.
  - discriminate.
  - destruct (f ((a + b) / 2)) as [fm | e]; cbn [bind] in Hrun;
      [| discriminate].
    destruct (Req_dec_T fm 0) as [_ | _]; [injection Hrun as <-; lra |].
    destruct (Rle_dec ((b - a) / 2) xtol) as [_ | _];
      [injection Hrun as <-; lra |].
    destruct (Rlt_dec (fa * fm) 0) as [_ | _]; apply IH in Hrun; lra.
Qed.

Lemma bisect_in_bracket : brentq_in_bracket bisect.
Proof.
  intros f a b maxiter xtol x Hab Hrun. unfold bisect in Hrun.
  destruct (f a) as [fa | e]; cbn [bind] in Hrun; [| discriminate].
  destruct (f b) as [fb | e]; cbn [bind] in Hrun; [| discriminate].
  destruct (Req_dec_T fa 0) as [_ | _]; [injection Hrun as <-; lra |].
  destruct (Req_dec_T fb 0) as [_ | _]; [injection Hrun as <-; lra |].
  destruct (Rlt_dec 0 (fa * fb)) as [_ | _]; [discriminate |].
  eapply bisect_loop_in_bracket; eassumption.
Qed.

Lemma bisect_sign_check : brentq_sign_check bisect.
Proof.
  intros f a b maxiter xtol fa fb Ha Hb Hsign. unfold bisect.
  rewrite Ha, Hb. cbn [bind].
  destruct (Req_dec_T fa 0) as [H0 | _]; [subst fa; lra |].
  destruct (Req_dec_T fb 0) as [H0 | _]; [subst fb; lra |].
  destruct (Rlt_dec 0 (fa * fb)) as [_ | Hn]; [reflexivity | contradiction].
Qed.

Lemma bisect_contract : brentq_contract bisect.
Proof. split; [exact bisect_in_bracket | exact bisect_sign_check]. Qed.

(** ** Concrete runs *)

Lemma exp_zero_rate (T : R) : exp (- (0 * T)) = 1.
Proof. replace (- (0 * T)) with 0 by ring. apply exp_0. Qed.

Lemma sigma_lo_pos : 0 < sigma_lo.
Proof. unfold sigma_lo. lra. Qed.

Lemma sigma_bracket : sigma_lo < sigma_hi.
Proof. unfold sigma_lo, sigma_hi. lra. Qed.

(** A deep in-the-money call quoted below parity. *)
Lemma below_parity_quote : 10 < discounted_intrinsic 100 50 1 0 0 Call.
Proof.
  unfold discounted_intrinsic. rewrite !exp_zero_rate.
  unfold Rmax. destruct (Rle_dec 0 (100 * 1 - 50 * 1)); lra.
Qed.

Lemma atm_intrinsic : discounted_intrinsic 100 100 1 0 0 Call = 0.
Proof.
  unfold discounted_intrinsic. rewrite !exp_zero_rate.
  unfold Rmax. destruct (Rle_dec 0 (100 * 1 - 100 * 1)); lra.
Qed.

Lemma quote_above_bracket_not_below :
  ~ quote_above_bracket < discounted_intrinsic 100 100 1 0 0 Call.
Proof.
  rewrite atm_intrinsic. unfold quote_above_bracket.
  assert (0 < bsm_price 100 100 1 0 0 6 Call)
    by (apply bsm_call_pos_at_forward; lra).
  lra.
Qed.

Lemma quote_above_bracket_refused (brentq : solver) :
  brentq_sign_check brentq ->
  brentq (objective quote_above_bracket 100 100 1 0 0 "call")
    sigma_lo sigma_hi iv_maxiter iv_xtol = Raise ValueError.
Proof.
  intros Hsign.
  pose proof sigma_lo_pos as Hlo. pose proof sigma_bracket as Hb.
  assert (Hhi : sigma_hi < 6) by (unfold sigma_hi; lra).
  apply Hsign with
    (fa := bsm_price 100 100 1 0 0 sigma_lo Call - quote_above_bracket)
    (fb := bsm_price 100 100 1 0 0 sigma_hi Call - quote_above_bracket).
  - apply (objective_valid 100 100 1 0 0 sigma_lo) with (ty := Call); lra.
  - apply (objective_valid 100 100 1 0 0 sigma_hi) with (ty := Call); lra.
  - unfold quote_above_bracket.
    assert (H1 : bsm_price 100 100 1 0 0 sigma_lo Call
                 < bsm_price 100 100 1 0 0 6 Call)
      by (apply bsm_call_increasing; lra).
    assert (H2 : bsm_price 100 100 1 0 0 sigma_hi Call
                 < bsm_price 100 100 1 0 0 6 Call)
      by (apply bsm_call_increasing; lra).
    nra.
Qed.

(** Quoted at the model price of the lower end of the bracket, the
    reference solver returns that end at once. *)
Lemma implied_vol_quote_at_lo :
  implied_vol bisect quote_at_lo 100 100 1 0 0 "call" = Ok (Fin sigma_lo).
Proof.
  pose proof sigma_lo_pos as Hlo. pose proof sigma_bracket as Hb.
  rewrite (implied_vol_unfold bisect quote_at_lo 100 100 1 0 0 "c" "all").
  change (classify "c") with Call.
  assert (Hq : 0 < quote_at_lo)
    by (unfold quote_at_lo; apply bsm_call_pos_at_forward; lra).
  rewrite atm_intrinsic.
  destruct (Rlt_dec quote_at_lo 0) as [Hbelow | _]; [lra |].
  unfold bisect.
  rewrite (objective_valid 100 100 1 0 0 sigma_lo) with (ty := Call) by lra.
  rewrite (objective_valid 100 100 1 0 0 sigma_hi) with (ty := Call) by lra.
  cbn [bind].
  destruct (Req_dec_T (bsm_price 100 100 1 0 0 sigma_lo Call - quote_at_lo) 0)
    as [_ | Hne]; [reflexivity |].
  exfalso. apply Hne. unfold quote_at_lo. ring.
Qed.

(** ** The script's input guard *)

Lemma Rleb_true (x y : R) : Rleb x y = true <-> x <= y.
Proof.
  unfold Rleb. destruct (Rle_dec x y); split; intros; try assumption;
    try reflexivity; try discriminate; contradiction.
Qed.

Lemma guard_rejects (S K T_days vol : R) :
  Rleb S 0 || Rleb K 0 || Rleb T_days 0 || Rleb vol 0 = true <->
  S <= 0 \/ K <= 0 \/ T_days <= 0 \/ vol <= 0.
Proof.
  rewrite !orb_true_iff, !Rleb_true. tauto.
Qed.

(** Past the guard the script computes and displays: nothing raises. *)
Lemma script_valid_runs (brentq : solver)
    (S K T_days r vol q : R) (mkt_price : option R) :
  0 < S -> 0 < K -> 0 < T_days -> 0 < vol ->
  exists g iv,
    greeks S K (T_days / 365.0) r q vol = Ok g /\
    script brentq S K T_days r vol q mkt_price = Displayed g iv.
Proof.
  intros HS HK HT Hvol. unfold script.
  destruct (Rleb S 0 || Rleb K 0 || Rleb T_days 0 || Rleb vol 0) eqn:Hguard.
  { apply guard_rejects in Hguard. lra. }
  assert (HT' : 0 < T_days / 365.0) by lra.
  pose proof (greeks_valid S K (T_days / 365.0) r q vol HS HK HT' Hvol) as Hg.
  cbv zeta in Hg. rewrite Hg.
  destruct mkt_price as [m |].
  - destruct (implied_vol_total brentq m S K (T_days / 365.0) r q "c" "all")
      as [iv_c Hc].
    destruct (implied_vol_total brentq m S K (T_days / 365.0) r q "p" "ut")
      as [iv_p Hp].
    rewrite Hc, Hp. eexists. eexists. split; reflexivity.
  - eexists. eexists. split; reflexivity.
Qed.

(** ** The domain of [d1_d2], [bs_price] and [greeks] *)

Lemma same_sign_div (S K : R) : K <> 0 -> (0 < S / K <-> 0 < S * K).
Proof.
  intros HK. split; intros H.
  - replace (S * K) with (S / K * (K * K)) by (field; exact HK).
    apply Rmult_lt_0_compat; [exact H |].
    destruct (Rtotal_order K 0) as [Hn | [H0 | Hp]]; [nra | contradiction | nra].
  - replace (S / K) with (S * K * (/ K * / K)) by (field; exact HK).
    apply Rmult_lt_0_compat; [exact H |].
    assert (Hi : / K <> 0) by (apply Rinv_neq_0_compat; exact HK).
    destruct (Rtotal_order (/ K) 0) as [Hn | [H0 | Hp]]; [nra | contradiction | nra].
Qed.

Lemma sqrt_eq_0_iff (T : R) : 0 <= T -> (sqrt T = 0 <-> T = 0).
Proof.
  intros HT. split; intros H.
  - apply sqrt_eq_0; assumption.
  - subst T. apply sqrt_0.
Qed.

(** [d1_d2] succeeds on every input with T > 0, vol <> 0 and S, K of the
    same sign. *)
Lemma d1_d2_ok (S K T r q vol : R) :
  0 < T -> vol <> 0 -> 0 < S * K ->
  d1_d2 S K T r q vol =
  Ok (bsm_d1 S K T r q vol, bsm_d2 S K T r q vol, sqrt T).
Proof.
  intros HT Hvol HSK.
  assert (HK : K <> 0) by (intros ->; lra).
  assert (Hsk : 0 < S / K) by (apply same_sign_div; assumption).
  assert (Hs : 0 < sqrt T) by (apply sqrt_lt_R0; exact HT).
  assert (Hden : vol * sqrt T <> 0) by (apply Rmult_integral_contrapositive_currified; lra).
  unfold d1_d2, math_sqrt.
  destruct (Rlt_dec T 0) as [H | _]; [lra |]. cbn [bind].
  unfold py_div at 1.
  destruct (Req_dec_T K 0) as [H | _]; [contradiction |]. cbn [bind].
  unfold math_log.
  destruct (Rle_dec (S / K) 0) as [H | _]; [lra |]. cbn [bind].
  unfold py_div.
  destruct (Req_dec_T (vol * sqrt T) 0) as [H | _]; [contradiction |]. cbn [bind].
  unfold bsm_d2, bsm_d1.
  replace (0.5 * vol * vol) with (0.5 * vol ^ 2) by ring.
  reflexivity.
Qed.

(** The exception [d1_d2] raises outside that domain. *)
Lemma d1_d2_raises (S K T r q vol : R) :
  ~ (0 < T /\ vol <> 0 /\ 0 < S * K) ->
  d1_d2 S K T r q vol =
  Raise (if Rlt_dec T 0 then ValueError
         else if Req_dec_T K 0 then ZeroDivisionError
         else if Rle_dec (S * K) 0 then ValueError
         else ZeroDivisionError).
Proof.
  intros Hbad. unfold d1_d2, math_sqrt.
  destruct (Rlt_dec T 0) as [HT | HT]; [reflexivity |]. cbn [bind].
  unfold py_div at 1.
  destruct (Req_dec_T K 0) as [HK | HK]; [reflexivity |]. cbn [bind].
  unfold math_log.
  destruct (Rle_dec (S / K) 0) as [Hle | Hgt]; cbn [bind].
  - destruct (Rle_dec (S * K) 0) as [_ | Hn]; [reflexivity |].
    exfalso. apply Rnot_le_lt in Hn. apply same_sign_div in Hn; [lra | exact HK].
  - apply Rnot_le_lt in Hgt.
    assert (HSK : 0 < S * K) by (apply same_sign_div; assumption).
    destruct (Rle_dec (S * K) 0) as [Hc | _]; [lra |].
    unfold py_div.
    destruct (Req_dec_T (vol * sqrt T) 0) as [_ | Hne]; [reflexivity |].
    exfalso. apply Hbad. repeat split; try assumption.
    + destruct (Rtotal_order T 0) as [Hn | [H0 | Hp]]; [lra | | exact Hp].
      subst T. rewrite sqrt_0 in Hne. exfalso. apply Hne. ring.
    + intros ->. apply Hne. ring.
Qed.


Lemma startswith_classify_str (opt_type : string) :
  startswith (lower opt_type) "c" =
  match classify_str opt_type with Call => true | Put => false end.
Proof.
  destruct opt_type as [| c rest]; [reflexivity |].
  rewrite startswith_lower_c. unfold classify_str, classify.
  destruct (is_c c); reflexivity.
Qed.

Lemma bs_price_ok (S K T r q vol : R) (opt_type : string) :
  0 < T -> vol <> 0 -> 0 < S * K ->
  bs_price S K T r q vol opt_type =
  Ok (bsm_price S K T r q vol (classify_str opt_type)).
Proof.
  intros HT Hvol HSK. unfold bs_price.
  rewrite d1_d2_ok by assumption. cbn [bind].
  rewrite startswith_classify_str, !exp_disc.
  destruct (classify_str opt_type); reflexivity.
Qed.

Lemma bs_price_raises (S K T r q vol : R) (opt_type : string) :
  ~ (0 < T /\ vol <> 0 /\ 0 < S * K) ->
  bs_price S K T r q vol opt_type =
  Raise (if Rlt_dec T 0 then ValueError
         else if Req_dec_T K 0 then ZeroDivisionError
         else if Rle_dec (S * K) 0 then ValueError
         else ZeroDivisionError).
Proof.
  intros Hbad. unfold bs_price. rewrite d1_d2_raises by exact Hbad.
  reflexivity.
Qed.

Lemma greeks_ok (S K T r q vol : R) :
  0 < T -> vol <> 0 -> 0 < S * K ->
  let d1 := bsm_d1 S K T r q vol in
  let d2 := bsm_d2 S K T r q vol in
  let disc_r := exp (- (r * T)) in
  let disc_q := exp (- (q * T)) in
  let decay := - (S * disc_q * norm_pdf d1 * vol) / (2 * sqrt T) in
  greeks S K T r q vol =
  Ok (mk_greeks
        (bsm_price S K T r q vol Call)
        (bsm_price S K T r q vol Put)
        d1 d2
        (disc_q * norm_cdf d1)
        (disc_q * (norm_cdf d1 - 1))
        (disc_q * norm_pdf d1 / (S * vol * sqrt T))
        (S * disc_q * norm_pdf d1 * sqrt T)
        (decay - r * K * disc_r * norm_cdf d2 + q * S * disc_q * norm_cdf d1)
        (decay + r * K * disc_r * norm_cdf (- d2)
           - q * S * disc_q * norm_cdf (- d1))
        (K * T * disc_r * norm_cdf d2)
        (- K * T * disc_r * norm_cdf (- d2))).
Proof.
  intros HT Hvol HSK d1 d2 disc_r disc_q decay.
  assert (Hs : 0 < sqrt T) by (apply sqrt_lt_R0; exact HT).
  assert (HS : S <> 0) by (intros ->; lra).
  assert (Hg : S * vol * sqrt T <> 0).
  { repeat apply Rmult_integral_contrapositive_currified; lra. }
  unfold greeks. rewrite d1_d2_ok by assumption. cbn [bind].
  rewrite !exp_disc, lit_one.
  unfold py_div.
  destruct (Req_dec_T (S * vol * sqrt T) 0) as [H0 | _]; [contradiction |].
  destruct (Req_dec_T (2 * sqrt T) 0) as [H0 | _]; [lra |].
  cbn [bind]. reflexivity.
Qed.

Lemma greeks_raises (S K T r q vol : R) :
  ~ (0 < T /\ vol <> 0 /\ 0 < S * K) ->
  greeks S K T r q vol =
  Raise (if Rlt_dec T 0 then ValueError
         else if Req_dec_T K 0 then ZeroDivisionError
         else if Rle_dec (S * K) 0 then ValueError
         else ZeroDivisionError).
Proof.
  intros Hbad. unfold greeks. rewrite d1_d2_raises by exact Hbad.
  reflexivity.
Qed.

Lemma domain_dec (S K T vol : R) :
  {0 < T /\ vol <> 0 /\ 0 < S * K} + {~ (0 < T /\ vol <> 0 /\ 0 < S * K)}.
Proof.
  destruct (Rlt_dec 0 T); [| right; tauto].
  destruct (Req_dec_T vol 0); [right; tauto |].
  destruct (Rlt_dec 0 (S * K)); [left; tauto | right; tauto].
Qed.

(** ** The Greeks as derivatives of the price *)

Lemma dpl_mult (f g : R -> R) (x l1 l2 : R) :
  derivable_pt_lim f x l1 -> derivable_pt_lim g x l2 ->
  derivable_pt_lim (fun v => f v * g v) x (l1 * g x + f x * l2).
Proof. exact (derivable_pt_lim_mult f g x l1 l2). Qed.

Lemma dpl_exp_lin (a x : R) :
  derivable_pt_lim (fun v => exp (- (a * v))) x (exp (- (a * x)) * - a).
Proof.
  apply (dpl_comp (fun v => - (a * v)) exp).
  - apply derivable_pt_lim_ext with (f := fun v => (- a) * v).
    + intros z. ring.
    + eapply dpl_value; [| apply dpl_scal, dpl_id]. ring.
  - apply derivable_pt_lim_exp.
Qed.

(** Derivative of a price of the Black-Scholes shape along any parameter,
    once the two legs carry the same density weight. *)
Lemma bsm_shape_derive (A B d1 d2 : R -> R) (x A' B' d1' d2' : R) :
  derivable_pt_lim A x A' -> derivable_pt_lim B x B' ->
  derivable_pt_lim d1 x d1' -> derivable_pt_lim d2 x d2' ->
  A x * norm_pdf (d1 x) = B x * norm_pdf (d2 x) ->
  derivable_pt_lim (fun v => A v * norm_cdf (d1 v) - B v * norm_cdf (d2 v)) x
    (A' * norm_cdf (d1 x) - B' * norm_cdf (d2 x)
     + A x * norm_pdf (d1 x) * (d1' - d2')).
Proof.
  intros HA HB Hd1 Hd2 Hbal.
  pose proof (dpl_comp _ norm_cdf _ _ _ Hd1 (norm_cdf_derive _)) as H1.
  pose proof (dpl_comp _ norm_cdf _ _ _ Hd2 (norm_cdf_derive _)) as H2.
  cbv beta in H1, H2.
  pose proof (dpl_minus _ _ _ _ _ (dpl_mult _ _ _ _ _ HA H1)
                (dpl_mult _ _ _ _ _ HB H2)) as H.
  cbv beta in H. eapply dpl_value; [| exact H].
  replace (B x * (norm_pdf (d2 x) * d2')) with (B x * norm_pdf (d2 x) * d2')
    by ring.
  rewrite <- Hbal. ring.
Qed.

(** The put follows the call through parity. *)
Lemma dpl_through_parity (C P A B : R -> R) (x c a b : R) :
  (forall v : R, C v - P v = A v - B v) ->
  derivable_pt_lim C x c -> derivable_pt_lim A x a ->
  derivable_pt_lim B x b ->
  derivable_pt_lim P x (c - (a - b)).
Proof.
  intros Hpar HC HA HB.
  apply derivable_pt_lim_ext with (f := fun v => C v - (A v - B v)).
  - intros z. pose proof (Hpar z). lra.
  - apply dpl_minus; [exact HC | apply dpl_minus; assumption].
Qed.

Lemma bsm_d12_derive_spot (S K T r q sigma : R) :
  0 < S -> 0 < K -> 0 < T -> 0 < sigma ->
  derivable_pt_lim (fun s => bsm_d1 s K T r q sigma) S (/ (S * sigma * sqrt T))
  /\
  derivable_pt_lim (fun s => bsm_d2 s K T r q sigma) S (/ (S * sigma * sqrt T)).
Proof.
  intros HS HK HT Hsig.
  assert (Hs : 0 < sqrt T) by (apply sqrt_lt_R0; exact HT).
  assert (Hsk : 0 < S / K) by (apply Rdiv_lt_0_compat; assumption).
  assert (Hln : derivable_pt_lim (fun s => ln (/ K * s)) S (/ S)).
  { eapply dpl_value;
      [| apply (dpl_comp (fun s => / K * s) ln S (/ K * 1) (/ (/ K * S)))].
    - field. lra.
    - apply dpl_scal, dpl_id.
    - apply derivable_pt_lim_ln.
      replace (/ K * S) with (S / K) by (field; lra). exact Hsk. }
  assert (Hd1 : derivable_pt_lim (fun s => bsm_d1 s K T r q sigma) S
                  (/ (S * sigma * sqrt T))).
  { unfold bsm_d1.
    apply derivable_pt_lim_ext
      with (f := fun s => / (sigma * sqrt T)
                          * (ln (/ K * s) + (r - q + 0.5 * sigma ^ 2) * T)).
    - intros z. replace (/ K * z) with (z / K) by (unfold Rdiv; ring).
      unfold Rdiv. ring.
    - eapply dpl_value;
        [| apply dpl_scal, dpl_plus; [exact Hln | apply dpl_const]].
      field. repeat split; lra. }
  split; [exact Hd1 |].
  unfold bsm_d2.
  eapply dpl_value; [| apply dpl_minus; [exact Hd1 | apply dpl_const]].
  ring.
Qed.

Lemma bsm_d12_derive_rate (S K T r q sigma : R) :
  0 < T -> 0 < sigma ->
  derivable_pt_lim (fun x => bsm_d1 S K T x q sigma) r (T / (sigma * sqrt T))
  /\
  derivable_pt_lim (fun x => bsm_d2 S K T x q sigma) r (T / (sigma * sqrt T)).
Proof.
  intros HT Hsig.
  assert (Hs : 0 < sqrt T) by (apply sqrt_lt_R0; exact HT).
  assert (Hd1 : derivable_pt_lim (fun x => bsm_d1 S K T x q sigma) r
                  (T / (sigma * sqrt T))).
  { unfold bsm_d1.
    apply derivable_pt_lim_ext
      with (f := fun x => / (sigma * sqrt T)
                          * (T * x + (ln (S / K) + (- q + 0.5 * sigma ^ 2) * T))).
    - intros z. unfold Rdiv. ring.
    - eapply dpl_value;
        [| apply dpl_scal, dpl_plus; [apply dpl_scal, dpl_id | apply dpl_const]].
      field. split; lra. }
  split; [exact Hd1 |].
  unfold bsm_d2.
  eapply dpl_value; [| apply dpl_minus; [exact Hd1 | apply dpl_const]].
  ring.
Qed.

Lemma bsm_d12_derive_expiry (S K T r q sigma : R) :
  0 < T -> 0 < sigma ->
  exists d1' : R,
    derivable_pt_lim (fun t => bsm_d1 S K t r q sigma) T d1' /\
    derivable_pt_lim (fun t => bsm_d2 S K t r q sigma) T
      (d1' - sigma * / (2 * sqrt T)).
Proof.
  intros HT Hsig.
  assert (Hs : 0 < sqrt T) by (apply sqrt_lt_R0; exact HT).
  assert (Hsq : derivable_pt_lim (fun t => sigma * sqrt t) T
                  (sigma * / (2 * sqrt T)))
    by (apply dpl_scal, derivable_pt_lim_sqrt; exact HT).
  assert (Hnum : derivable_pt_lim
                   (fun t => ln (S / K) + (r - q + 0.5 * sigma ^ 2) * t) T
                   (0 + (r - q + 0.5 * sigma ^ 2) * 1))
    by (apply dpl_plus; [apply dpl_const | apply dpl_scal, dpl_id]).
  assert (Hnz : sigma * sqrt T <> 0)
    by (apply Rgt_not_eq, Rmult_lt_0_compat; lra).
  pose proof (dpl_div _ _ _ _ _ Hnum Hsq Hnz) as Hd1. cbv beta in Hd1.
  eexists. split.
  - unfold bsm_d1. exact Hd1.
  - unfold bsm_d2. apply dpl_minus; [exact Hd1 | exact Hsq].
Qed.

Lemma dpl_scal_r (f : R -> R) (a x l : R) :
  derivable_pt_lim f x l -> derivable_pt_lim (fun v => f v * a) x (l * a).
Proof.
  intros H. apply derivable_pt_lim_ext with (f := fun v => a * f v).
  - intros z. ring.
  - eapply dpl_value; [| apply dpl_scal; exact H]. ring.
Qed.

Lemma value_of_price_valid (S K T r q sigma : R) (ty : OptionType) :
  0 < S -> 0 < K -> 0 < T -> 0 < sigma ->
  value_of (bs_price S K T r q sigma (opt_name ty)) =
  bsm_price S K T r q sigma ty.
Proof.
  intros HS HK HT Hsig. rewrite bs_price_valid by assumption. reflexivity.
Qed.

(** The closed form along each of its parameters. *)
Lemma bsm_call_derive_spot (S K T r q sigma : R) :
  0 < S -> 0 < K -> 0 < T -> 0 < sigma ->
  derivable_pt_lim (fun s => bsm_price s K T r q sigma Call) S
    (exp (- (q * T)) * norm_cdf (bsm_d1 S K T r q sigma)).
Proof.
  intros HS HK HT Hsig.
  destruct (bsm_d12_derive_spot S K T r q sigma HS HK HT Hsig) as [Hd1 Hd2].
  pose proof (bsm_shape_derive
                (fun s => s * exp (- (q * T))) (fun _ => K * exp (- (r * T)))
                (fun s => bsm_d1 s K T r q sigma)
                (fun s => bsm_d2 s K T r q sigma) S _ _ _ _
                (dpl_scal_r _ _ _ _ (dpl_id S)) (dpl_const _ S) Hd1 Hd2
                (bsm_pdf_balance S K T r q sigma HS HK HT Hsig)) as H.
  cbv beta in H. unfold bsm_price.
  eapply dpl_value; [| exact H]. ring.
Qed.

Lemma bsm_call_derive_rate (S K T r q sigma : R) :
  0 < S -> 0 < K -> 0 < T -> 0 < sigma ->
  derivable_pt_lim (fun x => bsm_price S K T x q sigma Call) r
    (K * T * exp (- (r * T)) * norm_cdf (bsm_d2 S K T r q sigma)).
Proof.
  intros HS HK HT Hsig.
  destruct (bsm_d12_derive_rate S K T r q sigma HT Hsig) as [Hd1 Hd2].
  assert (HB : derivable_pt_lim (fun x => K * exp (- (x * T))) r
                 (K * (exp (- (T * r)) * - T))).
  { apply dpl_scal.
    apply derivable_pt_lim_ext with (f := fun x => exp (- (T * x))).
    - intros z. f_equal. ring.
    - apply dpl_exp_lin. }
  pose proof (bsm_shape_derive
                (fun _ => S * exp (- (q * T))) (fun x => K * exp (- (x * T)))
                (fun x => bsm_d1 S K T x q sigma)
                (fun x => bsm_d2 S K T x q sigma) r _ _ _ _
                (dpl_const _ r) HB Hd1 Hd2
                (bsm_pdf_balance S K T r q sigma HS HK HT Hsig)) as H.
  cbv beta in H. unfold bsm_price.
  eapply dpl_value; [| exact H].
  replace (T * r) with (r * T) by ring. ring.
Qed.

Lemma bsm_call_derive_expiry (S K T r q sigma : R) :
  0 < S -> 0 < K -> 0 < T -> 0 < sigma ->
  derivable_pt_lim (fun t => bsm_price S K t r q sigma Call) T
    (S * exp (- (q * T)) * norm_pdf (bsm_d1 S K T r q sigma) * sigma
       / (2 * sqrt T)
     + r * K * exp (- (r * T)) * norm_cdf (bsm_d2 S K T r q sigma)
     - q * S * exp (- (q * T)) * norm_cdf (bsm_d1 S K T r q sigma)).
Proof.
  intros HS HK HT Hsig.
  assert (Hs : 0 < sqrt T) by (apply sqrt_lt_R0; exact HT).
  destruct (bsm_d12_derive_expiry S K T r q sigma HT Hsig)
    as (d1' & Hd1 & Hd2).
  pose proof (bsm_shape_derive
                (fun t => S * exp (- (q * t))) (fun t => K * exp (- (r * t)))
                (fun t => bsm_d1 S K t r q sigma)
                (fun t => bsm_d2 S K t r q sigma) T _ _ _ _
                (dpl_scal _ S _ _ (dpl_exp_lin q T))
                (dpl_scal _ K _ _ (dpl_exp_lin r T)) Hd1 Hd2
                (bsm_pdf_balance S K T r q sigma HS HK HT Hsig)) as H.
  cbv beta in H. unfold bsm_price.
  eapply dpl_value; [| exact H].
  field. lra.
Qed.

Lemma bsm_put_derive_spot (S K T r q sigma : R) :
  0 < S -> 0 < K -> 0 < T -> 0 < sigma ->
  derivable_pt_lim (fun s => bsm_price s K T r q sigma Put) S
    (exp (- (q * T)) * (norm_cdf (bsm_d1 S K T r q sigma) - 1)).
Proof.
  intros HS HK HT Hsig.
  eapply dpl_value;
    [| apply (dpl_through_parity
                (fun s => bsm_price s K T r q sigma Call)
                (fun s => bsm_price s K T r q sigma Put)
                (fun s => s * exp (- (q * T)))
                (fun _ => K * exp (- (r * T))) S _ _ _
                (fun v => bsm_parity v K T r q sigma)
                (bsm_call_derive_spot S K T r q sigma HS HK HT Hsig)
                (dpl_scal_r _ _ _ _ (dpl_id S)) (dpl_const _ S))].
  ring.
Qed.

Lemma bsm_put_derive_rate (S K T r q sigma : R) :
  0 < S -> 0 < K -> 0 < T -> 0 < sigma ->
  derivable_pt_lim (fun x => bsm_price S K T x q sigma Put) r
    (- K * T * exp (- (r * T)) * norm_cdf (- bsm_d2 S K T r q sigma)).
Proof.
  intros HS HK HT Hsig.
  assert (HB : derivable_pt_lim (fun x => K * exp (- (x * T))) r
                 (K * (exp (- (T * r)) * - T))).
  { apply dpl_scal.
    apply derivable_pt_lim_ext with (f := fun x => exp (- (T * x))).
    - intros z. f_equal. ring.
    - apply dpl_exp_lin. }
  eapply dpl_value;
    [| apply (dpl_through_parity
                (fun x => bsm_price S K T x q sigma Call)
                (fun x => bsm_price S K T x q sigma Put)
                (fun _ => S * exp (- (q * T)))
                (fun x => K * exp (- (x * T))) r _ _ _
                (fun v => bsm_parity S K T v q sigma)
                (bsm_call_derive_rate S K T r q sigma HS HK HT Hsig)
                (dpl_const _ r) HB)].
  rewrite norm_cdf_opp. replace (T * r) with (r * T) by ring. ring.
Qed.

Lemma bsm_put_derive_expiry (S K T r q sigma : R) :
  0 < S -> 0 < K -> 0 < T -> 0 < sigma ->
  derivable_pt_lim (fun t => bsm_price S K t r q sigma Put) T
    (S * exp (- (q * T)) * norm_pdf (bsm_d1 S K T r q sigma) * sigma
       / (2 * sqrt T)
     - r * K * exp (- (r * T)) * norm_cdf (- bsm_d2 S K T r q sigma)
     + q * S * exp (- (q * T)) * norm_cdf (- bsm_d1 S K T r q sigma)).
Proof.
  intros HS HK HT Hsig.
  assert (Hs : 0 < sqrt T) by (apply sqrt_lt_R0; exact HT).
  eapply dpl_value;
    [| apply (dpl_through_parity
                (fun t => bsm_price S K t r q sigma Call)
                (fun t => bsm_price S K t r q sigma Put)
                (fun t => S * exp (- (q * t)))
                (fun t => K * exp (- (r * t))) T _ _ _
                (fun v => bsm_parity S K v r q sigma)
                (bsm_call_derive_expiry S K T r q sigma HS HK HT Hsig)
                (dpl_scal _ S _ _ (dpl_exp_lin q T))
                (dpl_scal _ K _ _ (dpl_exp_lin r T)))].
  rewrite !norm_cdf_opp. field. lra.
Qed.

Lemma bsm_put_vega (S K T r q sigma : R) :
  0 < S -> 0 < K -> 0 < T -> 0 < sigma ->
  derivable_pt_lim (fun v => bsm_price S K T r q v Put) sigma
    (S * exp (- (q * T)) * norm_pdf (bsm_d1 S K T r q sigma) * sqrt T).
Proof.
  intros HS HK HT Hsig.
  eapply dpl_value;
    [| apply (dpl_through_parity
                (fun v => bsm_price S K T r q v Call)
                (fun v => bsm_price S K T r q v Put)
                (fun _ => S * exp (- (q * T)))
                (fun _ => K * exp (- (r * T))) sigma _ _ _
                (fun v => bsm_parity S K T r q v)
                (bsm_call_vega S K T r q sigma HS HK HT Hsig)
                (dpl_const _ sigma) (dpl_const _ sigma))].
  ring.
Qed.

(** From the closed form to what the code returns, near a valid input. *)
Lemma dpl_near_pos (f g : R -> R) (x l : R) :
  0 < x -> (forall z : R, 0 < z -> g z = f z) ->
  derivable_pt_lim f x l -> derivable_pt_lim g x l.
Proof.
  intros Hx Hfg Hf.
  apply (derivable_pt_lim_locally_ext f g x 0 (x + 1) l).
  - lra.
  - intros z [Hz _]. symmetry. apply Hfg. exact Hz.
  - exact Hf.
Qed.

(** What [greeks] returns wherever it returns. *)
Lemma greeks_closed_form (S K T r q sigma : R) :
  0 < T -> sigma <> 0 -> 0 < S * K ->
  greeks S K T r q sigma = Ok (bsm_greeks S K T r q sigma).
Proof. intros HT Hsig HSK. exact (greeks_ok S K T r q sigma HT Hsig HSK). Qed.

Lemma pos_domain (S K T sigma : R) :
  0 < S -> 0 < K -> 0 < T -> 0 < sigma ->
  0 < T /\ sigma <> 0 /\ 0 < S * K.
Proof. intros. repeat split; try lra. apply Rmult_lt_0_compat; assumption. Qed.

Lemma greeks_pos (S K T r q sigma : R) :
  0 < S -> 0 < K -> 0 < T -> 0 < sigma ->
  greeks S K T r q sigma = Ok (bsm_greeks S K T r q sigma).
Proof.
  intros HS HK HT Hsig.
  destruct (pos_domain S K T sigma HS HK HT Hsig) as (H1 & H2 & H3).
  apply greeks_closed_form; assumption.
Qed.

Lemma delta_is_spot_derivative (S K T r q sigma : R) (ty : OptionType) :
  0 < S -> 0 < K -> 0 < T -> 0 < sigma ->
  derivable_pt_lim
    (fun s => value_of (bs_price s K T r q sigma (opt_name ty))) S
    (delta (pricing_result ty (bsm_greeks S K T r q sigma))).
Proof.
  intros HS HK HT Hsig.
  apply dpl_near_pos with (f := fun s => bsm_price s K T r q sigma ty).
  - exact HS.
  - intros z Hz. apply value_of_price_valid; assumption.
  - destruct ty; cbn [pricing_result delta bsm_greeks delta_c delta_p].
    + apply bsm_call_derive_spot; assumption.
    + apply bsm_put_derive_spot; assumption.
Qed.

Lemma vega_is_vol_derivative (S K T r q sigma : R) (ty : OptionType) :
  0 < S -> 0 < K -> 0 < T -> 0 < sigma ->
  derivable_pt_lim
    (fun v => value_of (bs_price S K T r q v (opt_name ty))) sigma
    (res_vega (pricing_result ty (bsm_greeks S K T r q sigma))).
Proof.
  intros HS HK HT Hsig.
  apply dpl_near_pos with (f := fun v => bsm_price S K T r q v ty).
  - exact Hsig.
  - intros z Hz. apply value_of_price_valid; assumption.
  - destruct ty; cbn [pricing_result res_vega bsm_greeks vega].
    + apply bsm_call_vega; assumption.
    + apply bsm_put_vega; assumption.
Qed.

Lemma rho_is_rate_derivative (S K T r q sigma : R) (ty : OptionType) :
  0 < S -> 0 < K -> 0 < T -> 0 < sigma ->
  derivable_pt_lim
    (fun x => value_of (bs_price S K T x q sigma (opt_name ty))) r
    (rho (pricing_result ty (bsm_greeks S K T r q sigma))).
Proof.
  intros HS HK HT Hsig.
  apply derivable_pt_lim_ext with (f := fun x => bsm_price S K T x q sigma ty).
  - intros z. symmetry. apply value_of_price_valid; assumption.
  - destruct ty; cbn [pricing_result rho bsm_greeks rho_c rho_p].
    + apply bsm_call_derive_rate; assumption.
    + apply bsm_put_derive_rate; assumption.
Qed.

Lemma theta_is_expiry_derivative (S K T r q sigma : R) (ty : OptionType) :
  0 < S -> 0 < K -> 0 < T -> 0 < sigma ->
  derivable_pt_lim
    (fun t => value_of (bs_price S K t r q sigma (opt_name ty))) T
    (- theta (pricing_result ty (bsm_greeks S K T r q sigma))).
Proof.
  intros HS HK HT Hsig.
  pose proof (sqrt_lt_R0 T HT) as Hs.
  apply dpl_near_pos with (f := fun t => bsm_price S K t r q sigma ty).
  - exact HT.
  - intros z Hz. apply value_of_price_valid; assumption.
  - destruct ty; cbn [pricing_result theta bsm_greeks theta_c theta_p].
    + eapply dpl_value; [| apply bsm_call_derive_expiry; assumption].
      field. lra.
    + eapply dpl_value; [| apply bsm_put_derive_expiry; assumption].
      field. lra.
Qed.

Lemma gamma_is_delta_derivative (S K T r q sigma : R) (ty : OptionType) :
  0 < S -> 0 < K -> 0 < T -> 0 < sigma ->
  derivable_pt_lim
    (fun s => greek_of (fun g => delta (pricing_result ty g))
                (greeks s K T r q sigma)) S
    (gamma (bsm_greeks S K T r q sigma)).
Proof.
  intros HS HK HT Hsig.
  assert (Hs : 0 < sqrt T) by (apply sqrt_lt_R0; exact HT).
  destruct (bsm_d12_derive_spot S K T r q sigma HS HK HT Hsig) as [Hd1 _].
  pose proof (dpl_comp _ norm_cdf _ _ _ Hd1 (norm_cdf_derive _)) as H1.
  cbv beta in H1.
  apply dpl_near_pos
    with (f := fun s => delta (pricing_result ty (bsm_greeks s K T r q sigma))).
  - exact HS.
  - intros z Hz. unfold greek_of.
    destruct (pos_domain z K T sigma Hz HK HT Hsig) as (H1' & H2' & H3').
    rewrite greeks_closed_form by assumption. reflexivity.
  - destruct ty; cbn [pricing_result delta bsm_greeks delta_c delta_p gamma].
    + eapply dpl_value; [| apply dpl_scal; exact H1]. field. repeat split; lra.
    + eapply dpl_value;
        [| apply dpl_scal, dpl_minus; [exact H1 | apply dpl_const]].
      field. repeat split; lra.
Qed.

(** ** Reflection and scaling *)

Lemma bsm_d1_neg_vol (S K T r q sigma : R) :
  0 < T -> sigma <> 0 ->
  bsm_d1 S K T r q (- sigma) = - bsm_d1 S K T r q sigma.
Proof.
  intros HT Hsig. pose proof (sqrt_lt_R0 T HT) as Hs.
  unfold bsm_d1. replace ((- sigma) ^ 2) with (sigma ^ 2) by ring.
  field. split; lra.
Qed.

Lemma bsm_d2_neg_vol (S K T r q sigma : R) :
  0 < T -> sigma <> 0 ->
  bsm_d2 S K T r q (- sigma) = - bsm_d2 S K T r q sigma.
Proof.
  intros HT Hsig. unfold bsm_d2. rewrite bsm_d1_neg_vol by assumption. ring.
Qed.

Lemma bsm_price_neg_vol (S K T r q sigma : R) :
  0 < T -> sigma <> 0 ->
  bsm_price S K T r q (- sigma) Call = - bsm_price S K T r q sigma Put /\
  bsm_price S K T r q (- sigma) Put = - bsm_price S K T r q sigma Call.
Proof.
  intros HT Hsig. unfold bsm_price.
  rewrite bsm_d1_neg_vol, bsm_d2_neg_vol by assumption.
  rewrite !Ropp_involutive. split; ring.
Qed.

Lemma bsm_d1_scale (k S K T r q sigma : R) :
  k <> 0 -> K <> 0 ->
  bsm_d1 (k * S) (k * K) T r q sigma = bsm_d1 S K T r q sigma.
Proof.
  intros Hk HK. unfold bsm_d1.
  replace (k * S / (k * K)) with (S / K) by (field; split; assumption).
  reflexivity.
Qed.

Lemma bsm_d2_scale (k S K T r q sigma : R) :
  k <> 0 -> K <> 0 ->
  bsm_d2 (k * S) (k * K) T r q sigma = bsm_d2 S K T r q sigma.
Proof.
  intros Hk HK. unfold bsm_d2. rewrite bsm_d1_scale by assumption.
  reflexivity.
Qed.

Lemma bsm_price_scale (k S K T r q sigma : R) (ty : OptionType) :
  k <> 0 -> K <> 0 ->
  bsm_price (k * S) (k * K) T r q sigma ty = k * bsm_price S K T r q sigma ty.
Proof.
  intros Hk HK. unfold bsm_price.
  rewrite bsm_d1_scale, bsm_d2_scale by assumption.
  destruct ty; ring.
Qed.

Lemma scale_same_sign (k S K : R) :
  k <> 0 -> (0 < k * S * (k * K) <-> 0 < S * K).
Proof.
  intros Hk.
  assert (Hk2 : 0 < k * k)
    by (destruct (Rtotal_order k 0) as [H | [H | H]]; [nra | contradiction | nra]).
  replace (k * S * (k * K)) with (k * k * (S * K)) by ring.
  split; intros H; nra.
Qed.

Lemma bs_price_scale (k S K T r q vol : R) (opt_type : string) :
  k <> 0 ->
  bs_price (k * S) (k * K) T r q vol opt_type =
  (p <- bs_price S K T r q vol opt_type ;; Ok (k * p)).
Proof.
  intros Hk.
  destruct (domain_dec S K T vol) as [(HT & Hvol & HSK) | Hbad].
  - assert (HK : K <> 0) by (intros ->; lra).
    rewrite !bs_price_ok; try assumption.
    + cbn [bind]. rewrite bsm_price_scale by assumption. reflexivity.
    + apply scale_same_sign; assumption.
  - assert (Hbad' : ~ (0 < T /\ vol <> 0 /\ 0 < k * S * (k * K))).
    { intros (H1 & H2 & H3). apply Hbad. repeat split; try assumption.
      apply (scale_same_sign k); assumption. }
    rewrite !bs_price_raises by assumption. cbn [bind].
    destruct (Rlt_dec T 0); [reflexivity |].
    destruct (Req_dec_T (k * K) 0) as [H0 | H0], (Req_dec_T K 0) as [H1 | H1].
    + reflexivity.
    + exfalso. apply Rmult_integral in H0. tauto.
    + exfalso. apply H0. subst K. ring.
    + destruct (Rle_dec (k * S * (k * K)) 0) as [H2 | H2],
               (Rle_dec (S * K) 0) as [H3 | H3]; try reflexivity; exfalso.
      * apply Rnot_le_lt in H3. apply (scale_same_sign k) in H3; [lra | exact Hk].
      * apply Rnot_le_lt in H2. apply scale_same_sign in H2; [lra | exact Hk].
Qed.

(** ** The search *)




(** ** Integrals of continuous functions *)

Lemma cont_integrable (f : R -> R) (Hc : continuity f) (a b : R) :
  Riemann_integrable f a b.
Proof.
  destruct (Rle_dec a b) as [Hab | Hab].
  - apply continuity_implies_RiemannInt; [exact Hab | intros x _; apply Hc].
  - apply RiemannInt_P1, continuity_implies_RiemannInt;
      [lra | intros x _; apply Hc].
Qed.

Section Primitive.

Variable f : R -> R.
Hypothesis f_cont : continuity f.
Variable pr : forall a b : R, Riemann_integrable f a b.

Lemma prim_local (a x : R) (h : x - 1 <= x + 1)
    (C0 : forall y : R, x - 1 <= y <= x + 1 -> continuity_pt f y) (y : R) :
  x - 1 <= y <= x + 1 ->
  RiemannInt (pr a y) =
  RiemannInt (pr a (x - 1)) + primitive h (FTC_P1 h C0) y.
Proof.
  intros Hy.
  rewrite (primitive_inside _ _ _ h (FTC_P1 h C0) y (pr (x - 1) y) Hy).
  symmetry. apply RiemannInt_P26.
Qed.

(** The integral as a function of its upper end is a primitive. *)
Lemma prim_derive (a x : R) :
  derivable_pt_lim (fun s => RiemannInt (pr a s)) x (f x).
Proof.
  assert (h : x - 1 <= x + 1) by lra.
  assert (C0 : forall y : R, x - 1 <= y <= x + 1 -> continuity_pt f y)
    by (intros y _; apply f_cont).
  assert (Hx : x - 1 <= x <= x + 1) by lra.
  pose proof (RiemannInt_P28 h C0 Hx) as HP.
  intros eps Heps. destruct (HP eps Heps) as [delta Hdelta].
  assert (Hmin : 0 < Rmin delta 1) by (apply Rmin_pos; [apply cond_pos | lra]).
  exists (mkposreal _ Hmin). simpl. intros k Hk Hlt.
  assert (Hk1 : Rabs k < 1) by (eapply Rlt_le_trans; [exact Hlt | apply Rmin_r]).
  assert (Hkd : Rabs k < delta)
    by (eapply Rlt_le_trans; [exact Hlt | apply Rmin_l]).
  assert (Hxk : x - 1 <= x + k <= x + 1).
  { apply Rabs_def2 in Hk1. lra. }
  rewrite (prim_local a x h C0 (x + k) Hxk), (prim_local a x h C0 x Hx).
  replace (RiemannInt (pr a (x - 1)) + primitive h (FTC_P1 h C0) (x + k)
           - (RiemannInt (pr a (x - 1)) + primitive h (FTC_P1 h C0) x))
    with (primitive h (FTC_P1 h C0) (x + k) - primitive h (FTC_P1 h C0) x)
    by ring.
  apply Hdelta; assumption.
Qed.

(** Evaluation of an integral by a known primitive. *)
Lemma integral_by_primitive (Q : R -> R) (a b : R) :
  (forall s : R, derivable_pt_lim Q s (f s)) ->
  RiemannInt (pr a b) = Q b - Q a.
Proof.
  intros HQ.
  set (P := fun s => RiemannInt (pr a s) - Q s).
  assert (HP : forall c : R, derivable_pt_lim P c 0).
  { intros c. unfold P.
    replace 0 with (f c - f c) by ring.
    apply dpl_minus; [apply prim_derive | apply HQ]. }
  assert (Pa : P a = - Q a).
  { unfold P. rewrite RiemannInt_P9. ring. }
  assert (Hab : P b = P a).
  { destruct (Rtotal_order a b) as [Hlt | [Heq | Hgt]].
    - symmetry. apply null_derivative_eq; [exact Hlt | intros c _; apply HP].
    - subst b. reflexivity.
    - apply null_derivative_eq; [exact Hgt | intros c _; apply HP]. }
  unfold P in Hab, Pa. lra.
Qed.

End Primitive.

(** A bound on an integral over [0, 1] from a bound on the integrand. *)
Lemma integral_abs_bound (f : R -> R) (pr : Riemann_integrable f 0 1) (B : R) :
  (forall t : R, 0 < t < 1 -> Rabs (f t) <= B) ->
  Rabs (RiemannInt pr) <= B.
Proof.
  intros Hb.
  pose proof (RiemannInt_P16 pr) as prabs.
  apply Rle_trans with (RiemannInt prabs).
  - apply RiemannInt_P17. lra.
  - pose proof (RiemannInt_P14 0 1 B) as prc.
    apply Rle_trans with (RiemannInt prc).
    + apply RiemannInt_P19; [lra |]. intros t Ht. unfold fct_cte. apply Hb, Ht.
    + rewrite RiemannInt_P15. lra.
Qed.

(** Second-order remainder from two applications of the mean value
    theorem. *)
Lemma remainder_bound (g g' g'' : R -> R) (x k M : R) :
  (forall y : R, derivable_pt_lim g y (g' y)) ->
  (forall y : R, derivable_pt_lim g' y (g'' y)) ->
  (forall y : R, Rabs (y - x) <= Rabs k -> Rabs (g'' y) <= M) ->
  Rabs (g (x + k) - g x - k * g' x) <= k * k * M.
Proof.
  intros Hg Hg' HM.
  assert (HM0 : 0 <= M).
  { apply Rle_trans with (Rabs (g'' x)); [apply Rabs_pos |].
    apply HM. replace (x - x) with 0 by ring. rewrite Rabs_R0. apply Rabs_pos. }
  assert (Hup : forall a b : R, a < b -> (b - a <= Rabs k) ->
                (x = a \/ x = b) ->
                Rabs (g b - g a - (b - a) * g' x) <= (b - a) * (b - a) * M).
  { intros a b Hab Hlen Hx.
    destruct (MVT_cor2 g g' a b Hab (fun c _ => Hg c)) as (xi & Hxi & Hin).
    assert (Hxi_near : Rabs (xi - x) <= b - a)
      by (destruct Hx; subst x; apply Rabs_le; lra).
    assert (Hd : Rabs (g' xi - g' x) <= (b - a) * M).
    { destruct (Rtotal_order x xi) as [Hlt | [Heq | Hgt]].
      - destruct (MVT_cor2 g' g'' x xi Hlt (fun c _ => Hg' c))
          as (eta & Heta & Hin2).
        rewrite Heta, Rabs_mult.
        rewrite (Rabs_right (xi - x)) by lra.
        assert (Rabs (g'' eta) <= M).
        { apply HM. apply Rle_trans with (b - a); [| exact Hlen].
          apply Rabs_le. destruct Hx; subst x; lra. }
        assert (0 <= Rabs (g'' eta)) by apply Rabs_pos.
        assert (xi - x <= b - a) by (destruct Hx; subst x; lra).
        rewrite Rmult_comm. apply Rmult_le_compat; lra.
      - subst xi. replace (g' x - g' x) with 0 by ring. rewrite Rabs_R0.
        apply Rmult_le_pos; lra.
      - destruct (MVT_cor2 g' g'' xi x Hgt (fun c _ => Hg' c))
          as (eta & Heta & Hin2).
        rewrite Rabs_minus_sym, Heta, Rabs_mult.
        rewrite (Rabs_right (x - xi)) by lra.
        assert (Rabs (g'' eta) <= M).
        { apply HM. apply Rle_trans with (b - a); [| exact Hlen].
          apply Rabs_le. destruct Hx; subst x; lra. }
        assert (0 <= Rabs (g'' eta)) by apply Rabs_pos.
        assert (x - xi <= b - a) by (destruct Hx; subst x; lra).
        rewrite Rmult_comm. apply Rmult_le_compat; lra. }
    replace (g b - g a - (b - a) * g' x) with ((b - a) * (g' xi - g' x))
      by (rewrite Hxi; ring).
    rewrite Rabs_mult, (Rabs_right (b - a)) by lra.
    rewrite Rmult_assoc. apply Rmult_le_compat_l; lra. }
  destruct (Rtotal_order k 0) as [Hneg | [H0 | Hpos]].
  - pose proof (Hup (x + k) x ltac:(lra)
                  ltac:(rewrite (Rabs_left k) by lra; lra) (or_intror eq_refl))
      as H.
    replace (g (x + k) - g x - k * g' x)
      with (- (g x - g (x + k) - (x - (x + k)) * g' x)) by ring.
    rewrite Rabs_Ropp.
    replace (k * k * M) with ((x - (x + k)) * (x - (x + k)) * M) by ring.
    exact H.
  - subst k. replace (g (x + 0) - g x - 0 * g' x) with 0
      by (rewrite Rplus_0_r; ring).
    rewrite Rabs_R0. lra.
  - pose proof (Hup x (x + k) ltac:(lra)
                  ltac:(rewrite (Rabs_right k) by lra; lra) (or_introl eq_refl))
      as H.
    replace (x + k - x) with k in H by ring. exact H.
Qed.

(** ** The Gaussian integral *)

(** The kernel [exp(-x^2(1+t^2)/2) / (1+t^2)] and its first two
    derivatives in [x]. *)
Definition gk (x t : R) : R := exp (- (x * x * (1 + t * t)) / 2) / (1 + t * t).
Definition gk1 (x t : R) : R := - x * exp (- (x * x * (1 + t * t)) / 2).
Definition gk2 (x t : R) : R :=
  (x * x * (1 + t * t) - 1) * exp (- (x * x * (1 + t * t)) / 2).

Lemma one_plus_sq_pos (t : R) : 0 < 1 + t * t.
Proof. nra. Qed.

Lemma dpl_exp_quad (c x : R) :
  derivable_pt_lim (fun y => exp (- (y * y * c) / 2)) x
    (exp (- (x * x * c) / 2) * (- x * c)).
Proof.
  apply (dpl_comp (fun y => - (y * y * c) / 2) exp).
  - apply derivable_pt_lim_ext with (f := fun y => (- c / 2) * Rsqr y).
    + intros z. unfold Rsqr. field.
    + eapply dpl_value; [| apply dpl_scal, derivable_pt_lim_Rsqr]. field.
  - apply derivable_pt_lim_exp.
Qed.

Lemma gk_derive (t x : R) : derivable_pt_lim (fun y => gk y t) x (gk1 x t).
Proof.
  unfold gk, gk1. pose proof (one_plus_sq_pos t) as Hc.
  apply derivable_pt_lim_ext
    with (f := fun y => / (1 + t * t) * exp (- (y * y * (1 + t * t)) / 2)).
  - intros z. unfold Rdiv. ring.
  - eapply dpl_value; [| apply dpl_scal, dpl_exp_quad]. field. lra.
Qed.

Lemma gk1_derive (t x : R) : derivable_pt_lim (fun y => gk1 y t) x (gk2 x t).
Proof.
  unfold gk1, gk2.
  apply derivable_pt_lim_ext
    with (f := fun y => (-1 * y) * exp (- (y * y * (1 + t * t)) / 2)).
  - intros z. ring.
  - eapply dpl_value;
      [| apply derivable_pt_lim_mult with (f1 := fun y => -1 * y)
           (f2 := fun y => exp (- (y * y * (1 + t * t)) / 2));
         [apply dpl_scal, dpl_id | apply dpl_exp_quad]].
    ring.
Qed.

Lemma exp_neg_le_1 (u : R) : 0 <= u -> exp (- u) <= 1.
Proof.
  intros Hu. rewrite <- exp_0.
  destruct Hu as [Hu | <-]; [left; apply exp_increasing; lra |].
  rewrite Ropp_0. lra.
Qed.

Lemma gk2_bound (x y t : R) (k : R) :
  0 < t < 1 -> Rabs k <= 1 -> Rabs (y - x) <= Rabs k ->
  Rabs (gk2 y t) <= 2 * ((Rabs x + 1) * (Rabs x + 1)) + 1.
Proof.
  intros Ht Hk Hy. unfold gk2.
  assert (Hyabs : Rabs y <= Rabs x + 1).
  { replace y with (x + (y - x)) by ring.
    eapply Rle_trans; [apply Rabs_triang |]. lra. }
  assert (Hyy : y * y <= (Rabs x + 1) * (Rabs x + 1)).
  { pose proof (Rabs_pos y). pose proof (Rabs_pos x).
    replace (y * y) with (Rabs y * Rabs y)
      by (rewrite <- Rabs_mult; apply Rabs_right; nra).
    apply Rmult_le_compat; lra. }
  assert (Hc : 1 <= 1 + t * t <= 2) by nra.
  assert (Hu : 0 <= y * y * (1 + t * t)) by nra.
  assert (He : 0 < exp (- (y * y * (1 + t * t)) / 2) <= 1).
  { split; [apply exp_pos |].
    replace (- (y * y * (1 + t * t)) / 2) with (- (y * y * (1 + t * t) / 2))
      by field.
    apply exp_neg_le_1. lra. }
  rewrite Rabs_mult, (Rabs_right (exp _)) by lra.
  assert (Ha : Rabs (y * y * (1 + t * t) - 1)
               <= 2 * ((Rabs x + 1) * (Rabs x + 1)) + 1).
  { apply Rabs_le. split; nra. }
  pose proof (Rabs_pos (y * y * (1 + t * t) - 1)).
  nra.
Qed.

Lemma gk_cont (x : R) : continuity (gk x).
Proof. unfold gk. reg. all: intros; nra. Qed.

Lemma gk1_cont (x : R) : continuity (gk1 x).
Proof. unfold gk1. reg. Qed.

Definition gJ (x : R) : R := RiemannInt (cont_integrable (gk x) (gk_cont x) 0 1).
Definition gJ1 (x : R) : R :=
  RiemannInt (cont_integrable (gk1 x) (gk1_cont x) 0 1).

(** Differentiation under the integral sign. *)
Lemma gJ_derive (x : R) : derivable_pt_lim gJ x (gJ1 x).
Proof.
  set (M := 2 * ((Rabs x + 1) * (Rabs x + 1)) + 1).
  assert (HM : 0 < M) by (unfold M; pose proof (Rabs_pos x); nra).
  intros eps Heps.
  assert (Hd : 0 < Rmin 1 (eps / (M + 1))).
  { apply Rmin_pos; [lra |]. apply Rdiv_lt_0_compat; lra. }
  exists (mkposreal _ Hd). simpl. intros k Hk Hlt.
  assert (Hk1 : Rabs k < 1) by (eapply Rlt_le_trans; [exact Hlt | apply Rmin_l]).
  assert (Hk2 : Rabs k < eps / (M + 1))
    by (eapply Rlt_le_trans; [exact Hlt | apply Rmin_r]).
  set (pa := cont_integrable (gk (x + k)) (gk_cont (x + k)) 0 1).
  set (pb := cont_integrable (gk x) (gk_cont x) 0 1).
  set (pc := cont_integrable (gk1 x) (gk1_cont x) 0 1).
  assert (pu : Riemann_integrable (fun t => gk (x + k) t + -1 * gk x t) 0 1)
    by exact (RiemannInt_P10 (-1) pa pb).
  assert (pv : Riemann_integrable
                 (fun t => gk (x + k) t + -1 * gk x t + - k * gk1 x t) 0 1)
    by exact (RiemannInt_P10 (- k) pu pc).
  assert (Hint : RiemannInt pv = gJ (x + k) - gJ x - k * gJ1 x).
  { rewrite (RiemannInt_P13 pu pc pv), (RiemannInt_P13 pa pb pu).
    unfold gJ, gJ1. fold pa pb pc. ring. }
  assert (Hbound : Rabs (RiemannInt pv) <= k * k * M).
  { apply integral_abs_bound. intros t Ht.
    replace (gk (x + k) t + -1 * gk x t + - k * gk1 x t)
      with (gk (x + k) t - gk x t - k * gk1 x t) by ring.
    apply (remainder_bound (fun y => gk y t) (fun y => gk1 y t)
             (fun y => gk2 y t)).
    - intros y. apply gk_derive.
    - intros y. apply gk1_derive.
    - intros y Hy. unfold M. apply (gk2_bound x y t k); [exact Ht | lra | exact Hy]. }
  rewrite Hint in Hbound.
  replace ((gJ (x + k) - gJ x) / k - gJ1 x)
    with ((gJ (x + k) - gJ x - k * gJ1 x) / k) by (field; exact Hk).
  unfold Rdiv. rewrite Rabs_mult, Rabs_inv.
  assert (Hak : 0 < Rabs k) by (apply Rabs_pos_lt; exact Hk).
  apply Rle_lt_trans with (Rabs k * M).
  - apply Rmult_le_reg_r with (Rabs k); [exact Hak |].
    rewrite Rmult_assoc, Rinv_l, Rmult_1_r by lra.
    replace (Rabs k * M * Rabs k) with (k * k * M).
    + exact Hbound.
    + replace (k * k) with (Rabs k * Rabs k); [ring |].
      rewrite <- Rabs_mult. apply Rabs_right. nra.
  - apply Rlt_le_trans with (eps / (M + 1) * (M + 1)).
    + apply Rle_lt_trans with (Rabs k * (M + 1)).
      * apply Rmult_le_compat_l; lra.
      * apply Rmult_lt_compat_r; lra.
    + right. field. lra.
Qed.

Lemma sqrt_2PI_sq : sqrt (2 * PI) * sqrt (2 * PI) = 2 * PI.
Proof. apply sqrt_sqrt. pose proof PI_RGT_0. lra. Qed.

Lemma sqrt_2PI_pos : 0 < sqrt (2 * PI).
Proof. apply sqrt_lt_R0. pose proof PI_RGT_0. lra. Qed.

(** [x * pdf(x t)], whose integral over [0, 1] is [cdf x - cdf 0]. *)
Definition gq (x t : R) : R := x * norm_pdf (x * t).

Lemma gq_cont (x : R) : continuity (gq x).
Proof.
  unfold gq. apply continuity_mult.
  - apply continuity_const. intros a b. reflexivity.
  - apply (continuity_comp (fun t => x * t) norm_pdf).
    + reg.
    + apply norm_pdf_continuous.
Qed.

Lemma gq_integral (x : R) :
  RiemannInt (cont_integrable (gq x) (gq_cont x) 0 1) = norm_cdf x - 1 / 2.
Proof.
  rewrite (integral_by_primitive (gq x) (gq_cont x)
             (cont_integrable (gq x) (gq_cont x))
             (fun s => norm_cdf (x * s)) 0 1).
  - rewrite Rmult_1_r, Rmult_0_r, norm_cdf_0. reflexivity.
  - intros s. unfold gq.
    eapply dpl_value;
      [| apply (dpl_comp (fun s => x * s) norm_cdf s (x * 1) (norm_pdf (x * s)));
         [apply dpl_scal, dpl_id | apply norm_cdf_derive]].
    ring.
Qed.

Lemma gk1_as_gq (x t : R) : gk1 x t = 0 + (- (2 * PI) * norm_pdf x) * gq x t.
Proof.
  unfold gk1, gq, norm_pdf.
  replace (- (x * x * (1 + t * t)) / 2)
    with (- (x * x) / 2 + - (x * t * (x * t)) / 2) by field.
  rewrite exp_plus.
  pose proof sqrt_2PI_sq as Hsq. pose proof sqrt_2PI_pos as Hpos.
  set (s := sqrt (2 * PI)) in *.
  replace (2 * PI) with (s * s) by exact Hsq.
  field. lra.
Qed.

Lemma gJ1_value (x : R) :
  gJ1 x = - (2 * PI) * norm_pdf x * (norm_cdf x - 1 / 2).
Proof.
  unfold gJ1.
  set (pq := cont_integrable (gq x) (gq_cont x) 0 1).
  pose proof (RiemannInt_P14 0 1 0) as p0.
  assert (pl : Riemann_integrable
                 (fun t => fct_cte 0 t + (- (2 * PI) * norm_pdf x) * gq x t) 0 1)
    by exact (RiemannInt_P10 (- (2 * PI) * norm_pdf x) p0 pq).
  rewrite (RiemannInt_P18 (cont_integrable (gk1 x) (gk1_cont x) 0 1) pl).
  - rewrite (RiemannInt_P13 p0 pq pl), RiemannInt_P15.
    unfold pq. rewrite gq_integral. ring.
  - lra.
  - intros t _. unfold fct_cte. apply gk1_as_gq.
Qed.

Lemma gJ_0 : gJ 0 = PI / 4.
Proof.
  unfold gJ.
  rewrite (integral_by_primitive (gk 0) (gk_cont 0)
             (cont_integrable (gk 0) (gk_cont 0)) atan 0 1).
  - rewrite atan_1, atan_0. ring.
  - intros s. eapply dpl_value; [| apply derivable_pt_lim_atan].
    unfold gk. replace (- (0 * 0 * (1 + s * s)) / 2) with 0 by field.
    rewrite exp_0. pose proof (one_plus_sq_pos s). field. nra.
Qed.

(** The identity behind the Gaussian integral. *)
Lemma gauss_identity (x : R) :
  Rsqr (norm_cdf x - 1 / 2) + / PI * gJ x = 1 / 4.
Proof.
  pose proof PI_RGT_0 as Hpi.
  set (G := fun y => Rsqr (norm_cdf y - 1 / 2) + / PI * gJ y).
  assert (HG : forall c : R, derivable_pt_lim G c 0).
  { intros c. unfold G.
    assert (HF : derivable_pt_lim (fun y => norm_cdf y - 1 / 2) c
                   (norm_pdf c - 0))
      by (apply dpl_minus; [apply norm_cdf_derive | apply dpl_const]).
    pose proof (dpl_comp _ Rsqr _ _ _ HF (derivable_pt_lim_Rsqr _)) as Hsq.
    cbv beta in Hsq.
    pose proof (dpl_plus _ _ _ _ _ Hsq (dpl_scal _ (/ PI) _ _ (gJ_derive c)))
      as H.
    cbv beta in H. eapply dpl_value; [| exact H].
    rewrite gJ1_value. field. lra. }
  assert (H0 : G 0 = 1 / 4).
  { unfold G. rewrite norm_cdf_0, gJ_0. unfold Rsqr. field. lra. }
  fold (G x). rewrite <- H0.
  destruct (Rtotal_order x 0) as [Hlt | [Heq | Hgt]].
  - apply null_derivative_eq; [exact Hlt | intros c _; apply HG].
  - subst x. reflexivity.
  - symmetry. apply null_derivative_eq; [exact Hgt | intros c _; apply HG].
Qed.

Lemma exp_le_mono (a b : R) : a <= b -> exp a <= exp b.
Proof.
  intros [Hlt | ->]; [left; apply exp_increasing; exact Hlt | lra].
Qed.

Lemma gk_pos (x t : R) : 0 < gk x t.
Proof.
  unfold gk. apply Rdiv_lt_0_compat; [apply exp_pos | apply one_plus_sq_pos].
Qed.

Lemma gJ_nonneg (x : R) : 0 <= gJ x.
Proof.
  unfold gJ. pose proof (RiemannInt_P14 0 1 0) as p0.
  replace 0 with (RiemannInt p0) at 1 by (rewrite RiemannInt_P15; ring).
  apply RiemannInt_P19; [lra |].
  intros t _. unfold fct_cte. left. apply gk_pos.
Qed.

Lemma gJ_tail (x : R) : gJ x <= exp (- (x * x) / 2) * (PI / 4).
Proof.
  unfold gJ.
  set (p0 := cont_integrable (gk 0) (gk_cont 0) 0 1).
  pose proof (RiemannInt_P14 0 1 0) as pz.
  assert (pl : Riemann_integrable
                 (fun t => fct_cte 0 t + exp (- (x * x) / 2) * gk 0 t) 0 1)
    by exact (RiemannInt_P10 (exp (- (x * x) / 2)) pz p0).
  apply Rle_trans with (RiemannInt pl).
  - apply RiemannInt_P19; [lra |].
    intros t _. unfold fct_cte, gk.
    replace (- (0 * 0 * (1 + t * t)) / 2) with 0 by field. rewrite exp_0.
    pose proof (one_plus_sq_pos t) as Hc.
    rewrite Rplus_0_l. unfold Rdiv. rewrite Rmult_1_l.
    apply Rmult_le_compat_r; [left; apply Rinv_0_lt_compat; exact Hc |].
    apply exp_le_mono.
    assert (0 <= x * x * (t * t)) by nra. lra.
  - rewrite (RiemannInt_P13 pz p0 pl), RiemannInt_P15.
    pose proof gJ_0 as H0. unfold gJ in H0. fold p0 in H0. rewrite H0. lra.
Qed.

(** The normal distribution function takes its values strictly between 0
    and 1. *)
Lemma norm_cdf_bounds (x : R) : 0 < norm_cdf x < 1.
Proof.
  assert (Hle : forall y : R, 0 <= norm_cdf y <= 1).
  { intros y. pose proof (gauss_identity y) as Hid.
    pose proof (gJ_nonneg y) as HJ. pose proof PI_RGT_0 as Hpi.
    assert (0 <= / PI * gJ y)
      by (apply Rmult_le_pos; [left; apply Rinv_0_lt_compat; lra | exact HJ]).
    unfold Rsqr in Hid. split; nra. }
  pose proof (norm_cdf_increasing (x - 1) x ltac:(lra)).
  pose proof (norm_cdf_increasing x (x + 1) ltac:(lra)).
  pose proof (Hle (x - 1)). pose proof (Hle (x + 1)). lra.
Qed.

(** The lower tail is at most half the Gaussian weight. *)
Lemma norm_cdf_tail (y : R) :
  0 <= y -> norm_cdf (- y) <= exp (- (y * y) / 2) / 2.
Proof.
  intros Hy.
  pose proof (gauss_identity y) as Hid.
  pose proof (gJ_tail y) as HJ. pose proof PI_RGT_0 as Hpi.
  set (e := exp (- (y * y) / 2)) in *.
  assert (He : 0 < e <= 1).
  { split; [apply exp_pos |]. unfold e.
    replace (- (y * y) / 2) with (- (y * y / 2)) by field.
    apply exp_neg_le_1. nra. }
  assert (HJ' : / PI * gJ y <= e / 4).
  { apply Rmult_le_reg_l with PI; [lra |].
    rewrite <- Rmult_assoc, Rinv_r, Rmult_1_l by lra. lra. }
  rewrite norm_cdf_opp.
  set (F := norm_cdf y - 1 / 2) in *.
  assert (HF0 : 0 <= F).
  { unfold F. pose proof norm_cdf_0 as H0.
    destruct Hy as [Hy | <-]; [| lra].
    pose proof (norm_cdf_increasing 0 y Hy). lra. }
  assert (HF2 : (1 - e) / 4 <= F * F) by (unfold Rsqr in Hid; lra).
  assert (HF : (1 - e) / 2 <= F).
  { destruct (Rle_dec ((1 - e) / 2) F) as [H | H]; [exact H |].
    apply Rnot_le_lt in H. exfalso.
    assert (F * F < (1 - e) / 2 * ((1 - e) / 2)) by nra.
    nra. }
  unfold F in HF. lra.
Qed.

(** ** No-arbitrage bounds of the closed form *)

(** Put-call duality: a put is a call with spot and strike, and the two
    rates, exchanged. *)
Lemma bsm_put_as_call (S K T r q sigma : R) :
  0 < S -> 0 < K -> 0 < T -> 0 < sigma ->
  bsm_price S K T r q sigma Put = bsm_price K S T q r sigma Call.
Proof.
  intros HS HK HT Hsig.
  assert (Hs : 0 < sqrt T) by (apply sqrt_lt_R0; exact HT).
  assert (Hln : ln (K / S) = - ln (S / K)).
  { rewrite <- ln_Rinv by (apply Rdiv_lt_0_compat; assumption).
    f_equal. field. split; lra. }
  assert (H1 : bsm_d1 K S T q r sigma = - bsm_d2 S K T r q sigma).
  { unfold bsm_d2, bsm_d1. rewrite Hln, lit_half.
    assert (Hss : sqrt T * sqrt T = T) by (apply sqrt_sqrt; lra).
    generalize dependent (sqrt T). intros s Hs Hss.
    rewrite <- Hss. field. split; lra. }
  assert (H2 : bsm_d2 K S T q r sigma = - bsm_d1 S K T r q sigma).
  { unfold bsm_d2 at 1. rewrite H1. unfold bsm_d2. ring. }
  unfold bsm_price. rewrite H1, H2. reflexivity.
Qed.

Lemma bsm_d2_lt_d1 (S K T r q sigma : R) :
  0 < T -> 0 < sigma -> bsm_d2 S K T r q sigma < bsm_d1 S K T r q sigma.
Proof.
  intros HT Hsig. unfold bsm_d2.
  assert (0 < sigma * sqrt T)
    by (apply Rmult_lt_0_compat; [exact Hsig | apply sqrt_lt_R0; exact HT]).
  lra.
Qed.

(** The call is worth more than nothing when the discounted spot is at
    least the discounted strike. *)
Lemma bsm_call_pos_itm (S K T r q sigma : R) :
  0 < S -> 0 < K -> 0 < T -> 0 < sigma ->
  K * exp (- (r * T)) <= S * exp (- (q * T)) ->
  0 < bsm_price S K T r q sigma Call.
Proof.
  intros HS HK HT Hsig Hfwd. unfold bsm_price.
  pose proof (norm_cdf_increasing _ _ (bsm_d2_lt_d1 S K T r q sigma HT Hsig)).
  pose proof (norm_cdf_bounds (bsm_d1 S K T r q sigma)).
  pose proof (norm_cdf_bounds (bsm_d2 S K T r q sigma)).
  assert (0 < K * exp (- (r * T)))
    by (apply Rmult_lt_0_compat; [exact HK | apply exp_pos]).
  nra.
Qed.

Lemma exp_neg_sq_bound (y : R) : y <> 0 -> exp (- (y * y) / 2) <= 2 / (y * y).
Proof.
  intros Hy.
  assert (Hyy : 0 < y * y) by (destruct (Rtotal_order y 0) as [H | [H | H]]; [nra | contradiction | nra]).
  replace (- (y * y) / 2) with (- (y * y / 2)) by field.
  rewrite exp_Ropp.
  pose proof (exp_ineq1 (y * y / 2) ltac:(lra)) as He.
  assert (Hpos : 0 < exp (y * y / 2)) by apply exp_pos.
  apply Rmult_le_reg_r with (exp (y * y / 2)); [exact Hpos |].
  rewrite Rinv_l by lra.
  apply Rmult_le_reg_r with (y * y); [exact Hyy |].
  replace (2 / (y * y) * exp (y * y / 2) * (y * y)) with (2 * exp (y * y / 2))
    by (field; lra).
  nra.
Qed.

Lemma forward_log (S K T r q : R) :
  0 < S -> 0 < K ->
  S * exp (- (q * T)) < K * exp (- (r * T)) ->
  ln (S / K) + (r - q) * T < 0.
Proof.
  intros HS HK Hlt.
  assert (HA : 0 < S * exp (- (q * T)))
    by (apply Rmult_lt_0_compat; [exact HS | apply exp_pos]).
  apply ln_increasing in Hlt; [| exact HA].
  rewrite !ln_mult, !ln_exp in Hlt by (first [assumption | apply exp_pos]).
  unfold Rdiv. rewrite ln_mult by (first [assumption | apply Rinv_0_lt_compat; assumption]).
  rewrite ln_Rinv by assumption. lra.
Qed.

(** Out of the money the call stays above a bound that vanishes with the
    volatility. *)
Lemma bsm_call_small_vol (S K T r q sigma : R) :
  0 < S -> 0 < K -> 0 < T -> 0 < sigma ->
  ln (S / K) + (r - q) * T < 0 ->
  - (K * exp (- (r * T)) * (sigma * sigma * T)
     / Rsqr (ln (S / K) + (r - q) * T))
  < bsm_price S K T r q sigma Call.
Proof.
  intros HS HK HT Hsig Ha.
  set (a0 := ln (S / K) + (r - q) * T) in *.
  assert (Hs : 0 < sqrt T) by (apply sqrt_lt_R0; exact HT).
  assert (Hss : sqrt T * sqrt T = T) by (apply sqrt_sqrt; lra).
  assert (HB : 0 < K * exp (- (r * T)))
    by (apply Rmult_lt_0_compat; [exact HK | apply exp_pos]).
  assert (HA : 0 < S * exp (- (q * T)))
    by (apply Rmult_lt_0_compat; [exact HS | apply exp_pos]).
  set (d2 := bsm_d2 S K T r q sigma).
  assert (Hd2 : d2 <= a0 / (sigma * sqrt T)).
  { unfold d2, bsm_d2, bsm_d1. fold a0. rewrite lit_half.
    assert (Hden : 0 < sigma * sqrt T) by (apply Rmult_lt_0_compat; lra).
    apply Rmult_le_reg_r with (sigma * sqrt T); [exact Hden |].
    replace (a0 / (sigma * sqrt T) * (sigma * sqrt T)) with a0
      by (field; split; lra).
    replace (((ln (S / K) + (r - q + / 2 * sigma ^ 2) * T) / (sigma * sqrt T)
              - sigma * sqrt T) * (sigma * sqrt T))
      with (a0 + / 2 * sigma ^ 2 * T - sigma * sigma * (sqrt T * sqrt T))
      by (unfold a0; field; split; lra).
    rewrite Hss. nra. }
  assert (Hneg : a0 / (sigma * sqrt T) < 0).
  { assert (Hi : 0 < / (sigma * sqrt T))
      by (apply Rinv_0_lt_compat, Rmult_lt_0_compat; lra).
    unfold Rdiv. nra. }
  assert (Hd2neg : d2 < 0) by lra.
  assert (Hsq : Rsqr (a0 / (sigma * sqrt T)) <= d2 * d2) by (unfold Rsqr; nra).
  assert (Hsqv : Rsqr (a0 / (sigma * sqrt T)) = Rsqr a0 / (sigma * sigma * T)).
  { rewrite <- Hss at 2. unfold Rsqr. field. split; lra. }
  assert (Ha2 : 0 < Rsqr a0) by (unfold Rsqr; nra).
  assert (Hst : 0 < sigma * sigma * T) by (repeat apply Rmult_lt_0_compat; lra).
  assert (Hd2sq : 0 < d2 * d2) by nra.
  (* the tail *)
  pose proof (norm_cdf_tail (- d2) ltac:(lra)) as Htail.
  rewrite Ropp_involutive in Htail.
  replace (- d2 * - d2) with (d2 * d2) in Htail by ring.
  pose proof (exp_neg_sq_bound d2 ltac:(lra)) as Hexp.
  assert (Hphi : norm_cdf d2 <= sigma * sigma * T / Rsqr a0).
  { apply Rle_trans with (/ (d2 * d2)).
    - unfold Rdiv in Hexp. lra.
    - replace (sigma * sigma * T / Rsqr a0) with (/ (Rsqr a0 / (sigma * sigma * T)))
        by (field; split; lra).
      apply Rinv_le_contravar; [| rewrite <- Hsqv; exact Hsq].
      apply Rdiv_lt_0_compat; assumption. }
  pose proof (norm_cdf_bounds (bsm_d1 S K T r q sigma)) as Hd1.
  unfold bsm_price. fold d2.
  assert (Hprod : K * exp (- (r * T)) * norm_cdf d2
                  <= K * exp (- (r * T)) * (sigma * sigma * T / Rsqr a0))
    by (apply Rmult_le_compat_l; lra).
  assert (Hpos : 0 < S * exp (- (q * T)) * norm_cdf (bsm_d1 S K T r q sigma))
    by (apply Rmult_lt_0_compat; lra).
  unfold Rdiv in *. lra.
Qed.

Lemma bsm_call_pos (S K T r q sigma : R) :
  0 < S -> 0 < K -> 0 < T -> 0 < sigma ->
  0 < bsm_price S K T r q sigma Call.
Proof.
  intros HS HK HT Hsig.
  destruct (Rle_dec (K * exp (- (r * T))) (S * exp (- (q * T)))) as [Hitm | Hotm].
  { apply bsm_call_pos_itm; assumption. }
  apply Rnot_le_lt in Hotm.
  pose proof (forward_log S K T r q HS HK Hotm) as Ha.
  set (a0 := ln (S / K) + (r - q) * T) in *.
  assert (HB : 0 < K * exp (- (r * T)))
    by (apply Rmult_lt_0_compat; [exact HK | apply exp_pos]).
  set (B := K * exp (- (r * T))) in *.
  destruct (Rlt_dec 0 (bsm_price S K T r q sigma Call)) as [Hp | Hn];
    [exact Hp | exfalso].
  apply Rnot_lt_le in Hn.
  pose proof (bsm_call_increasing S K T r q (sigma / 2) sigma HS HK HT
                ltac:(lra) ltac:(lra)) as H1.
  set (dlt := - bsm_price S K T r q (sigma / 2) Call).
  assert (Hdlt : 0 < dlt) by (unfold dlt; lra).
  assert (Ha2 : 0 < Rsqr a0) by (unfold Rsqr; nra).
  set (bound := Rsqr a0 * dlt / (B * T)).
  assert (Hbound : 0 < bound).
  { unfold bound. apply Rdiv_lt_0_compat; [| apply Rmult_lt_0_compat; lra].
    apply Rmult_lt_0_compat; lra. }
  set (s' := Rmin (sigma / 4) (Rmin 1 bound)).
  assert (Hs'pos : 0 < s')
    by (unfold s'; repeat apply Rmin_pos; lra).
  assert (Hs'1 : s' <= sigma / 4) by apply Rmin_l.
  assert (Hs'2 : s' <= 1)
    by (eapply Rle_trans; [apply Rmin_r | apply Rmin_l]).
  assert (Hs'3 : s' <= bound)
    by (eapply Rle_trans; [apply Rmin_r | apply Rmin_r]).
  pose proof (bsm_call_small_vol S K T r q s' HS HK HT Hs'pos Ha) as Hlow.
  fold a0 B in Hlow.
  pose proof (bsm_call_increasing S K T r q s' (sigma / 2) HS HK HT
                Hs'pos ltac:(lra)) as H2.
  assert (Hle : B * (s' * s' * T) / Rsqr a0 <= dlt).
  { apply Rmult_le_reg_r with (Rsqr a0); [exact Ha2 |].
    replace (B * (s' * s' * T) / Rsqr a0 * Rsqr a0) with (B * T * (s' * s'))
      by (field; lra).
    assert (Hss : s' * s' <= bound) by nra.
    apply Rle_trans with (B * T * bound).
    - apply Rmult_le_compat_l; [apply Rmult_le_pos; lra | exact Hss].
    - unfold bound. right. field. split; lra. }
  unfold dlt in Hle. lra.
Qed.

Lemma bsm_price_pos (S K T r q sigma : R) (ty : OptionType) :
  0 < S -> 0 < K -> 0 < T -> 0 < sigma ->
  0 < bsm_price S K T r q sigma ty.
Proof.
  intros HS HK HT Hsig. destruct ty.
  - apply bsm_call_pos; assumption.
  - rewrite bsm_put_as_call by assumption. apply bsm_call_pos; assumption.
Qed.


(** ** Signs and parities of the Greeks *)

Lemma greek_signs (S K T r q sigma : R) :
  0 < S -> 0 < K -> 0 < T -> 0 < sigma ->
  let g := bsm_greeks S K T r q sigma in
  0 < delta_c g < exp (- (q * T)) /\
  - exp (- (q * T)) < delta_p g < 0 /\
  0 < gamma g /\
  0 < vega g /\
  vega g = gamma g * S * S * sigma * T /\
  0 < rho_c g /\
  rho_p g < 0.
Proof.
  intros HS HK HT Hsig g. subst g.
  cbn [bsm_greeks delta_c delta_p gamma vega rho_c rho_p].
  assert (Hs : 0 < sqrt T) by (apply sqrt_lt_R0; exact HT).
  assert (Hss : sqrt T * sqrt T = T) by (apply sqrt_sqrt; lra).
  pose proof (norm_cdf_bounds (bsm_d1 S K T r q sigma)) as H1.
  pose proof (norm_cdf_bounds (bsm_d2 S K T r q sigma)) as H2.
  pose proof (norm_cdf_bounds (- bsm_d2 S K T r q sigma)) as H3.
  pose proof (norm_pdf_pos (bsm_d1 S K T r q sigma)) as Hpdf.
  pose proof (exp_pos (- (q * T))) as Hq.
  pose proof (exp_pos (- (r * T))) as Hr.
  set (dq := exp (- (q * T))) in *. set (dr := exp (- (r * T))) in *.
  set (p := norm_pdf (bsm_d1 S K T r q sigma)) in *.
  assert (Hden : 0 < S * sigma * sqrt T)
    by (repeat apply Rmult_lt_0_compat; lra).
  assert (Hdp : 0 < dq * p) by (apply Rmult_lt_0_compat; lra).
  set (c1 := norm_cdf (bsm_d1 S K T r q sigma)) in *.
  assert (Hc1 : 0 < dq * c1) by (apply Rmult_lt_0_compat; lra).
  assert (Hc2 : 0 < dq * (1 - c1)) by (apply Rmult_lt_0_compat; lra).
  split; [lra |]. split; [lra |].
  split; [apply Rdiv_lt_0_compat; assumption |].
  split.
  { replace (S * dq * p * sqrt T) with (S * (dq * p) * sqrt T) by ring.
    apply Rmult_lt_0_compat; [apply Rmult_lt_0_compat |]; lra. }
  split.
  { clear Hden. set (s := sqrt T) in *. rewrite <- Hss. field.
    repeat split; lra. }
  assert (HKT : 0 < K * T * dr) by (repeat apply Rmult_lt_0_compat; lra).
  split; [apply Rmult_lt_0_compat; lra |].
  replace (- K * T * dr * norm_cdf (- bsm_d2 S K T r q sigma))
    with (- (K * T * dr * norm_cdf (- bsm_d2 S K T r q sigma))) by ring.
  assert (0 < K * T * dr * norm_cdf (- bsm_d2 S K T r q sigma))
    by (apply Rmult_lt_0_compat; lra).
  lra.
Qed.

Lemma greek_parities (S K T r q sigma : R) :
  0 < T ->
  let g := bsm_greeks S K T r q sigma in
  theta_c g - theta_p g
    = q * S * exp (- (q * T)) - r * K * exp (- (r * T)) /\
  rho_c g - rho_p g = K * T * exp (- (r * T)).
Proof.
  intros HT g. subst g.
  cbn [bsm_greeks theta_c theta_p rho_c rho_p].
  rewrite !norm_cdf_opp. split; ring.
Qed.

Lemma d1_d2_scale (k S K T r q vol : R) :
  k <> 0 -> d1_d2 (k * S) (k * K) T r q vol = d1_d2 S K T r q vol.
Proof.
  intros Hk.
  destruct (domain_dec S K T vol) as [(HT & Hvol & HSK) | Hbad].
  - assert (HK : K <> 0) by (intros ->; lra).
    rewrite !d1_d2_ok; try assumption.
    + rewrite bsm_d1_scale, bsm_d2_scale by assumption. reflexivity.
    + apply scale_same_sign; assumption.
  - assert (Hbad' : ~ (0 < T /\ vol <> 0 /\ 0 < k * S * (k * K))).
    { intros (H1 & H2 & H3). apply Hbad. repeat split; try assumption.
      apply (scale_same_sign k); assumption. }
    rewrite !d1_d2_raises by assumption.
    destruct (Rlt_dec T 0); [reflexivity |].
    destruct (Req_dec_T (k * K) 0) as [H0 | H0], (Req_dec_T K 0) as [H1 | H1].
    + reflexivity.
    + exfalso. apply Rmult_integral in H0. tauto.
    + exfalso. apply H0. subst K. ring.
    + destruct (Rle_dec (k * S * (k * K)) 0) as [H2 | H2],
               (Rle_dec (S * K) 0) as [H3 | H3]; try reflexivity; exfalso.
      * apply Rnot_le_lt in H3. apply (scale_same_sign k) in H3; [lra | exact Hk].
      * apply Rnot_le_lt in H2. apply scale_same_sign in H2; [lra | exact Hk].
Qed.

(** ** What a run of [script] ends in *)

Lemma script_displayed_inv (brentq : solver)
    (S K T_days r vol q : R) (mkt_price : option R)
    (g : greeks_result) (iv : option (pyfloat * pyfloat)) :
  script brentq S K T_days r vol q mkt_price = Displayed g iv ->
  greeks S K (T_days / 365.0) r q vol = Ok g /\
  match mkt_price with
  | None => iv = None
  | Some m =>
      exists iv_c iv_p : pyfloat,
        iv = Some (iv_c, iv_p) /\
        implied_vol brentq m S K (T_days / 365.0) r q "call" = Ok iv_c /\
        implied_vol brentq m S K (T_days / 365.0) r q "put" = Ok iv_p
  end.
Proof.
  unfold script.
  destruct (Rleb S 0 || Rleb K 0 || Rleb T_days 0 || Rleb vol 0)%bool eqn:Hguard;
    [discriminate |].
  destruct (greeks S K (T_days / 365.0) r q vol) as [g' | e]; [| discriminate].
  destruct mkt_price as [m |].
  - destruct (implied_vol brentq m S K (T_days / 365.0) r q "call")
      as [iv_c | e]; [| discriminate].
    destruct (implied_vol brentq m S K (T_days / 365.0) r q "put")
      as [iv_p | e]; [| discriminate].
    intros H. injection H as <- <-.
    split; [reflexivity |].
    exists iv_c, iv_p. repeat split.
  - intros H. injection H as <- <-.
    split; reflexivity.
Qed.

Lemma script_rejected_iff (brentq : solver)
    (S K T_days r vol q : R) (mkt_price : option R) :
  script brentq S K T_days r vol q mkt_price = InputRejected <->
  S <= 0 \/ K <= 0 \/ T_days <= 0 \/ vol <= 0.
Proof.
  split.
  - unfold script.
    destruct (Rleb S 0 || Rleb K 0 || Rleb T_days 0 || Rleb vol 0)%bool
      eqn:Hguard.
    + intros _. apply guard_rejects. exact Hguard.
    + destruct (greeks S K (T_days / 365.0) r q vol); [| discriminate].
      destruct mkt_price; [| discriminate].
      destruct (implied_vol brentq _ S K (T_days / 365.0) r q "call");
        [| discriminate].
      destruct (implied_vol brentq _ S K (T_days / 365.0) r q "put");
        discriminate.
  - intros H. unfold script.
    apply guard_rejects in H. rewrite H. reflexivity.
Qed.

(** ** Quotes no volatility of the bracket explains *)


(** ** Geometry of [line] and [box] *)

Lemma len_app (s t : ustr) : len (s ++ t) = (len s + len t)%Z.
Proof. unfold len. rewrite length_app. lia. Qed.

Lemma len_nonneg (s : ustr) : (0 <= len s)%Z.
Proof. unfold len. lia. Qed.

Lemma len_str_mul1 (c : N) (n : Z) : len (str_mul [c] n) = Z.max 0 n.
Proof.
  unfold str_mul, len.
  assert (H : forall k, length (concat (repeat [c] k)) = k).
  { induction k as [| k IH]; [reflexivity |]. cbn. rewrite IH. reflexivity. }
  rewrite H. lia.
Qed.

Lemma str_mul1_all (c : N) (n : Z) : Forall (eq c) (str_mul [c] n).
Proof.
  unfold str_mul. induction (Z.to_nat n) as [| k IH]; cbn.
  - constructor.
  - constructor; [reflexivity | exact IH].
Qed.

Lemma land_bit (a b : Z) : (0 <= Z.land (Z.land a b) 1 <= 1)%Z.
Proof.
  change 1%Z with (Z.ones 1) at 1 2.
  rewrite Z.land_ones by lia. 
  pose proof (Z.mod_pos_bound (Z.land a b) (2 ^ 1) ltac:(lia)). lia.
Qed.

Lemma land_bit_odd (a b : Z) :
  Z.land (Z.land a b) 1 = 1%Z -> Z.odd a = true.
Proof.
  intros H.
  assert (Hb : Z.testbit (Z.land (Z.land a b) 1) 0 = true)
    by (rewrite H; reflexivity).
  rewrite !Z.land_spec in Hb.
  apply andb_true_iff in Hb. destruct Hb as [Hb _].
  apply andb_true_iff in Hb. destruct Hb as [Hb _].
  rewrite Z.bit0_odd in Hb. exact Hb.
Qed.

(** What [center] returns: the string between two runs of spaces that
    together fill the width and differ in length by at most one. *)
Lemma center_shape (s : ustr) (width : Z) :
  exists l r : Z,
    center s width = str_mul [SPACE] l ++ s ++ str_mul [SPACE] r /\
    (0 <= l)%Z /\ (0 <= r)%Z /\
    (l + r = Z.max 0 (width - len s))%Z /\
    (Z.abs (l - r) <= 1)%Z.
Proof.
  unfold center. destruct (width <=? len s)%Z eqn:Hw.
  - apply Z.leb_le in Hw. exists 0%Z, 0%Z.
    cbn. rewrite app_nil_r. repeat split; lia.
  - apply Z.leb_gt in Hw.
    set (marg := (width - len s)%Z).
    set (bit := Z.land (Z.land marg width) 1).
    assert (Hm : (0 < marg)%Z) by (unfold marg; lia).
    pose proof (land_bit marg width) as Hbit. fold bit in Hbit.
    exists (marg / 2 + bit)%Z, (marg - (marg / 2 + bit))%Z.
    split; [reflexivity |].
    pose proof (Z.div_mod marg 2 ltac:(lia)) as Hdm.
    pose proof (Z.mod_pos_bound marg 2 ltac:(lia)) as Hmod.
    assert (Hodd : bit = 1%Z -> (marg mod 2 = 1)%Z).
    { intros Hb. apply land_bit_odd in Hb.
      rewrite Zmod_odd, Hb. reflexivity. }
    assert (Hcases : bit = 0%Z \/ bit = 1%Z) by lia.
    destruct Hcases as [Hb | Hb].
    + rewrite Hb. repeat split; try lia.
    + specialize (Hodd Hb). rewrite Hb. repeat split; try lia.
Qed.

Lemma len_center (s : ustr) (width : Z) :
  len (center s width) = Z.max (len s) width.
Proof.
  destruct (center_shape s width) as (l & r & Heq & Hl & Hr & Hsum & _).
  rewrite Heq, !len_app, !len_str_mul1.
  pose proof (len_nonneg s). lia.
Qed.

(** ** Whitespace and [strip] *)

Lemma lstrip_spaces (ws t : ustr) :
  forallb py_isspace ws = true -> lstrip (ws ++ t) = lstrip t.
Proof.
  induction ws as [| c ws IH]; intros H; [reflexivity |].
  cbn in H. apply andb_true_iff in H. destruct H as [Hc Hws].
  cbn. rewrite Hc. apply IH. exact Hws.
Qed.

Lemma lstrip_all_spaces (ws : ustr) :
  forallb py_isspace ws = true -> lstrip ws = [].
Proof.
  intros H. rewrite <- (app_nil_r ws). rewrite lstrip_spaces by exact H.
  reflexivity.
Qed.

Lemma lstrip_app_nonblank (s t : ustr) :
  lstrip s <> [] -> lstrip (s ++ t) = lstrip s ++ t.
Proof.
  induction s as [| c s IH]; intros H; [contradiction |].
  cbn in *. destruct (py_isspace c); [apply IH; exact H | reflexivity].
Qed.

Lemma forallb_rev (f : N -> bool) (l : ustr) :
  forallb f (rev l) = forallb f l.
Proof.
  induction l as [| c l IH]; [reflexivity |].
  cbn. rewrite forallb_app, IH. cbn. rewrite andb_true_r. apply andb_comm.
Qed.

Lemma rstrip_spaces (t ws : ustr) :
  forallb py_isspace ws = true -> rstrip (t ++ ws) = rstrip t.
Proof.
  intros H. unfold rstrip. rewrite rev_app_distr.
  rewrite lstrip_spaces by (rewrite forallb_rev; exact H). reflexivity.
Qed.

Lemma lstrip_blank_iff (s : ustr) :
  lstrip s = [] <-> forallb py_isspace s = true.
Proof.
  induction s as [| c s IH]; [split; reflexivity |].
  cbn. destruct (py_isspace c); cbn; [exact IH |].
  split; discriminate.
Qed.

(** Whitespace around the text typed does not count. *)
Lemma strip_padding (ws1 s ws2 : ustr) :
  forallb py_isspace ws1 = true -> forallb py_isspace ws2 = true ->
  strip (ws1 ++ s ++ ws2) = strip s.
Proof.
  intros H1 H2. unfold strip. rewrite lstrip_spaces by exact H1.
  destruct (lstrip s) as [| c t] eqn:Hs.
  - apply lstrip_blank_iff in Hs.
    assert (Hall : forallb py_isspace (s ++ ws2) = true)
      by (rewrite forallb_app, Hs, H2; reflexivity).
    rewrite (lstrip_all_spaces _ Hall). reflexivity.
  - rewrite lstrip_app_nonblank by (rewrite Hs; discriminate).
    rewrite Hs. apply rstrip_spaces. exact H2.
Qed.

Lemma strip_blank (ws : ustr) :
  forallb py_isspace ws = true -> strip ws = [].
Proof.
  intros H. unfold strip. rewrite lstrip_all_spaces by exact H. reflexivity.
Qed.

Lemma rev_nil_iff (l : ustr) : rev l = [] <-> l = [].
Proof.
  split; intros H.
  - rewrite <- (rev_involutive l), H. reflexivity.
  - subst l. reflexivity.
Qed.

Lemma lstrip_head (s : ustr) :
  match lstrip s with
  | [] => True
  | c :: _ => py_isspace c = false
  end.
Proof.
  induction s as [| c s IH]; [exact I |].
  cbn. destruct (py_isspace c) eqn:Hc; [exact IH | exact Hc].
Qed.

Lemma strip_nil_iff (s : ustr) :
  strip s = [] <-> forallb py_isspace s = true.
Proof.
  split; [| apply strip_blank].
  unfold strip, rstrip. intros H.
  apply rev_nil_iff, lstrip_blank_iff in H. rewrite forallb_rev in H.
  apply lstrip_blank_iff.
  pose proof (lstrip_head s) as Hh.
  destruct (lstrip s) as [| c t]; [reflexivity |].
  cbn in H. rewrite Hh in H. discriminate.
Qed.

(** ** Reading the inputs *)

Section InputProperties.

Variable py_float : ustr -> res R.

Lemma ask_float_inv (prompt : ustr) (default : option R)
    (inp rest : stdin) (x : R) :
  ask_float py_float prompt default inp = Got x rest <->
  exists l : ustr,
    inp = l :: rest /\
    ((strip l = [] /\ default = Some x) \/
     (strip l <> [] /\ py_float (strip l) = Ok x)).
Proof.
  unfold ask_float, io_bind, input. split.
  - destruct inp as [| l inp']; [discriminate |].
    destruct (strip l) as [| c t] eqn:Hs.
    + destruct default as [d |]; cbn; [| discriminate].
      intros H. injection H as <- <-. exists l. rewrite Hs. tauto.
    + unfold io_lift. destruct (py_float (c :: t)) as [y | e] eqn:Hf;
        [| discriminate].
      intros H. injection H as <- <-. exists l. rewrite Hs.
      split; [reflexivity |]. right. split; [discriminate | exact Hf].
  - intros (l & -> & [[Hs ->] | [Hs Hf]]).
    + rewrite Hs. reflexivity.
    + destruct (strip l) as [| c t]; [contradiction |].
      unfold io_lift. rewrite Hf. reflexivity.
Qed.

Lemma ask_float_required_inv (prompt : ustr) (inp rest : stdin) (x : R) :
  ask_float py_float prompt None inp = Got x rest <->
  exists l : ustr,
    inp = l :: rest /\ strip l <> [] /\ py_float (strip l) = Ok x.
Proof.
  rewrite ask_float_inv. split.
  - intros (l & Hl & [[_ Hd] | [Hs Hf]]); [discriminate |].
    exists l. tauto.
  - intros (l & Hl & Hs & Hf). exists l. tauto.
Qed.

End InputProperties.

Section ReadInputs.

Variable py_float : ustr -> res R.
Variables LABEL RST : ustr.

Lemma ask_required_typed (prompt l : ustr) (rest : stdin) (x : R) :
  typed py_float l x ->
  ask_float py_float prompt None (l :: rest) = Got x rest.
Proof.
  intros [Hs Hf]. apply ask_float_required_inv. exists l. tauto.
Qed.

Lemma read_inputs_spec (inp rest : stdin) (i : inputs) :
  read_inputs py_float LABEL RST inp = Got i rest <->
  exists l1 l2 l3 l4 l5 l6 l7 : ustr,
    inp = l1 :: l2 :: l3 :: l4 :: l5 :: l6 :: l7 :: rest /\
    typed py_float l1 (in_S i) /\
    typed py_float l2 (in_K i) /\
    typed py_float l3 (in_T_days i) /\
    typed py_float l4 (in_r i) /\
    typed py_float l5 (in_vol i) /\
    ((strip l6 = [] /\ in_q i = 0.0) \/ typed py_float l6 (in_q i)) /\
    ((strip l7 = [] /\ in_mkt_price i = None) \/
     exists m : R, typed py_float l7 m /\ in_mkt_price i = Some m).
Proof.
  split.
  - unfold read_inputs. intros H.
    unfold io_bind at 1 in H.
    destruct (ask_float _ _ None inp) as [S r1 | e] eqn:H1; [| discriminate].
    apply ask_float_required_inv in H1. destruct H1 as (l1 & -> & T1).
    unfold io_bind at 1 in H.
    destruct (ask_float _ _ None r1) as [K r2 | e] eqn:H2; [| discriminate].
    apply ask_float_required_inv in H2. destruct H2 as (l2 & -> & T2).
    unfold io_bind at 1 in H.
    destruct (ask_float _ _ None r2) as [T_days r3 | e] eqn:H3; [| discriminate].
    apply ask_float_required_inv in H3. destruct H3 as (l3 & -> & T3).
    unfold io_bind at 1 in H.
    destruct (ask_float _ _ None r3) as [r r4 | e] eqn:H4; [| discriminate].
    apply ask_float_required_inv in H4. destruct H4 as (l4 & -> & T4).
    unfold io_bind at 1 in H.
    destruct (ask_float _ _ None r4) as [vol r5 | e] eqn:H5; [| discriminate].
    apply ask_float_required_inv in H5. destruct H5 as (l5 & -> & T5).
    unfold io_bind at 1 in H.
    destruct (ask_float _ _ (Some 0.0) r5) as [q r6 | e] eqn:H6;
      [| discriminate].
    apply ask_float_inv in H6. destruct H6 as (l6 & -> & T6).
    unfold io_bind at 1, input in H.
    destruct r6 as [| l7 r7]; [discriminate |].
    assert (Hq : (strip l6 = [] /\ q = 0.0) \/ typed py_float l6 q).
    { destruct T6 as [[Hs Hd] | T6]; [left | right; exact T6].
      split; [exact Hs |]. injection Hd as <-. reflexivity. }
    destruct (strip l7) as [| c t] eqn:Hs7.
    + unfold io_ret in H. injection H as <- <-.
      exists l1, l2, l3, l4, l5, l6, l7. cbn [in_S in_K in_T_days in_r in_vol in_q in_mkt_price].
      repeat (split; [first [reflexivity | assumption] |]).
      left. split; [exact Hs7 | reflexivity].
    + unfold io_bind, io_lift in H.
      destruct (py_float (c :: t)) as [m | e] eqn:Hm; [| discriminate].
      unfold io_ret in H. injection H as <- <-.
      exists l1, l2, l3, l4, l5, l6, l7. cbn [in_S in_K in_T_days in_r in_vol in_q in_mkt_price].
      repeat (split; [first [reflexivity | assumption] |]).
      right. exists m. split; [| reflexivity].
      split; [rewrite Hs7; discriminate | rewrite Hs7; exact Hm].
  - intros (l1 & l2 & l3 & l4 & l5 & l6 & l7 & -> & T1 & T2 & T3 & T4 & T5
            & T6 & T7).
    destruct i as [S K T_days r vol q mkt].
    cbn [in_S in_K in_T_days in_r in_vol in_q in_mkt_price] in *.
    unfold read_inputs.
    unfold io_bind at 1. rewrite (ask_required_typed _ _ _ _ T1).
    unfold io_bind at 1. rewrite (ask_required_typed _ _ _ _ T2).
    unfold io_bind at 1. rewrite (ask_required_typed _ _ _ _ T3).
    unfold io_bind at 1. rewrite (ask_required_typed _ _ _ _ T4).
    unfold io_bind at 1. rewrite (ask_required_typed _ _ _ _ T5).
    unfold io_bind at 1.
    assert (H6 : ask_float py_float
                   (LABEL ++ u "Dividend yield q (decimal) [default 0]: "
                      ++ RST) (Some 0.0) (l6 :: l7 :: rest)
                 = Got q (l7 :: rest)).
    { apply ask_float_inv. exists l6. split; [reflexivity |].
      destruct T6 as [[Hs ->] | [Hs Hf]]; [left | right]; tauto. }
    rewrite H6. unfold io_bind at 1, input.
    destruct T7 as [[Hs ->] | (m & [Hs Hf] & ->)].
    + rewrite Hs. reflexivity.
    + destruct (strip l7) as [| c t]; [contradiction |].
      unfold io_bind, io_lift. rewrite Hf. reflexivity.
Qed.

End ReadInputs.

Section MainProperties.

Variable py_float : ustr -> res R.
Variables LABEL RST : ustr.

Lemma ask_float_blank (prompt : ustr) (default : option R)
    (l : ustr) (rest : stdin) :
  forallb py_isspace l = true ->
  ask_float py_float prompt default (l :: rest) =
  match default with
  | None => Failed (Py ValueError)
  | Some d => Got d rest
  end.
Proof.
  intros H. unfold ask_float, io_bind, input.
  rewrite (strip_blank l H). destruct default; reflexivity.
Qed.

Lemma ask_float_text (prompt : ustr) (default : option R)
    (l : ustr) (rest : stdin) :
  forallb py_isspace l = false ->
  ask_float py_float prompt default (l :: rest) =
  match py_float (strip l) with
  | Ok x => Got x rest
  | Raise e => Failed (Py e)
  end.
Proof.
  intros H. unfold ask_float, io_bind, input.
  destruct (strip l) as [| c t] eqn:Hs.
  - apply strip_nil_iff in Hs. congruence.
  - reflexivity.
Qed.

Lemma ask_float_padding (prompt : ustr) (default : option R)
    (ws1 s ws2 : ustr) (rest : stdin) :
  forallb py_isspace ws1 = true -> forallb py_isspace ws2 = true ->
  ask_float py_float prompt default ((ws1 ++ s ++ ws2) :: rest) =
  ask_float py_float prompt default (s :: rest).
Proof.
  intros H1 H2. unfold ask_float, io_bind, input.
  rewrite (strip_padding ws1 s ws2 H1 H2). reflexivity.
Qed.

Lemma main_ran_inv (brentq : solver) (inp : stdin) (o : outcome) :
  main py_float LABEL RST brentq inp = Ran o ->
  exists (i : inputs) (rest : stdin),
    read_inputs py_float LABEL RST inp = Got i rest /\
    o = script brentq (in_S i) (in_K i) (in_T_days i) (in_r i)
          (in_vol i) (in_q i) (in_mkt_price i).
Proof.
  unfold main.
  destruct (read_inputs py_float LABEL RST inp) as [i rest | e];
    [| discriminate].
  intros H. injection H as <-. exists i, rest. split; reflexivity.
Qed.

Lemma main_not_ran (brentq : solver) (inp : stdin) :
  (forall o : outcome, main py_float LABEL RST brentq inp <> Ran o) ->
  exists e : input_exn, main py_float LABEL RST brentq inp = InputError e.
Proof.
  intros H. destruct (main py_float LABEL RST brentq inp) as [e | o].
  - exists e. reflexivity.
  - exfalso. exact (H o eq_refl).
Qed.

Lemma main_short_input (brentq : solver) (inp : stdin) :
  (length inp < 7)%nat ->
  exists e : input_exn, main py_float LABEL RST brentq inp = InputError e.
Proof.
  intros Hlen. apply main_not_ran. intros o Ho.
  apply main_ran_inv in Ho. destruct Ho as (i & rest & Hr & _).
  apply read_inputs_spec in Hr.
  destruct Hr as (l1 & l2 & l3 & l4 & l5 & l6 & l7 & -> & _).
  cbn in Hlen. lia.
Qed.

Lemma main_blank_required (brentq : solver) (inp : stdin)
    (k : nat) (l : ustr) :
  (k < 5)%nat -> nth_error inp k = Some l ->
  forallb py_isspace l = true ->
  exists e : input_exn, main py_float LABEL RST brentq inp = InputError e.
Proof.
  intros Hk Hnth Hblank. apply main_not_ran. intros o Ho.
  apply main_ran_inv in Ho. destruct Ho as (i & rest & Hr & _).
  apply read_inputs_spec in Hr.
  destruct Hr as (l1 & l2 & l3 & l4 & l5 & l6 & l7 & -> &
                  [T1 _] & [T2 _] & [T3 _] & [T4 _] & [T5 _] & _).
  apply strip_blank in Hblank.
  destruct k as [| [| [| [| [| k]]]]]; cbn in Hnth;
    try (injection Hnth as ->; contradiction).
  lia.
Qed.

Lemma main_displayed_inv (brentq : solver) (inp : stdin)
    (g : greeks_result) (iv : option (pyfloat * pyfloat)) :
  main py_float LABEL RST brentq inp = Ran (Displayed g iv) ->
  exists (l1 l2 l3 l4 l5 l6 l7 : ustr) (rest : stdin)
         (S K T_days r vol q : R),
    inp = l1 :: l2 :: l3 :: l4 :: l5 :: l6 :: l7 :: rest /\
    typed py_float l1 S /\ typed py_float l2 K /\
    typed py_float l3 T_days /\ typed py_float l4 r /\
    typed py_float l5 vol /\
    ((strip l6 = [] /\ q = 0.0) \/ typed py_float l6 q) /\
    greeks S K (T_days / 365.0) r q vol = Ok g /\
    (iv = None <-> forallb py_isspace l7 = true).
Proof.
  intros H. apply main_ran_inv in H. destruct H as (i & rest & Hr & Ho).
  apply read_inputs_spec in Hr.
  destruct Hr as (l1 & l2 & l3 & l4 & l5 & l6 & l7 & -> &
                  T1 & T2 & T3 & T4 & T5 & T6 & T7).
  symmetry in Ho. apply script_displayed_inv in Ho.
  destruct Ho as (Hg & Hiv).
  exists l1, l2, l3, l4, l5, l6, l7, rest,
         (in_S i), (in_K i), (in_T_days i), (in_r i), (in_vol i), (in_q i).
  repeat (split; [first [reflexivity | assumption] |]).
  rewrite <- strip_nil_iff.
  destruct T7 as [[Hs Hm] | (m & [Hs Hf] & Hm)]; rewrite Hm in Hiv.
  - tauto.
  - destruct Hiv as (c & p & -> & _). split; [discriminate | contradiction].
Qed.

End MainProperties.

(** ** Rounding to binary64 *)

Lemma pow2_pos (e : Z) : 0 < pow2 e.
Proof. apply powerRZ_lt. lra. Qed.

Lemma pow2_add (a b : Z) : pow2 (a + b) = pow2 a * pow2 b.
Proof. apply powerRZ_add. lra. Qed.

Lemma pow2_opp (a : Z) : pow2 (- a) = / pow2 a.
Proof. apply powerRZ_neg'. Qed.

Lemma pow2_0 : pow2 0 = 1.
Proof. reflexivity. Qed.

Lemma pow2_1 : pow2 1 = 2.
Proof. unfold pow2. simpl. lra. Qed.

Lemma pow2_m1 : pow2 (-1) = / 2.
Proof. unfold pow2. simpl. lra. Qed.

Lemma pow2_ge_1 (n : Z) : (0 <= n)%Z -> 1 <= pow2 n.
Proof.
  intros Hn. unfold pow2. destruct n as [| p | p]; [simpl; lra | | lia].
  simpl. apply pow_R1_Rle. lra.
Qed.

Lemma pow2_le (a b : Z) : (a <= b)%Z -> pow2 a <= pow2 b.
Proof.
  intros Hab. replace b with (a + (b - a))%Z by lia. rewrite pow2_add.
  pose proof (pow2_pos a). pose proof (pow2_ge_1 (b - a) ltac:(lia)). nra.
Qed.

Lemma pow2_lt_inv (a b : Z) : pow2 a < pow2 b -> (a < b)%Z.
Proof.
  intros H. destruct (Z_lt_le_dec a b) as [Hlt | Hle]; [exact Hlt |].
  pose proof (pow2_le b a Hle). lra.
Qed.

Lemma IZR_pow2 (n : Z) : (0 <= n)%Z -> IZR (2 ^ n) = pow2 n.
Proof.
  intros Hn. unfold pow2.
  rewrite <- (Z2Nat.id n Hn) at 2. rewrite <- pow_powerRZ.
  rewrite <- (Z2Nat.id n Hn) at 1. rewrite <- pow_IZR. reflexivity.
Qed.

Lemma ln_2_pos : 0 < ln 2.
Proof. rewrite <- ln_1. apply ln_increasing; lra. Qed.

Lemma ln_2_le_1 : ln 2 <= 1.
Proof.
  pose proof (exp_ineq1 1 ltac:(lra)) as He.
  destruct (Rle_dec (ln 2) 1) as [H | H]; [exact H |].
  apply Rnot_le_lt in H. apply exp_increasing in H.
  rewrite exp_ln in H by lra. lra.
Qed.

Lemma pow2_exp (e : Z) : pow2 e = exp (IZR e * ln 2).
Proof. unfold pow2. rewrite powerRZ_Rpower by lra. reflexivity. Qed.

Lemma ilog2_bounds (x : R) :
  x <> 0 -> pow2 (ilog2 x) <= Rabs x < pow2 (ilog2 x + 1).
Proof.
  intros Hx. pose proof (Rabs_pos_lt x Hx) as Hpos.
  pose proof ln_2_pos as H2.
  unfold ilog2. set (r := ln (Rabs x) / ln 2).
  destruct (base_Int_part r) as [Hlo Hhi].
  assert (Hr : Rabs x = exp (r * ln 2)).
  { replace (r * ln 2) with (ln (Rabs x)) by (unfold r; field; lra).
    symmetry. apply exp_ln. exact Hpos. }
  rewrite !pow2_exp, plus_IZR.
  clearbody r. rewrite Hr. split.
  - destruct Hlo as [Hlt | Heq].
    + left. apply exp_increasing. nra.
    + right. rewrite Heq. reflexivity.
  - apply exp_increasing. nra.
Qed.

Lemma ilog2_spec (x : R) (k : Z) :
  pow2 k <= Rabs x < pow2 (k + 1) -> ilog2 x = k.
Proof.
  intros [Hlo Hhi].
  assert (Hx : x <> 0).
  { intros ->. rewrite Rabs_R0 in Hlo. pose proof (pow2_pos k). lra. }
  destruct (ilog2_bounds x Hx) as [Blo Bhi].
  assert (H1 : (ilog2 x < k + 1)%Z) by (apply pow2_lt_inv; lra).
  assert (H2 : (k < ilog2 x + 1)%Z) by (apply pow2_lt_inv; lra).
  lia.
Qed.

Lemma Znearest_even_error (t : R) :
  Rabs (IZR (Znearest_even t) - t) <= / 2.
Proof.
  unfold Znearest_even. cbv zeta.
  destruct (base_Int_part t) as [Hlo Hhi].
  destruct (Rlt_dec (t - IZR (Int_part t)) (/ 2)) as [H | H].
  - apply Rabs_le. lra.
  - destruct (Rlt_dec (/ 2) (t - IZR (Int_part t))) as [H' | H'].
    + rewrite plus_IZR. apply Rabs_le. lra.
    + destruct (Z.even (Int_part t)).
      * apply Rabs_le. lra.
      * rewrite plus_IZR. apply Rabs_le. lra.
Qed.

Lemma Znearest_even_near (t : R) (n : Z) :
  IZR n - / 2 < t < IZR n + / 2 -> Znearest_even t = n.
Proof.
  intros [Hlo Hhi]. unfold Znearest_even. cbv zeta.
  destruct (base_Int_part t) as [Blo Bhi].
  set (k := Int_part t) in *.
  assert (Hk1 : (k <= n)%Z).
  { apply Z.lt_succ_r. apply lt_IZR. rewrite succ_IZR. lra. }
  assert (Hk2 : (n - 1 <= k)%Z).
  { apply Z.lt_succ_r. apply lt_IZR. rewrite succ_IZR, minus_IZR. lra. }
  assert (Hk : k = n \/ k = (n - 1)%Z) by lia.
  destruct Hk as [-> | ->].
  - destruct (Rlt_dec (t - IZR n) (/ 2)) as [_ | H]; [reflexivity | lra].
  - rewrite minus_IZR in *.
    destruct (Rlt_dec (t - (IZR n - 1)) (/ 2)) as [H | _]; [lra |].
    destruct (Rlt_dec (/ 2) (t - (IZR n - 1))) as [_ | H]; [lia | lra].
Qed.

Lemma Znearest_even_IZR (n : Z) : Znearest_even (IZR n) = n.
Proof. apply Znearest_even_near. lra. Qed.

(** A number with at most 53 significant bits above the least exponent is
    a binary64 number. *)
Lemma binary64_exact (m j : Z) :
  (Z.abs m < 2 ^ 53)%Z -> (-1074 <= j)%Z ->
  binary64 (IZR m * pow2 j) = IZR m * pow2 j.
Proof.
  intros Hm Hj. unfold binary64.
  destruct (Req_dec_T (IZR m * pow2 j) 0) as [H0 | H0]; [symmetry; exact H0 |].
  cbv zeta. set (x := IZR m * pow2 j) in *.
  set (c := Z.max (ilog2 x - 52) (-1074)).
  destruct (ilog2_bounds x H0) as [Blo _].
  assert (Habs : Rabs x < pow2 (53 + j)).
  { unfold x. rewrite Rabs_mult, (Rabs_pos_eq (pow2 j)), pow2_add
      by (left; apply pow2_pos).
    apply Rmult_lt_compat_r; [apply pow2_pos |].
    rewrite <- abs_IZR, <- IZR_pow2 by lia. apply IZR_lt. exact Hm. }
  assert (He : (ilog2 x < 53 + j)%Z) by (apply pow2_lt_inv; lra).
  assert (Hc : (c <= j)%Z) by (unfold c; lia).
  assert (Ht : x * pow2 (- c) = IZR (m * 2 ^ (j - c))).
  { unfold x. rewrite mult_IZR, IZR_pow2 by lia.
    replace (j - c)%Z with (j + - c)%Z by lia. rewrite pow2_add. ring. }
  rewrite Ht, Znearest_even_IZR, mult_IZR, IZR_pow2 by lia.
  unfold x. replace j with ((j - c) + c)%Z at 2 by lia. rewrite pow2_add. ring.
Qed.

(** In the normal range rounding changes a number by at most [2^-53] of
    itself. *)
Lemma binary64_error (x : R) :
  pow2 (-1022) <= Rabs x ->
  Rabs (binary64 x - x) <= pow2 (-53) * Rabs x.
Proof.
  intros Hx.
  assert (H0 : x <> 0).
  { intros ->. rewrite Rabs_R0 in Hx. pose proof (pow2_pos (-1022)). lra. }
  unfold binary64. destruct (Req_dec_T x 0) as [H | _]; [contradiction |].
  cbv zeta. destruct (ilog2_bounds x H0) as [Blo Bhi].
  assert (He : (-1022 < ilog2 x + 1)%Z) by (apply pow2_lt_inv; lra).
  replace (Z.max (ilog2 x - 52) (-1074)) with (ilog2 x - 52)%Z by lia.
  set (c := (ilog2 x - 52)%Z).
  pose proof (Znearest_even_error (x * pow2 (- c))) as Herr.
  pose proof (pow2_pos c) as Hc.
  replace (IZR (Znearest_even (x * pow2 (- c))) * pow2 c - x)
    with ((IZR (Znearest_even (x * pow2 (- c))) - x * pow2 (- c)) * pow2 c)
    by (rewrite pow2_opp; field; lra).
  rewrite Rabs_mult, (Rabs_pos_eq (pow2 c)) by lra.
  assert (Hhalf : / 2 * pow2 c = pow2 (-53) * pow2 (ilog2 x)).
  { unfold c. replace (ilog2 x - 52)%Z with (-53 + 1 + ilog2 x)%Z by lia.
    rewrite !pow2_add, pow2_1. field. }
  pose proof (pow2_pos (-53)).
  apply Rle_trans with (/ 2 * pow2 c); [nra |].
  rewrite Hhalf. nra.
Qed.

(** Just below 1 every number rounds to 1: this is where [norm.cdf]
    saturates. *)
Lemma binary64_one (x : R) :
  1 - pow2 (-55) <= x <= 1 -> binary64 x = 1.
Proof.
  intros [Hlo Hhi].
  destruct (Req_dec_T x 1) as [-> | Hne].
  { replace 1 with (IZR 1 * pow2 0) by (rewrite pow2_0; lra).
    apply binary64_exact; lia. }
  assert (H55 : pow2 (-55) = / 4 * pow2 (-53)).
  { replace (-55)%Z with (-1 + -1 + -53)%Z by lia.
    rewrite !pow2_add, pow2_m1. field. }
  assert (H53 : pow2 (-53) <= / 2).
  { rewrite <- pow2_m1. apply pow2_le. lia. }
  pose proof (pow2_pos (-53)) as Hp.
  assert (Hx : 0 < x) by lra.
  assert (He : ilog2 x = (-1)%Z).
  { apply ilog2_spec. rewrite Rabs_pos_eq by lra.
    replace (-1 + 1)%Z with 0%Z by lia. rewrite pow2_0, pow2_m1. lra. }
  unfold binary64. destruct (Req_dec_T x 0) as [H | _]; [lra |].
  cbv zeta. rewrite He.
  replace (Z.max (-1 - 52) (-1074)) with (-53)%Z by lia.
  replace (- -53)%Z with 53%Z by lia.
  assert (Hinv : pow2 53 * pow2 (-53) = 1).
  { rewrite <- pow2_add. replace (53 + -53)%Z with 0%Z by lia. apply pow2_0. }
  pose proof (pow2_pos 53) as Hp53.
  rewrite (Znearest_even_near (x * pow2 53) (2 ^ 53)).
  - rewrite IZR_pow2 by lia. exact Hinv.
  - rewrite IZR_pow2 by lia. split; nra.
Qed.

Lemma binary64_0 : binary64 0 = 0.
Proof. unfold binary64. destruct (Req_dec_T 0 0); [reflexivity | contradiction]. Qed.


(** With no rounding these are the functions of Part I. *)
Lemma d1_d2_r_exact (S K T r q vol : R) :
  d1_d2_r (fun x => x) S K T r q vol = d1_d2 S K T r q vol.
Proof. reflexivity. Qed.

Lemma bs_price_r_exact (S K T r q vol : R) (opt_type : string) :
  bs_price_r (fun x => x) S K T r q vol opt_type
  = bs_price S K T r q vol opt_type.
Proof. reflexivity. Qed.

Lemma implied_vol_r_exact (brentq : solver)
    (m S K T r q : R) (opt_type : string) :
  implied_vol_r (fun x => x) brentq m S K T r q opt_type
  = implied_vol brentq m S K T r q opt_type.
Proof. reflexivity. Qed.

(** ** Evaluation in double precision *)

Lemma binary64_IZR (m : Z) :
  (Z.abs m < 2 ^ 53)%Z -> binary64 (IZR m) = IZR m.
Proof.
  intros Hm. rewrite <- (Rmult_1_r (IZR m)), <- pow2_0.
  apply binary64_exact; [exact Hm | lia].
Qed.

Lemma binary64_nonneg (x : R) : 0 <= x -> 0 <= binary64 x.
Proof.
  intros Hx. unfold binary64.
  destruct (Req_dec_T x 0) as [_ | H0]; [lra |]. cbv zeta.
  set (c := Z.max (ilog2 x - 52) (-1074)).
  pose proof (pow2_pos c) as Hc. pose proof (pow2_pos (- c)) as Hc'.
  set (t := x * pow2 (- c)).
  assert (Ht : 0 <= t) by (unfold t; nra).
  assert (Hn : (0 <= Znearest_even t)%Z).
  { unfold Znearest_even. cbv zeta.
    destruct (base_Int_part t) as [Blo Bhi].
    assert (Hk : (0 <= Int_part t)%Z).
    { apply Z.lt_succ_r. apply lt_IZR. rewrite succ_IZR. lra. }
    destruct (Rlt_dec _ _); [exact Hk |].
    destruct (Rlt_dec _ _); [lia |].
    destruct (Z.even _); lia. }
  apply IZR_le in Hn. nra.
Qed.

Lemma eps_small : 0 < pow2 (-53) <= / 1024.
Proof.
  split; [apply pow2_pos |].
  apply Rle_trans with (pow2 (-10)); [apply pow2_le; lia |].
  unfold pow2. simpl. lra.
Qed.

Lemma tiny_small : pow2 (-1022) <= / 1048576.
Proof.
  apply Rle_trans with (pow2 (-20)); [apply pow2_le; lia |].
  unfold pow2. simpl. lra.
Qed.

Lemma Rabs_bounds (a b : R) : Rabs a <= b -> - b <= a <= b.
Proof. unfold Rabs. destruct (Rcase_abs a); lra. Qed.

Lemma binary64_lower (x y : R) :
  pow2 (-1022) <= y -> y <= x -> 1023 / 1024 * y <= binary64 x.
Proof.
  intros Hy Hyx. pose proof (pow2_pos (-1022)) as Hp.
  pose proof eps_small as [He1 He2].
  pose proof (binary64_error x) as Herr.
  rewrite (Rabs_pos_eq x) in Herr by lra. specialize (Herr ltac:(lra)).
  apply Rabs_bounds in Herr. nra.
Qed.

Lemma binary64_upper (x y : R) :
  pow2 (-1022) <= x -> x <= y -> binary64 x <= 1025 / 1024 * y.
Proof.
  intros Hx Hxy. pose proof (pow2_pos (-1022)) as Hp.
  pose proof eps_small as [He1 He2].
  pose proof (binary64_error x) as Herr.
  rewrite (Rabs_pos_eq x) in Herr by lra. specialize (Herr ltac:(lra)).
  apply Rabs_bounds in Herr. nra.
Qed.

Lemma ln_2_ge_half : / 2 <= ln 2.
Proof.
  pose proof (exp_ineq1_le (- / 2)) as He.
  destruct (Rle_dec (/ 2) (ln 2)) as [H | H]; [exact H |].
  apply Rnot_le_lt in H. apply exp_increasing in H.
  rewrite exp_ln in H by lra.
  pose proof (exp_pos (/ 2)) as Hp.
  assert (Hinv : exp (/ 2) * exp (- / 2) = 1)
    by (rewrite <- exp_plus; replace (/ 2 + - / 2) with 0 by lra; apply exp_0).
  nra.
Qed.

(** From 12 standard deviations on [norm.cdf] is 1.0 in double
    precision. *)
Lemma norm_cdf_saturates (d : R) :
  12 <= d -> binary64 (norm_cdf d) = 1.
Proof.
  intros Hd. apply binary64_one.
  pose proof (norm_cdf_bounds d) as [_ Hlt].
  split; [| lra].
  pose proof (norm_cdf_tail d ltac:(lra)) as Htail.
  rewrite norm_cdf_opp in Htail.
  assert (Hexp : exp (- (d * d) / 2) <= pow2 (-54)).
  { rewrite pow2_exp. apply exp_le_mono.
    pose proof ln_2_le_1. pose proof ln_2_pos.
    replace (IZR (-54)) with (-54) by reflexivity. nra. }
  assert (H55 : pow2 (-54) = 2 * pow2 (-55)).
  { replace (-54)%Z with (1 + -55)%Z by lia. rewrite pow2_add, pow2_1. ring. }
  lra.
Qed.

(** A deep in-the-money call at a small volatility: both distribution
    values are 1.0 and the price is the intrinsic value exactly. *)
Lemma bs_price_r_saturated (vol : R) :
  pow2 (-1022) <= vol -> vol <= / 32 ->
  bs_price_r binary64 100 50 1 0 0 vol "call" = Ok 50.
Proof.
  intros Hlo Hhi. pose proof (pow2_pos (-1022)) as Hp.
  pose proof tiny_small as Htiny.
  unfold bs_price_r, d1_d2_r.
  unfold sqrt_r. destruct (Rlt_dec 1 0) as [H | _]; [lra |].
  rewrite sqrt_1, (binary64_IZR 1) by lia. cbn [bind].
  unfold div_r at 1. destruct (Req_dec_T 50 0) as [H | _]; [lra |].
  replace (100 / 50) with 2 by lra. rewrite (binary64_IZR 2) by lia.
  cbn [bind].
  unfold log_r. destruct (Rle_dec 2 0) as [H | _]; [lra |]. cbn [bind].
  replace (0 - 0) with 0 by lra. rewrite binary64_0, Rplus_0_l.
  rewrite !Rmult_1_r.
  set (L := binary64 (ln 2)).
  set (w := binary64 (binary64 (binary64 (binary64 (0.5 * vol) * vol)))).
  set (den := binary64 vol).
  assert (HL : 0.49 <= L).
  { pose proof (binary64_lower (ln 2) (/ 2) ltac:(lra) ln_2_ge_half).
    unfold L. lra. }
  assert (Hw : 0 <= w).
  { unfold w. repeat apply binary64_nonneg.
    apply Rmult_le_pos; [| lra]. apply binary64_nonneg. lra. }
  assert (Hden : 0 < den <= 0.032).
  { unfold den. split.
    - pose proof (binary64_lower vol vol Hlo ltac:(lra)). lra.
    - pose proof (binary64_upper vol (/ 32) Hlo Hhi). lra. }
  set (num := binary64 (L + w)).
  assert (Hnum : 0.48 <= num).
  { pose proof (binary64_lower (L + w) 0.49 ltac:(lra) ltac:(lra)).
    unfold num. lra. }
  unfold div_r. destruct (Req_dec_T den 0) as [H | _]; [lra |].
  cbn [bind].
  assert (Hq : 15 <= num / den).
  { apply Rmult_le_reg_r with den; [lra |].
    replace (num / den * den) with num by (field; lra). lra. }
  set (d1 := binary64 (num / den)).
  assert (Hd1 : 14 <= d1).
  { pose proof (binary64_lower (num / den) 15 ltac:(lra) Hq). unfold d1. lra. }
  set (d2 := binary64 (d1 - den)).
  assert (Hd2 : 12 <= d2).
  { pose proof (binary64_lower (d1 - den) 13 ltac:(lra) ltac:(lra)).
    unfold d2. lra. }
  rewrite Ropp_0.
  unfold exp_r, cdf_r. rewrite binary64_0, exp_0, (binary64_IZR 1) by lia.
  rewrite (norm_cdf_saturates d1) by lra.
  rewrite (norm_cdf_saturates d2) by lra.
  change (startswith (lower "call") "c") with true. cbv iota.
  rewrite !Rmult_1_r.
  rewrite (binary64_IZR 100), (binary64_IZR 50) by lia.
  rewrite (binary64_IZR 100), (binary64_IZR 50) by lia.
  replace (100 - 50) with 50 by lra.
  rewrite (binary64_IZR 50) by lia. reflexivity.
Qed.

Lemma binary64_sigma_lo : pow2 (-1022) <= binary64 sigma_lo <= / 32.
Proof.
  pose proof tiny_small as Htiny. pose proof (pow2_pos (-1022)) as Hp.
  unfold sigma_lo.
  pose proof (binary64_lower 1e-6 1e-6 ltac:(lra) ltac:(lra)).
  pose proof (binary64_upper 1e-6 1e-6 ltac:(lra) ltac:(lra)).
  split; lra.
Qed.

Lemma binary64_sigma_hi : binary64 sigma_hi = 5.
Proof.
  unfold sigma_hi. replace 5.0 with (IZR 5) by lra.
  apply binary64_IZR. lia.
Qed.

Lemma bs_price_r_at_hi :
  exists p : R, bs_price_r binary64 100 50 1 0 0 5 "call" = Ok p.
Proof.
  unfold bs_price_r, d1_d2_r.
  unfold sqrt_r. destruct (Rlt_dec 1 0) as [H | _]; [lra |].
  rewrite sqrt_1, (binary64_IZR 1) by lia. cbn [bind].
  unfold div_r at 1. destruct (Req_dec_T 50 0) as [H | _]; [lra |].
  replace (100 / 50) with 2 by lra. rewrite (binary64_IZR 2) by lia.
  cbn [bind].
  unfold log_r. destruct (Rle_dec 2 0) as [H | _]; [lra |]. cbn [bind].
  rewrite (Rmult_1_r 5), (binary64_IZR 5) by lia.
  unfold div_r. destruct (Req_dec_T 5 0) as [H | _]; [lra |]. cbn [bind].
  eexists. reflexivity.
Qed.

(** ** Numeric bounds on the normal distribution function *)




(** ** The reference solver and the first evaluations *)

Lemma bisect_root_at_end : brentq_root_at_end bisect.
Proof.
  intros f a b maxiter xtol fb Ha Hb. unfold bisect.
  rewrite Ha, Hb. cbn [bind].
  destruct (Req_dec_T 0 0) as [_ | H]; [reflexivity | contradiction].
Qed.

Lemma bisect_propagates : brentq_propagates bisect.
Proof.
  intros f a b maxiter xtol e Ha. unfold bisect. rewrite Ha. reflexivity.
Qed.

Lemma bs_price_raises_expired (S K T r q vol : R) (opt_type : string) :
  T <= 0 -> exists e : exn, bs_price S K T r q vol opt_type = Raise e.
Proof.
  intros HT. rewrite bs_price_raises by lra. eexists. reflexivity.
Qed.

Lemma implied_vol_expired (brentq : solver) (m S K T r q : R)
    (c : ascii) (rest : string) :
  brentq_propagates brentq -> T <= 0 ->
  implied_vol brentq m S K T r q (String c rest) = Ok NaN.
Proof.
  intros Hprop HT. rewrite implied_vol_unfold.
  destruct (Rlt_dec m (discounted_intrinsic S K T r q (classify c)));
    [reflexivity |].
  destruct (bs_price_raises_expired S K T r q sigma_lo
              (opt_name (classify c)) HT) as [e He].
  rewrite (Hprop _ sigma_lo sigma_hi iv_maxiter iv_xtol e).
  - reflexivity.
  - unfold objective. rewrite He. reflexivity.
Qed.

(** The quote 50 is the double-precision price at every volatility up to
    1/32; the search is answered at once with the lower end of the
    bracket. *)
Lemma implied_vol_r_saturated (brentq : solver) :
  brentq_root_at_end brentq ->
  implied_vol_r binary64 brentq 50 100 50 1 0 0 "call"
  = Ok (Fin (binary64 sigma_lo)).
Proof.
  intros Hend.
  assert (Ha : objective_r binary64 50 100 50 1 0 0 "call" (binary64 sigma_lo)
               = Ok 0).
  { unfold objective_r.
    destruct binary64_sigma_lo as [Hlo Hhi].
    rewrite (bs_price_r_saturated _ Hlo Hhi). cbn [bind].
    replace (50 - 50) with 0 by lra. rewrite binary64_0. reflexivity. }
  assert (Hb : exists fb : R,
             objective_r binary64 50 100 50 1 0 0 "call" (binary64 sigma_hi)
             = Ok fb).
  { rewrite binary64_sigma_hi. unfold objective_r.
    destruct bs_price_r_at_hi as [p Hp]. rewrite Hp. cbn [bind].
    eexists. reflexivity. }
  destruct Hb as [fb Hb].
  unfold implied_vol_r. cbn [index0 bind]. cbv zeta.
  unfold exp_r. replace (- 0 * 1) with 0 by lra.
  rewrite binary64_0, exp_0, (binary64_IZR 1) by lia.
  unfold intrinsic_of_r.
  change (String.eqb (lower "c") "c") with true. cbv iota.
  rewrite !Rmult_1_r.
  rewrite (binary64_IZR 100), (binary64_IZR 50) by lia.
  replace (100 - 50) with 50 by lra. rewrite (binary64_IZR 50) by lia.
  unfold py_max. destruct (Rlt_dec 0.0 50) as [_ | H]; [| lra].
  destruct (Rlt_dec 50 50) as [H | _]; [lra |].
  rewrite (Hend _ _ _ _ _ fb Ha Hb). reflexivity.
Qed.

(** ** Bounds of the exponential from its series *)



(** ** The parity difference of a near-forward quote, on the grid of doubles

    The quote: [S = K = 100], [T = 1], [q = 1/16], [r = 1/16 + 2^-34],
    [sigma = 9/32], all of them binary64 numbers. *)





(** ** Rounding of numbers between known bounds *)








(** ** The near-forward quote in double precision *)





(** * Part IV.  The specification, statement by statement *)

(** C1.  For every input with S > 0, K > 0, T > 0 and sigma > 0 the price
    operation returns the closed-form Black-Scholes-Merton value:
    [S*exp(-q*T)*Phi(d1) - K*exp(-r*T)*Phi(d2)] for a call and
    [K*exp(-r*T)*Phi(-d2) - S*exp(-q*T)*Phi(-d1)] for a put, with
    [d1 = (ln(S/K) + (r - q + 0.5*sigma^2)*T) / (sigma*sqrt(T))] and
    [d2 = d1 - sigma*sqrt(T)]. *)
Theorem C1_bs_price_closed_form (S K T r q sigma : R) :
  0 < S -> 0 < K -> 0 < T -> 0 < sigma ->
  let d1 := (ln (S / K) + (r - q + 0.5 * sigma ^ 2) * T) / (sigma * sqrt T) in
  let d2 := d1 - sigma * sqrt T in
  bs_price S K T r q sigma "call" =
    Ok (S * exp (- (q * T)) * norm_cdf d1 - K * exp (- (r * T)) * norm_cdf d2) /\
  bs_price S K T r q sigma "put" =
    Ok (K * exp (- (r * T)) * norm_cdf (- d2)
        - S * exp (- (q * T)) * norm_cdf (- d1)).
Proof.
  intros HS HK HT Hsig d1 d2. split.
  - exact (bs_price_valid S K T r q sigma HS HK HT Hsig Call).
  - exact (bs_price_valid S K T r q sigma HS HK HT Hsig Put).
Qed.

Lemma C1_witness :
  let d1 := (ln (100 / 100) + (0.05 - 0 + 0.5 * 0.2 ^ 2) * 1) / (0.2 * sqrt 1) in
  let d2 := d1 - 0.2 * sqrt 1 in
  bs_price 100 100 1 0.05 0 0.2 "call" =
    Ok (100 * exp (- (0 * 1)) * norm_cdf d1
        - 100 * exp (- (0.05 * 1)) * norm_cdf d2) /\
  bs_price 100 100 1 0.05 0 0.2 "put" =
    Ok (100 * exp (- (0.05 * 1)) * norm_cdf (- d2)
        - 100 * exp (- (0 * 1)) * norm_cdf (- d1)).
Proof.
  apply (C1_bs_price_closed_form 100 100 1 0.05 0 0.2); lra.
Defined.




(** C3.  For every implied-volatility query whose market price is strictly
    below the discounted intrinsic value ([max(0, S*exp(-q*T) - K*exp(-r*T))]
    for a call, [max(0, K*exp(-r*T) - S*exp(-q*T))] for a put) the solver
    returns the failure value at once: whatever the root-finder, it is not
    consulted and no numeric volatility comes back. *)
Theorem C3_below_intrinsic_rejected (brentq : solver)
    (price_mkt S K T r q : R) (c : ascii) (rest : string) :
  price_mkt < discounted_intrinsic S K T r q (classify c) ->
  implied_vol brentq price_mkt S K T r q (String c rest) = Ok NaN.
Proof.
  intros Hbelow. rewrite implied_vol_unfold.
  destruct (Rlt_dec price_mkt (discounted_intrinsic S K T r q (classify c)));
    [reflexivity | contradiction].
Qed.

Lemma C3_witness :
  10 < Rmax 0 (100 * exp (- (0 * 1)) - 50 * exp (- (0 * 1))) /\
  implied_vol bisect 10 100 50 1 0 0 "call" = Ok NaN.
Proof.
  split.
  - exact below_parity_quote.
  - apply (C3_below_intrinsic_rejected bisect 10 100 50 1 0 0 "c" "all").
    exact below_parity_quote.
Defined.

(** C4, as the code has it.  Both failures are reported by the same value,
    [float("nan")]: a market price below the intrinsic value yields NaN and
    a search that raises yields NaN.  A caller tells either failure from a
    successful result with [math.isnan], since a numeric result is what the
    search returned, but cannot tell the two failures apart. *)
Theorem C4_failures_reported_as_nan (brentq : solver)
    (price_mkt S K T r q : R) (c : ascii) (rest : string) :
  let intrinsic := discounted_intrinsic S K T r q (classify c) in
  let search :=
    brentq (objective price_mkt S K T r q (opt_name (classify c)))
      sigma_lo sigma_hi iv_maxiter iv_xtol in
  let out := implied_vol brentq price_mkt S K T r q (String c rest) in
  (price_mkt < intrinsic -> out = Ok NaN) /\
  (forall e : exn,
     ~ price_mkt < intrinsic -> search = Raise e -> out = Ok NaN) /\
  (forall x : R, out = Ok (Fin x) ->
     math_isnan (Fin x) = false /\ ~ price_mkt < intrinsic /\ search = Ok x).
Proof.
  intros intrinsic search out. subst intrinsic search out.
  rewrite implied_vol_unfold.
  destruct (Rlt_dec price_mkt (discounted_intrinsic S K T r q (classify c)))
    as [Hb | Hnb].
  - split; [reflexivity |]. split; [intros e Hn; contradiction |].
    intros x Hx. discriminate.
  - split; [intros Hb; contradiction |]. split.
    + intros e _ Hraise. rewrite Hraise. reflexivity.
    + intros x Hx.
      destruct (brentq _ _ _ _ _) as [y | e]; [| discriminate].
      injection Hx as ->. repeat split. exact Hnb.
Qed.

Lemma C4_witness :
  implied_vol bisect 10 100 50 1 0 0 "call" = Ok NaN /\
  implied_vol bisect quote_above_bracket 100 100 1 0 0 "call" = Ok NaN /\
  math_isnan (Fin sigma_lo) = false.
Proof.
  split; [| split].
  - apply (proj1 (C4_failures_reported_as_nan bisect 10 100 50 1 0 0 "c" "all")).
    exact below_parity_quote.
  - apply (proj1 (proj2 (C4_failures_reported_as_nan bisect
                           quote_above_bracket 100 100 1 0 0 "c" "all"))
             ValueError).
    + exact quote_above_bracket_not_below.
    + apply quote_above_bracket_refused. exact bisect_sign_check.
  - apply (proj2 (proj2 (C4_failures_reported_as_nan bisect
                           quote_at_lo 100 100 1 0 0 "c" "all")) sigma_lo).
    exact implied_vol_quote_at_lo.
Defined.

(** C4, against the statement as the specification has it.  A call quoted at 10 with S = 100,
    K = 50, T = 1, r = q = 0 is below its intrinsic value 50; a call quoted
    at its own 600%-volatility model price with S = K = 100 is not, and the
    search over [1e-6, 5] is refused for want of a sign change.  With any
    solver meeting the contract (there is one) the two runs return the very
    same value, NaN. *)
Lemma C4_failures_indistinguishable :
  brentq_contract bisect /\
  bs_price 100 100 1 0 0 6 "call" = Ok quote_above_bracket /\
  (forall brentq : solver, brentq_contract brentq ->
     10 < discounted_intrinsic 100 50 1 0 0 Call /\
     ~ quote_above_bracket < discounted_intrinsic 100 100 1 0 0 Call /\
     brentq (objective quote_above_bracket 100 100 1 0 0 "call")
       sigma_lo sigma_hi iv_maxiter iv_xtol = Raise ValueError /\
     implied_vol brentq 10 100 50 1 0 0 "call" = Ok NaN /\
     implied_vol brentq quote_above_bracket 100 100 1 0 0 "call" = Ok NaN /\
     implied_vol brentq 10 100 50 1 0 0 "call" =
     implied_vol brentq quote_above_bracket 100 100 1 0 0 "call").
Proof.
  split; [exact bisect_contract |].
  split; [apply (bs_price_valid 100 100 1 0 0 6) with (ty := Call); lra |].
  intros brentq [_ Hsign].
  pose proof (quote_above_bracket_refused brentq Hsign) as Hraise.
  assert (HA : implied_vol brentq 10 100 50 1 0 0 "call" = Ok NaN).
  { rewrite (implied_vol_unfold brentq 10 100 50 1 0 0 "c" "all").
    change (classify "c") with Call.
    destruct (Rlt_dec 10 (discounted_intrinsic 100 50 1 0 0 Call)) as [_ | Hn];
      [reflexivity | exfalso; exact (Hn below_parity_quote)]. }
  assert (HB : implied_vol brentq quote_above_bracket 100 100 1 0 0 "call"
               = Ok NaN).
  { rewrite (implied_vol_unfold brentq quote_above_bracket
               100 100 1 0 0 "c" "all").
    change (classify "c") with Call.
    destruct (Rlt_dec quote_above_bracket
                (discounted_intrinsic 100 100 1 0 0 Call)) as [Hb | _];
      [exfalso; exact (quote_above_bracket_not_below Hb) |].
    change (opt_name Call) with "call"%string. rewrite Hraise. reflexivity. }
  split; [exact below_parity_quote |].
  split; [exact quote_above_bracket_not_below |].
  split; [exact Hraise |].
  split; [exact HA |]. split; [exact HB |].
  rewrite HA, HB. reflexivity.
Qed.

(** C5, as the code has it.  Whenever the solver returns a numeric
    (non-failure) result, that result is the root the search returned; it
    lies in the search bracket from [sigma_lo = 1e-6] to [sigma_hi = 5.0],
    ends included, which is the guarantee of [brentq] and not a check of
    [implied_vol]; when the search fails no number, in particular not 0, is
    put in its place. *)
Theorem C5_result_in_bracket (brentq : solver)
    (price_mkt S K T r q : R) (opt_type : string) :
  brentq_in_bracket brentq ->
  (forall x : R,
     implied_vol brentq price_mkt S K T r q opt_type = Ok (Fin x) ->
     1e-6 <= x <= 5.0 /\
     brentq (objective price_mkt S K T r q opt_type)
       sigma_lo sigma_hi iv_maxiter iv_xtol = Ok x) /\
  (forall e : exn,
     brentq (objective price_mkt S K T r q opt_type)
       sigma_lo sigma_hi iv_maxiter iv_xtol = Raise e ->
     forall x : R,
       implied_vol brentq price_mkt S K T r q opt_type <> Ok (Fin x)).
Proof.
  intros Hbr. unfold implied_vol.
  destruct (index0 opt_type) as [c0 | e0]; cbn [bind].
  2: { split; [intros x Hx; discriminate | intros e _ x Hx; discriminate]. }
  destruct (Rlt_dec price_mkt _) as [_ | _].
  { split; [intros x Hx; discriminate | intros e _ x Hx; discriminate]. }
  split.
  - intros x Hx.
    destruct (brentq _ _ _ _ _) as [y | e] eqn:Hrun; [| discriminate].
    injection Hx as ->. split; [| reflexivity].
    apply (Hbr _ sigma_lo sigma_hi iv_maxiter iv_xtol x) in Hrun.
    + exact Hrun.
    + pose proof sigma_bracket. lra.
  - intros e Hraise x Hx. rewrite Hraise in Hx. discriminate.
Qed.

Lemma C5_witness :
  1e-6 <= sigma_lo <= 5.0 /\
  bisect (objective quote_at_lo 100 100 1 0 0 "call")
    sigma_lo sigma_hi iv_maxiter iv_xtol = Ok sigma_lo.
Proof.
  apply (proj1 (C5_result_in_bracket bisect quote_at_lo 100 100 1 0 0 "call"
                  bisect_in_bracket) sigma_lo).
  exact implied_vol_quote_at_lo.
Defined.

(** The lower end of the bracket is itself returned.  For the quote that
    is the model price at [sigma = 1e-6] the objective vanishes there and
    the search, which looks at the ends first, returns that end: the result
    is [1e-6], not a point strictly inside the bracket.  In double
    precision the same happens for the quote 50.0 of a call with
    [S = 100], [K = 50], [T = 1], [r = q = 0]. *)
Lemma C5_bracket_end_returned :
  (forall brentq : solver,
     brentq_root_at_end brentq ->
     implied_vol brentq quote_at_lo 100 100 1 0 0 "call"
       = Ok (Fin sigma_lo) /\
     implied_vol_r binary64 brentq 50 100 50 1 0 0 "call"
       = Ok (Fin (binary64 sigma_lo))) /\
  brentq_root_at_end bisect /\
  brentq_in_bracket bisect /\
  sigma_lo = 1e-6.
Proof.
  split; [| split; [exact bisect_root_at_end |
                    split; [exact bisect_in_bracket | reflexivity]]].
  intros brentq Hend. split; [| apply implied_vol_r_saturated; exact Hend].
  pose proof sigma_lo_pos as Hlo. pose proof sigma_bracket as Hb.
  rewrite (implied_vol_unfold brentq quote_at_lo 100 100 1 0 0 "c" "all").
  change (classify "c") with Call.
  assert (Hq : 0 < quote_at_lo)
    by (unfold quote_at_lo; apply bsm_call_pos_at_forward; lra).
  rewrite atm_intrinsic.
  destruct (Rlt_dec quote_at_lo 0) as [Hbelow | _]; [lra |].
  rewrite (Hend _ sigma_lo sigma_hi iv_maxiter iv_xtol
             (bsm_price 100 100 1 0 0 sigma_hi Call - quote_at_lo)).
  - reflexivity.
  - rewrite (objective_valid 100 100 1 0 0 sigma_lo) with (ty := Call) by lra.
    f_equal. unfold quote_at_lo. ring.
  - apply (objective_valid 100 100 1 0 0 sigma_hi) with (ty := Call); lra.
Qed.

(** C6.  Greek consistency: for every valid input the gamma reported for a
    call is the gamma reported for a put, likewise the vega, and
    [delta(call) - delta(put) = exp(-q*T)]. *)
Theorem C6_greek_consistency (S K T r q sigma : R) :
  0 < S -> 0 < K -> 0 < T -> 0 < sigma ->
  exists g : greeks_result,
    greeks S K T r q sigma = Ok g /\
    res_gamma (pricing_result Call g) = res_gamma (pricing_result Put g) /\
    res_vega (pricing_result Call g) = res_vega (pricing_result Put g) /\
    delta (pricing_result Call g) - delta (pricing_result Put g)
      = exp (- (q * T)).
Proof.
  intros HS HK HT Hsig.
  pose proof (greeks_valid S K T r q sigma HS HK HT Hsig) as Hg.
  cbv zeta in Hg.
  eexists. split; [exact Hg |].
  cbn [pricing_result res_gamma res_vega delta delta_c delta_p gamma vega].
  split; [reflexivity |]. split; [reflexivity |]. ring.
Qed.

Lemma C6_witness :
  exists g : greeks_result,
    greeks 100 100 1 0.05 0.03 0.2 = Ok g /\
    res_gamma (pricing_result Call g) = res_gamma (pricing_result Put g) /\
    res_vega (pricing_result Call g) = res_vega (pricing_result Put g) /\
    delta (pricing_result Call g) - delta (pricing_result Put g)
      = exp (- (0.03 * 1)).
Proof.
  apply (C6_greek_consistency 100 100 1 0.05 0.03 0.2); lra.
Defined.







(** C9, as the code has it.  The precondition is enforced by the script
    and by nothing else.  A run in which spot, strike, time to expiry
    ([T_days / 365]) or volatility is not positive ends in the input
    rejection, before [greeks] or [implied_vol] is evaluated.  The pricing
    functions themselves validate nothing: whatever the signs of their
    arguments, [bs_price] and [greeks] return numbers exactly when
    [T > 0], [vol <> 0] and [S], [K] are non-zero of the same sign, so they
    do for a negative volatility, and otherwise raise [ZeroDivisionError]
    or [ValueError], both the same; and [implied_vol] answers [T <= 0]
    with NaN, the exception of its first price evaluation being caught. *)
Theorem C9_invalid_input_rejected (brentq : solver)
    (S K T_days r vol q : R) (mkt_price : option R) :
  (S <= 0 \/ K <= 0 \/ T_days / 365.0 <= 0 \/ vol <= 0 ->
   script brentq S K T_days r vol q mkt_price = InputRejected) /\
  (forall (T : R) (opt_type : string),
     ((exists p : R, bs_price S K T r q vol opt_type = Ok p) <->
      0 < T /\ vol <> 0 /\ 0 < S * K) /\
     ((exists g : greeks_result, greeks S K T r q vol = Ok g) <->
      0 < T /\ vol <> 0 /\ 0 < S * K) /\
     (forall e : exn,
        bs_price S K T r q vol opt_type = Raise e ->
        greeks S K T r q vol = Raise e /\
        (e = ZeroDivisionError \/ e = ValueError))) /\
  (forall (T m : R) (c : ascii) (rest : string),
     brentq_propagates brentq -> T <= 0 ->
     implied_vol brentq m S K T r q (String c rest) = Ok NaN).
Proof.
  split.
  { intros Hbad. unfold script.
    assert (Hguard : Rleb S 0 || Rleb K 0 || Rleb T_days 0 || Rleb vol 0
                     = true).
    { apply guard_rejects. lra. }
    rewrite Hguard. reflexivity. }
  split.
  - intros T opt_type.
    destruct (domain_dec S K T vol) as [Hd | Hbad].
    + destruct Hd as (HT & Hvol & HSK).
      rewrite bs_price_ok, greeks_closed_form by assumption.
      split; [split; [intros _; tauto | intros _; eexists; reflexivity] |].
      split; [split; [intros _; tauto | intros _; eexists; reflexivity] |].
      intros e He. discriminate.
    + rewrite bs_price_raises, greeks_raises by exact Hbad.
      split; [split; [intros [p Hp]; discriminate | intros Hd; contradiction] |].
      split; [split; [intros [g Hg]; discriminate | intros Hd; contradiction] |].
      intros e He. injection He as <-. split; [reflexivity |].
      destruct (Rlt_dec T 0); [tauto |].
      destruct (Req_dec_T K 0); [tauto |].
      destruct (Rle_dec (S * K) 0); tauto.
  - intros T m c rest Hprop HT. apply implied_vol_expired; assumption.
Qed.

Lemma C9_witness :
  script bisect 100 100 30 0.05 (-0.2) 0 (Some 2.5) = InputRejected.
Proof.
  apply (proj1 (C9_invalid_input_rejected bisect 100 100 30 0.05 (-0.2) 0
                  (Some 2.5))).
  right. right. right. lra.
Defined.

(** The pricing engine on inputs that violate the precondition: for the
    volatility [-0.2] [bs_price] returns a number, a negative price, and
    for [T = 0] [implied_vol] returns NaN. *)
Lemma C9_engine_does_not_validate :
  (exists p : R,
     bs_price 100 100 1 0 0 (-0.2) "call" = Ok p /\ p < 0) /\
  implied_vol bisect 10 100 100 0 0 0 "call" = Ok NaN.
Proof.
  split.
  - exists (- bsm_price 100 100 1 0 0 0.2 Put).
    replace (-0.2) with (Ropp 0.2) by lra.
    split.
    + rewrite bs_price_ok by lra.
      change (classify_str "call") with Call.
      destruct (bsm_price_neg_vol 100 100 1 0 0 0.2) as [H _]; [lra | lra |].
      rewrite H. reflexivity.
    + pose proof (bsm_price_pos 100 100 1 0 0 0.2 Put). lra.
  - apply (implied_vol_expired bisect 10 100 100 0 0 0 "c" "all").
    + exact bisect_propagates.
    + lra.
Qed.

(** C10.  The option type is any non-empty string: one whose first
    character is ['c'] or ['C'] is treated exactly as ["call"], every other
    one (["xyz"] included) exactly as ["put"], in the pricing function and
    in the solver with its intrinsic-value check alike; taking the first
    character raises nothing, and on valid inputs the price is the
    closed-form call or put value accordingly. *)
Theorem C10_option_type_by_first_char (brentq : solver)
    (price_mkt S K T r q vol : R) (c : ascii) (rest : string) :
  let opt_type := String c rest in
  let canonical := if is_c c then "call"%string else "put"%string in
  (is_c c = true <-> c = "c"%char \/ c = "C"%char) /\
  bs_price S K T r q vol opt_type = bs_price S K T r q vol canonical /\
  implied_vol brentq price_mkt S K T r q opt_type
    = implied_vol brentq price_mkt S K T r q canonical /\
  index0 opt_type = Ok (String c EmptyString) /\
  intrinsic_of (String c EmptyString) S K
      (math_exp (- r * T)) (math_exp (- q * T))
    = (if is_c c
       then py_max 0.0 (S * math_exp (- q * T) - K * math_exp (- r * T))
       else py_max 0.0 (K * math_exp (- r * T) - S * math_exp (- q * T))) /\
  (0 < S -> 0 < K -> 0 < T -> 0 < vol ->
   bs_price S K T r q vol opt_type
     = Ok (bsm_price S K T r q vol (if is_c c then Call else Put))) /\
  bs_price S K T r q vol "xyz" = bs_price S K T r q vol "put".
Proof.
  intros opt_type canonical. subst opt_type canonical.
  split; [apply is_c_spec |].
  split; [rewrite canonical_name; apply bs_price_classify |].
  split; [rewrite canonical_name; apply implied_vol_classify |].
  split; [reflexivity |].
  split.
  { unfold intrinsic_of. rewrite index0_lower_c. reflexivity. }
  split.
  - intros HS HK HT Hvol. rewrite bs_price_classify.
    apply bs_price_valid; assumption.
  - exact (bs_price_classify S K T r q vol "x" "yz").
Qed.

Lemma C10_witness :
  bs_price 100 100 1 0.05 0 0.2 "xyz"
    = Ok (bsm_price 100 100 1 0.05 0 0.2 Put) /\
  bs_price 100 100 1 0.05 0 0.2 "Call"
    = Ok (bsm_price 100 100 1 0.05 0 0.2 Call).
Proof.
  split.
  - apply (proj1 (proj2 (proj2 (proj2 (proj2 (proj2
             (C10_option_type_by_first_char bisect 0
                100 100 1 0.05 0 0.2 "x" "yz"))))))); lra.
  - apply (proj1 (proj2 (proj2 (proj2 (proj2 (proj2
             (C10_option_type_by_first_char bisect 0
                100 100 1 0.05 0 0.2 "C" "all"))))))); lra.
Defined.

(** * Part V.  Further properties of the code *)

(** ** The pricing functions off and on their domain *)

(** X1.  The domain of [bs_price] and the exception it raises outside it,
    in real arithmetic and for every option-type string.  [bs_price]
    returns a number exactly when [T > 0], [vol <> 0] and [S], [K] are
    non-zero of the same sign ([S * K > 0]).  It raises
    [ZeroDivisionError] exactly when [T >= 0] and either [K = 0], or [S],
    [K] have the same sign and [T = 0] or [vol = 0].  It raises
    [ValueError] exactly when [T < 0], or [K <> 0] and [S * K <= 0]. *)
Theorem X1_bs_price_domain (S K T r q vol : R) (opt_type : string) :
  ((exists v : R, bs_price S K T r q vol opt_type = Ok v) <->
   0 < T /\ vol <> 0 /\ 0 < S * K) /\
  (bs_price S K T r q vol opt_type = Raise ZeroDivisionError <->
   0 <= T /\ (K = 0 \/ (0 < S * K /\ (T = 0 \/ vol = 0)))) /\
  (bs_price S K T r q vol opt_type = Raise ValueError <->
   T < 0 \/ (K <> 0 /\ S * K <= 0)).
Proof.
  destruct (domain_dec S K T vol) as [Hd | Hbad].
  - destruct Hd as (HT & Hvol & HSK).
    rewrite bs_price_ok by assumption.
    assert (HK : K <> 0) by (intros ->; lra).
    split; [| split].
    + split; [intros _; tauto | intros _; eexists; reflexivity].
    + split; [discriminate |].
      intros [_ [HK0 | [_ [HT0 | Hv0]]]]; [contradiction | lra | contradiction].
    + split; [discriminate |]. intros [Hn | [_ Hle]]; lra.
  - rewrite bs_price_raises by exact Hbad.
    split; [| split].
    + split; [intros [v Hv]; discriminate | intros Hd; contradiction].
    + destruct (Rlt_dec T 0) as [HT | HT];
        [split; [discriminate | intros [Hc _]; lra] |].
      destruct (Req_dec_T K 0) as [HK | HK];
        [split; [intros _; split; [lra | tauto] | reflexivity] |].
      destruct (Rle_dec (S * K) 0) as [HSK | HSK];
        [split; [discriminate |
                 intros [_ [Hc | [Hc _]]]; [contradiction | lra]] |].
      split; [| reflexivity]. intros _. split; [lra |]. right. split; [lra |].
      destruct (Req_dec_T T 0); [tauto |].
      destruct (Req_dec_T vol 0); [tauto |].
      exfalso. apply Hbad. repeat split; lra.
    + destruct (Rlt_dec T 0) as [HT | HT];
        [split; [intros _; tauto | reflexivity] |].
      destruct (Req_dec_T K 0) as [HK | HK];
        [split; [discriminate | intros [Hn | [Hc _]]; [lra | contradiction]] |].
      destruct (Rle_dec (S * K) 0) as [HSK | HSK];
        [split; [intros _; tauto | reflexivity] |].
      split; [discriminate | intros [Hn | [_ Hle]]; lra].
Qed.

(** X2.  [greeks] and [bs_price] agree on every input: the call and put
    prices in the tuple [greeks] returns are the ones [bs_price] returns
    for ["call"] and ["put"], and where [bs_price] raises, [greeks] raises
    the same exception. *)
Theorem X2_greeks_prices_agree (S K T r q vol : R) :
  (g <- greeks S K T r q vol ;; Ok (call g, put g)) =
  (c <- bs_price S K T r q vol "call" ;;
   p <- bs_price S K T r q vol "put" ;; Ok (c, p)).
Proof.
  destruct (domain_dec S K T vol) as [(HT & Hvol & HSK) | Hbad].
  - pose proof (greeks_ok S K T r q vol HT Hvol HSK) as Hg. cbv zeta in Hg.
    rewrite Hg, !bs_price_ok by assumption. reflexivity.
  - rewrite greeks_raises, !bs_price_raises by exact Hbad. reflexivity.
Qed.



(** X4.  Put-call duality: on valid inputs the put price is the call price
    with spot and strike exchanged and the two rates exchanged. *)
Theorem X4_put_call_duality (S K T r q vol : R) :
  0 < S -> 0 < K -> 0 < T -> 0 < vol ->
  bs_price S K T r q vol "put" = bs_price K S T q r vol "call".
Proof.
  intros HS HK HT Hvol.
  change "put"%string with (opt_name Put).
  change "call"%string with (opt_name Call).
  rewrite (bs_price_valid S K T r q vol HS HK HT Hvol Put).
  rewrite (bs_price_valid K S T q r vol HK HS HT Hvol Call).
  rewrite bsm_put_as_call by assumption. reflexivity.
Qed.

Lemma X4_witness :
  bs_price 100 90 1 0.05 0.01 0.2 "put"
  = bs_price 90 100 1 0.01 0.05 0.2 "call".
Proof.
  apply (X4_put_call_duality 100 90 1 0.05 0.01 0.2); lra.
Defined.

(** X5.  Homogeneity: multiplying spot and strike by the same non-zero
    factor leaves what [d1_d2] returns unchanged and multiplies the price
    by that factor; where the one call raises, the other raises the same
    exception. *)
Theorem X5_price_homogeneous (k S K T r q vol : R) (opt_type : string) :
  k <> 0 ->
  d1_d2 (k * S) (k * K) T r q vol = d1_d2 S K T r q vol /\
  bs_price (k * S) (k * K) T r q vol opt_type =
  (p <- bs_price S K T r q vol opt_type ;; Ok (k * p)).
Proof.
  intros Hk. split.
  - apply d1_d2_scale. exact Hk.
  - apply bs_price_scale. exact Hk.
Qed.

Lemma X5_witness :
  d1_d2 (2 * 50) (2 * 45) 1 0.05 0 0.2 = d1_d2 50 45 1 0.05 0 0.2 /\
  bs_price (2 * 50) (2 * 45) 1 0.05 0 0.2 "call" =
  (p <- bs_price 50 45 1 0.05 0 0.2 "call" ;; Ok (2 * p)).
Proof.
  apply (X5_price_homogeneous 2 50 45 1 0.05 0 0.2 "call"). lra.
Defined.

(** X6.  A negative volatility is not rejected by [bs_price]: the call
    price at [-vol] is minus the put price at [vol], and the put price at
    [-vol] minus the call price at [vol]; where the one call raises, the
    other raises the same exception. *)
Theorem X6_negative_volatility (S K T r q vol : R) :
  bs_price S K T r q (- vol) "call" =
  (p <- bs_price S K T r q vol "put" ;; Ok (- p)) /\
  bs_price S K T r q (- vol) "put" =
  (c <- bs_price S K T r q vol "call" ;; Ok (- c)).
Proof.
  destruct (domain_dec S K T vol) as [(HT & Hvol & HSK) | Hbad].
  - assert (Hn : - vol <> 0) by lra.
    destruct (bsm_price_neg_vol S K T r q vol HT Hvol) as [H1 H2].
    rewrite !bs_price_ok by assumption. cbn [bind].
    change (classify_str "call") with Call.
    change (classify_str "put") with Put.
    rewrite H1, H2. split; reflexivity.
  - assert (Hbad' : ~ (0 < T /\ - vol <> 0 /\ 0 < S * K)).
    { intros (H1 & H2 & H3). apply Hbad. repeat split; lra. }
    rewrite (bs_price_raises S K T r q (- vol)) by exact Hbad'.
    rewrite (bs_price_raises S K T r q (- vol)) by exact Hbad'.
    rewrite !bs_price_raises by exact Hbad. split; reflexivity.
Qed.

(** ** The Greeks are the sensitivities of the price *)

(** X7.  Delta: on valid inputs the price [bs_price] returns, as a function
    of the spot, is differentiable at [S] and its derivative is the delta
    [greeks] returns, for the call and for the put. *)
Theorem X7_delta_is_spot_derivative (S K T r q sigma : R) (ty : OptionType) :
  0 < S -> 0 < K -> 0 < T -> 0 < sigma ->
  exists g : greeks_result,
    greeks S K T r q sigma = Ok g /\
    derivable_pt_lim
      (fun s => value_of (bs_price s K T r q sigma (opt_name ty))) S
      (delta (pricing_result ty g)).
Proof.
  intros HS HK HT Hsig. exists (bsm_greeks S K T r q sigma).
  split; [apply greeks_pos; assumption |].
  apply delta_is_spot_derivative; assumption.
Qed.

Lemma X7_witness :
  exists g : greeks_result,
    greeks 100 100 1 0.05 0 0.2 = Ok g /\
    derivable_pt_lim
      (fun s => value_of (bs_price s 100 1 0.05 0 0.2 "put")) 100
      (delta_p g).
Proof.
  apply (X7_delta_is_spot_derivative 100 100 1 0.05 0 0.2 Put); lra.
Defined.

(** X8.  Gamma: on valid inputs the delta [greeks] returns, as a function
    of the spot, is differentiable at [S] and its derivative is the gamma
    [greeks] returns, for the call delta and for the put delta. *)
Theorem X8_gamma_is_delta_derivative (S K T r q sigma : R) (ty : OptionType) :
  0 < S -> 0 < K -> 0 < T -> 0 < sigma ->
  exists g : greeks_result,
    greeks S K T r q sigma = Ok g /\
    derivable_pt_lim
      (fun s => greek_of (fun g' => delta (pricing_result ty g'))
                  (greeks s K T r q sigma)) S
      (gamma g).
Proof.
  intros HS HK HT Hsig. exists (bsm_greeks S K T r q sigma).
  split; [apply greeks_pos; assumption |].
  apply gamma_is_delta_derivative; assumption.
Qed.

Lemma X8_witness :
  exists g : greeks_result,
    greeks 100 100 1 0.05 0 0.2 = Ok g /\
    derivable_pt_lim
      (fun s => greek_of delta_c (greeks s 100 1 0.05 0 0.2)) 100
      (gamma g).
Proof.
  apply (X8_gamma_is_delta_derivative 100 100 1 0.05 0 0.2 Call); lra.
Defined.

(** X9.  Vega: on valid inputs the price [bs_price] returns, as a function
    of the volatility, is differentiable at [sigma] and its derivative is
    the vega [greeks] returns, for the call and for the put. *)
Theorem X9_vega_is_vol_derivative (S K T r q sigma : R) (ty : OptionType) :
  0 < S -> 0 < K -> 0 < T -> 0 < sigma ->
  exists g : greeks_result,
    greeks S K T r q sigma = Ok g /\
    derivable_pt_lim
      (fun v => value_of (bs_price S K T r q v (opt_name ty))) sigma
      (vega g).
Proof.
  intros HS HK HT Hsig. exists (bsm_greeks S K T r q sigma).
  split; [apply greeks_pos; assumption |].
  destruct ty.
  - exact (vega_is_vol_derivative S K T r q sigma Call HS HK HT Hsig).
  - exact (vega_is_vol_derivative S K T r q sigma Put HS HK HT Hsig).
Qed.

Lemma X9_witness :
  exists g : greeks_result,
    greeks 100 100 1 0.05 0 0.2 = Ok g /\
    derivable_pt_lim
      (fun v => value_of (bs_price 100 100 1 0.05 0 v "call")) 0.2
      (vega g).
Proof.
  apply (X9_vega_is_vol_derivative 100 100 1 0.05 0 0.2 Call); lra.
Defined.

(** X10.  Rho: on valid inputs the price [bs_price] returns, as a function
    of the risk-free rate, is differentiable at [r] and its derivative is
    the rho [greeks] returns, for the call and for the put. *)
Theorem X10_rho_is_rate_derivative (S K T r q sigma : R) (ty : OptionType) :
  0 < S -> 0 < K -> 0 < T -> 0 < sigma ->
  exists g : greeks_result,
    greeks S K T r q sigma = Ok g /\
    derivable_pt_lim
      (fun x => value_of (bs_price S K T x q sigma (opt_name ty))) r
      (rho (pricing_result ty g)).
Proof.
  intros HS HK HT Hsig. exists (bsm_greeks S K T r q sigma).
  split; [apply greeks_pos; assumption |].
  apply rho_is_rate_derivative; assumption.
Qed.

Lemma X10_witness :
  exists g : greeks_result,
    greeks 100 100 1 0.05 0 0.2 = Ok g /\
    derivable_pt_lim
      (fun x => value_of (bs_price 100 100 1 x 0 0.2 "put")) 0.05
      (rho_p g).
Proof.
  apply (X10_rho_is_rate_derivative 100 100 1 0.05 0 0.2 Put); lra.
Defined.

(** X11.  Theta: on valid inputs the price [bs_price] returns, as a
    function of the time to expiry, is differentiable at [T] and its
    derivative is minus the theta [greeks] returns (theta is the change of
    the price as the expiry comes nearer), for the call and for the put. *)
Theorem X11_theta_is_time_decay (S K T r q sigma : R) (ty : OptionType) :
  0 < S -> 0 < K -> 0 < T -> 0 < sigma ->
  exists g : greeks_result,
    greeks S K T r q sigma = Ok g /\
    derivable_pt_lim
      (fun t => value_of (bs_price S K t r q sigma (opt_name ty))) T
      (- theta (pricing_result ty g)).
Proof.
  intros HS HK HT Hsig. exists (bsm_greeks S K T r q sigma).
  split; [apply greeks_pos; assumption |].
  apply theta_is_expiry_derivative; assumption.
Qed.

Lemma X11_witness :
  exists g : greeks_result,
    greeks 100 100 1 0.05 0 0.2 = Ok g /\
    derivable_pt_lim
      (fun t => value_of (bs_price 100 100 t 0.05 0 0.2 "call")) 1
      (- theta_c g).
Proof.
  apply (X11_theta_is_time_decay 100 100 1 0.05 0 0.2 Call); lra.
Defined.

(** X12.  Signs and ranges of the Greeks on valid inputs: the call delta
    lies between 0 and [exp(-q*T)], the put delta between [-exp(-q*T)] and
    0, gamma and vega are not negative with
    [vega = gamma * S^2 * sigma * T], the call rho is not negative and the
    put rho not positive.  (All of these are strict for the closed forms;
    the computed values reach the bounds where [norm.cdf] or [norm.pdf]
    has reached 0.0 or 1.0.) *)
Theorem X12_greek_signs (S K T r q sigma : R) :
  0 < S -> 0 < K -> 0 < T -> 0 < sigma ->
  exists g : greeks_result,
    greeks S K T r q sigma = Ok g /\
    0 <= delta_c g <= exp (- (q * T)) /\
    - exp (- (q * T)) <= delta_p g <= 0 /\
    0 <= gamma g /\
    0 <= vega g /\
    vega g = gamma g * S * S * sigma * T /\
    0 <= rho_c g /\
    rho_p g <= 0.
Proof.
  intros HS HK HT Hsig. exists (bsm_greeks S K T r q sigma).
  split; [apply greeks_pos; assumption |].
  pose proof (greek_signs S K T r q sigma HS HK HT Hsig)
    as (H1 & H2 & H3 & H4 & H5 & H6 & H7).
  repeat split; first [lra | exact H5].
Qed.

Lemma X12_witness :
  exists g : greeks_result,
    greeks 100 100 1 0.05 0 0.2 = Ok g /\
    0 <= delta_c g <= exp (- (0 * 1)) /\
    - exp (- (0 * 1)) <= delta_p g <= 0 /\
    0 <= gamma g /\
    0 <= vega g /\
    vega g = gamma g * 100 * 100 * 0.2 * 1 /\
    0 <= rho_c g /\
    rho_p g <= 0.
Proof.
  apply (X12_greek_signs 100 100 1 0.05 0 0.2); lra.
Defined.

(** X13.  Parity of theta and rho on valid inputs:
    [theta_c - theta_p = q*S*exp(-q*T) - r*K*exp(-r*T)] and
    [rho_c - rho_p = K*T*exp(-r*T)], the derivatives of the two sides of
    put-call parity. *)
Theorem X13_theta_rho_parity (S K T r q sigma : R) :
  0 < S -> 0 < K -> 0 < T -> 0 < sigma ->
  exists g : greeks_result,
    greeks S K T r q sigma = Ok g /\
    theta_c g - theta_p g
      = q * S * exp (- (q * T)) - r * K * exp (- (r * T)) /\
    rho_c g - rho_p g = K * T * exp (- (r * T)).
Proof.
  intros HS HK HT Hsig. exists (bsm_greeks S K T r q sigma).
  split; [apply greeks_pos; assumption |].
  exact (greek_parities S K T r q sigma HT).
Qed.

Lemma X13_witness :
  exists g : greeks_result,
    greeks 100 100 1 0.05 0.01 0.2 = Ok g /\
    theta_c g - theta_p g
      = 0.01 * 100 * exp (- (0.01 * 1)) - 0.05 * 100 * exp (- (0.05 * 1)) /\
    rho_c g - rho_p g = 100 * 1 * exp (- (0.05 * 1)).
Proof.
  apply (X13_theta_rho_parity 100 100 1 0.05 0.01 0.2); lra.
Defined.

(** ** The implied-volatility search *)

(** X14.  The empty option type.  The only exception [implied_vol] lets
    out is the [IndexError] of [opt_type[0]] on the empty string, which it
    raises whatever the other arguments and the solver; [bs_price] takes
    the same string without complaint and prices a put. *)
Theorem X14_empty_option_type (brentq : solver)
    (m S K T r q vol : R) (opt_type : string) :
  (forall e : exn,
     implied_vol brentq m S K T r q opt_type = Raise e <->
     opt_type = EmptyString /\ e = IndexError) /\
  bs_price S K T r q vol "" = bs_price S K T r q vol "put".
Proof.
  split; [| reflexivity].
  intros e. destruct opt_type as [| c rest].
  - rewrite implied_vol_empty. split.
    + intros H. injection H as <-. split; reflexivity.
    + intros [_ ->]. reflexivity.
  - destruct (implied_vol_total brentq m S K T r q c rest) as [v Hv].
    rewrite Hv. split; [discriminate |]. intros [H _]. discriminate H.
Qed.



(** ** The script *)

(** X17.  How a run of the script past the inputs ends.  It stops with the
    input error exactly when one of [S], [K], [T_days], [vol] is not
    positive.  Whenever it displays results, the Greeks shown are what
    [greeks] returns on [T = T_days / 365], and the implied volatilities
    are computed, for ["call"] and for ["put"] from the same quote,
    exactly when a market price was entered. *)
Theorem X17_script_outcomes (brentq : solver)
    (S K T_days r vol q : R) (mkt_price : option R) :
  (script brentq S K T_days r vol q mkt_price = InputRejected <->
   S <= 0 \/ K <= 0 \/ T_days <= 0 \/ vol <= 0) /\
  (forall (g : greeks_result) (iv : option (pyfloat * pyfloat)),
     script brentq S K T_days r vol q mkt_price = Displayed g iv ->
     greeks S K (T_days / 365.0) r q vol = Ok g /\
     match mkt_price with
     | None => iv = None
     | Some m =>
         exists iv_c iv_p : pyfloat,
           iv = Some (iv_c, iv_p) /\
           implied_vol brentq m S K (T_days / 365.0) r q "call" = Ok iv_c /\
           implied_vol brentq m S K (T_days / 365.0) r q "put" = Ok iv_p
     end).
Proof.
  split.
  - apply script_rejected_iff.
  - intros g iv H. exact (script_displayed_inv _ _ _ _ _ _ _ _ _ _ H).
Qed.

(** ** Text helpers and the input block *)

(** X18.  Geometry of [box] and [line], for every title and every width,
    negative ones included.  The two borders of a box have
    [2 + max(0, width - 2)] characters and the title line
    [2 + max(len(title), width - 2)]: the three lines are equally long
    exactly when the title fits, [len(title) <= max(0, width - 2)].  The
    title line is the title between two runs of spaces whose lengths differ
    by at most one, between two bars.  [line(width)] has [max(0, width)]
    characters, as many as a border of [box(title, width)] once
    [width >= 2]. *)
Theorem X18_box_geometry (title : ustr) (width : Z) :
  let '(top, mid, bot) := box title width in
  len top = (2 + Z.max 0 (width - 2))%Z /\
  len bot = (2 + Z.max 0 (width - 2))%Z /\
  len mid = (2 + Z.max (len title) (width - 2))%Z /\
  (len mid = len top <-> (len title <= Z.max 0 (width - 2))%Z) /\
  (exists l r : Z,
     mid = [BOX_V] ++ str_mul [SPACE] l ++ title ++ str_mul [SPACE] r
           ++ [BOX_V] /\
     (Z.abs (l - r) <= 1)%Z) /\
  len (line width) = Z.max 0 width /\
  ((2 <= width)%Z -> len (line width) = len top).
Proof.
  unfold box, line. cbv zeta.
  rewrite !len_app, !len_str_mul1, len_center.
  change (len [BOX_TL]) with 1%Z. change (len [BOX_TR]) with 1%Z.
  change (len [BOX_BL]) with 1%Z. change (len [BOX_BR]) with 1%Z.
  change (len [BOX_V]) with 1%Z.
  pose proof (len_nonneg title) as Hn.
  split; [lia |]. split; [lia |]. split; [lia |]. split; [lia |].
  split; [| split; [reflexivity | lia]].
  destruct (center_shape title (width - 2)) as (l & r & Heq & _ & _ & _ & Habs).
  exists l, r. split; [| exact Habs].
  rewrite Heq, <- !app_assoc. reflexivity.
Qed.

(** X19.  [ask_float], case by case.  At end of input it raises
    [EOFError].  On a line of whitespace only it returns the default and
    consumes the line, or raises [ValueError] when there is no default.  On
    any other line it returns what [float] reads off the stripped text, or
    raises what [float] raises.  Whitespace around the text typed changes
    nothing. *)
Theorem X19_ask_float_cases (py_float : ustr -> res R)
    (prompt : ustr) (default : option R) :
  ask_float py_float prompt default [] = Failed EOFError /\
  (forall (l : ustr) (rest : stdin),
     forallb py_isspace l = true ->
     ask_float py_float prompt default (l :: rest) =
     match default with
     | None => Failed (Py ValueError)
     | Some d => Got d rest
     end) /\
  (forall (l : ustr) (rest : stdin),
     forallb py_isspace l = false ->
     ask_float py_float prompt default (l :: rest) =
     match py_float (strip l) with
     | Ok x => Got x rest
     | Raise e => Failed (Py e)
     end) /\
  (forall (ws1 s ws2 : ustr) (rest : stdin),
     forallb py_isspace ws1 = true -> forallb py_isspace ws2 = true ->
     ask_float py_float prompt default ((ws1 ++ s ++ ws2) :: rest) =
     ask_float py_float prompt default (s :: rest)).
Proof.
  split; [reflexivity |].
  split; [intros l rest H; apply ask_float_blank; exact H |].
  split; [intros l rest H; apply ask_float_text; exact H |].
  intros ws1 s ws2 rest H1 H2. apply ask_float_padding; assumption.
Qed.

(** X20.  What the input block accepts.  The seven prompts succeed exactly
    when standard input starts with seven lines of which the first five
    hold numbers, the sixth holds a number or is blank, in which case [q]
    is [0.0], and the seventh holds a number or is blank, in which case
    there is no market price; the values are read in the order [S], [K],
    [T_days], [r], [vol], [q], market price, and exactly seven lines are
    consumed. *)
Theorem X20_read_inputs_spec (py_float : ustr -> res R) (LABEL RST : ustr)
    (inp rest : stdin) (i : inputs) :
  read_inputs py_float LABEL RST inp = Got i rest <->
  exists l1 l2 l3 l4 l5 l6 l7 : ustr,
    inp = l1 :: l2 :: l3 :: l4 :: l5 :: l6 :: l7 :: rest /\
    typed py_float l1 (in_S i) /\
    typed py_float l2 (in_K i) /\
    typed py_float l3 (in_T_days i) /\
    typed py_float l4 (in_r i) /\
    typed py_float l5 (in_vol i) /\
    ((strip l6 = [] /\ in_q i = 0.0) \/ typed py_float l6 (in_q i)) /\
    ((strip l7 = [] /\ in_mkt_price i = None) \/
     exists m : R, typed py_float l7 m /\ in_mkt_price i = Some m).
Proof.
  exact (read_inputs_spec py_float LABEL RST inp rest i).
Qed.

(** X21.  Runs that end in the input error of the [try] block: every run
    on fewer than seven lines of input, and every run in which one of the
    first five lines is blank. *)
Theorem X21_input_errors (py_float : ustr -> res R) (LABEL RST : ustr)
    (brentq : solver) (inp : stdin) :
  ((length inp < 7)%nat ->
   exists e : input_exn,
     main py_float LABEL RST brentq inp = InputError e) /\
  (forall (k : nat) (l : ustr),
     (k < 5)%nat -> nth_error inp k = Some l ->
     forallb py_isspace l = true ->
     exists e : input_exn,
       main py_float LABEL RST brentq inp = InputError e).
Proof.
  split.
  - apply main_short_input.
  - intros k l. apply main_blank_required.
Qed.

(** X22.  A run that displays results, from standard input to the Greeks.
    The input then starts with seven lines; the first five hold the numbers
    [S], [K], [T_days], [r], [vol]; the sixth holds [q] or is blank and [q]
    is [0.0]; the Greeks displayed are those [greeks] returns on
    [T = T_days / 365]; and no implied volatility is shown exactly when the
    seventh line is blank. *)
Theorem X22_displayed_run (py_float : ustr -> res R) (LABEL RST : ustr)
    (brentq : solver) (inp : stdin)
    (g : greeks_result) (iv : option (pyfloat * pyfloat)) :
  main py_float LABEL RST brentq inp = Ran (Displayed g iv) ->
  exists (l1 l2 l3 l4 l5 l6 l7 : ustr) (rest : stdin)
         (S K T_days r vol q : R),
    inp = l1 :: l2 :: l3 :: l4 :: l5 :: l6 :: l7 :: rest /\
    typed py_float l1 S /\ typed py_float l2 K /\
    typed py_float l3 T_days /\ typed py_float l4 r /\
    typed py_float l5 vol /\
    ((strip l6 = [] /\ q = 0.0) \/ typed py_float l6 q) /\
    greeks S K (T_days / 365.0) r q vol = Ok g /\
    (iv = None <-> forallb py_isspace l7 = true).
Proof.
  apply main_displayed_inv.
Qed.

Lemma X22_witness :
  let py_float : ustr -> res R := fun _ => Ok 1 in
  let inp : stdin := [u "1"; u " 1"; u "1 "; u "1"; u "1"; u ""; u "  "] in
  exists (g : greeks_result) (iv : option (pyfloat * pyfloat)),
    main py_float [] [] bisect inp = Ran (Displayed g iv) /\
    exists (l1 l2 l3 l4 l5 l6 l7 : ustr) (rest : stdin)
           (S K T_days r vol q : R),
      inp = l1 :: l2 :: l3 :: l4 :: l5 :: l6 :: l7 :: rest /\
      typed py_float l1 S /\ typed py_float l2 K /\
      typed py_float l3 T_days /\ typed py_float l4 r /\
      typed py_float l5 vol /\
      ((strip l6 = [] /\ q = 0.0) \/ typed py_float l6 q) /\
      greeks S K (T_days / 365.0) r q vol = Ok g /\
      (iv = None <-> forallb py_isspace l7 = true).
Proof.
  intros py_float inp.
  destruct (script_valid_runs bisect 1 1 1 1 1 0.0 None)
    as (g & iv & _ & Hs); try lra.
  assert (Hm : main py_float [] [] bisect inp = Ran (Displayed g iv)).
  { rewrite <- Hs. reflexivity. }
  exists g, iv. split; [exact Hm |].
  exact (X22_displayed_run py_float [] [] bisect inp g iv Hm).
Defined.
